(** * go-data: the generic value container, its path resolver, merge engine,
      patch engine and text codec, embedded in Rocq.

    The Go sources are [data.go] (Parse, ParseJSON, parseJSONValue, Query,
    Get, get, Delete, delete, json, String, Clone, MarshalJSON,
    UnmarshalJSON), the merge file (Merge, MergeTo, merge, mergeValue),
    [patch.go] (Patch, PatchAction, Apply, ApplyTo) and the field tag file
    (ParseFieldTag).

    Two layers are embedded:
    - the path resolver, the merge engine and the patch engine mutate Go maps
      and slices in place through [reflect]; they are embedded over an explicit
      store of map objects and backing arrays, in a state monad whose outcomes
      include Go panics;
    - the text codec builds fresh values only; it is embedded as pure
      functions over value trees.

    Values range over the canonical value model: nil, bool, int64, uint64,
    float64, complex128, string, [RawData] maps and typed slices of those.
    Host containers outside the model (maps whose keys are not strings,
    [time.Time]) are not represented, so the branches of [RawData.get] for
    maps keyed by integers or floats have no counterpart below. *)

From Stdlib Require Import ZArith String Ascii List Bool Lia DecimalString.
From Stdlib Require Import DecimalPos.
From Stdlib Require Import Floats.SpecFloat.
From stdpp Require Import base option list gmap strings sorting.

Open Scope string_scope.
Open Scope Z_scope.
Open Scope list_scope.

(** ** Go types and values *)

(** The static types that occur in a canonical value. [tObject] is
    [RawData], i.e. [map[string]interface{}]. *)
Inductive gtype : Type :=
| tBool | tInt64 | tUint64 | tFloat64 | tComplex128 | tString
| tObject
| tInterface
| tSlice (elem : gtype).

Global Instance gtype_eq_dec : EqDecision gtype.
Proof. solve_decision. Defined.

(** [float64] is IEEE 754 binary64: 53 bits of precision, [emax = 1024]. *)
Definition float64 := spec_float.
Definition prec64 : Z := 53.
Definition emax64 : Z := 1024.

Global Instance spec_float_eq_dec : EqDecision spec_float.
Proof. solve_decision. Defined.

(** Store addresses of map objects and of backing arrays. *)
Definition loc := nat.

(** A slice header: backing array ([None] for a nil slice), offset of the
    first element in it, length and capacity. *)
Record slice : Type := Slice {
  s_arr : option loc;
  s_off : nat;
  s_len : nat;
  s_cap : nat
}.

Global Instance slice_eq_dec : EqDecision slice.
Proof. solve_decision. Defined.

(** What an [interface{}] can hold inside a [Data]. [VMap None] is the nil
    map, [VSlice t s] a slice of static type [[]t]. *)
Inductive value : Type :=
| VNil
| VBool (b : bool)
| VInt64 (n : Z)
| VUint64 (n : Z)
| VFloat64 (f : float64)
| VComplex128 (re im : float64)
| VString (s : string)
| VMap (m : option loc)
| VSlice (t : gtype) (s : slice).

Global Instance value_eq_dec : EqDecision value.
Proof. solve_decision. Defined.

(** [reflect.TypeOf]; a nil interface has no type. *)
Definition type_of (v : value) : option gtype :=
  match v with
  | VNil => None
  | VBool _ => Some tBool
  | VInt64 _ => Some tInt64
  | VUint64 _ => Some tUint64
  | VFloat64 _ => Some tFloat64
  | VComplex128 _ _ => Some tComplex128
  | VString _ => Some tString
  | VMap _ => Some tObject
  | VSlice t _ => Some (tSlice t)
  end.

(** The zero value of a type, which fills the spare capacity of an array. *)
Definition zero_of (t : gtype) : value :=
  match t with
  | tBool => VBool false
  | tInt64 => VInt64 0
  | tUint64 => VUint64 0
  | tFloat64 => VFloat64 (S754_zero false)
  | tComplex128 => VComplex128 (S754_zero false) (S754_zero false)
  | tString => VString ""
  | tObject => VMap None
  | tInterface => VNil
  | tSlice e => VSlice e (Slice None 0 0 0)
  end.

(** ** The store *)

Inductive object : Type :=
| OMap (m : gmap string value)
| OArr (a : list value).

Definition heap := list object.

(** [RawData] is a reference to a map object; [Data] wraps it. *)
Definition RawData := option loc.
Record Data : Type := mkData { data : RawData }.

Definition emptyData : Data := mkData None.

(** ** Outcomes and the state monad *)

Inductive outcome (A : Type) : Type :=
| Ok (a : A) (h : heap)
| Panic (msg : string)
| OutOfFuel.
Arguments Ok {A} a h.
Arguments Panic {A} msg.
Arguments OutOfFuel {A}.

Definition M (A : Type) : Type := heap -> outcome A.

Definition ret {A} (a : A) : M A := fun h => Ok a h.

Definition bind {A B} (c : M A) (k : A -> M B) : M B :=
  fun h =>
    match c h with
    | Ok a h' => k a h'
    | Panic msg => Panic msg
    | OutOfFuel => OutOfFuel
    end.

Definition panic {A} (msg : string) : M A := fun _ => Panic msg.
Definition out_of_fuel {A} : M A := fun _ => OutOfFuel.

Notation "'let*' x ':=' c 'in' k" := (bind c (fun x => k))
  (at level 10, x name, c at level 100, k at level 200).
Notation "c ;; k" := (bind c (fun _ => k))
  (at level 100, k at level 200, right associativity).

Fixpoint forM_ {A} (xs : list A) (f : A -> M unit) : M unit :=
  match xs with
  | [] => ret tt
  | x :: xs' => f x ;; forM_ xs' f
  end.

Fixpoint traverse {A B} (f : A -> M B) (xs : list A) : M (list B) :=
  match xs with
  | [] => ret []
  | x :: xs' => let* y := f x in let* ys := traverse f xs' in ret (y :: ys)
  end.

(** *** Store primitives *)

Definition new_map (m : gmap string value) : M loc :=
  fun h => Ok (List.length h) (h ++ [OMap m]).

Definition new_arr (a : list value) : M loc :=
  fun h => Ok (List.length h) (h ++ [OArr a]).

Definition read_map (l : loc) : M (gmap string value) :=
  fun h =>
    match h !! l with
    | Some (OMap m) => Ok m h
    | _ => Panic "invalid memory address: not a map"
    end.

Definition write_map (l : loc) (m : gmap string value) : M unit :=
  fun h =>
    match h !! l with
    | Some (OMap _) => Ok tt (<[l := OMap m]> h)
    | _ => Panic "invalid memory address: not a map"
    end.

Definition read_arr (l : loc) : M (list value) :=
  fun h =>
    match h !! l with
    | Some (OArr a) => Ok a h
    | _ => Panic "invalid memory address: not an array"
    end.

Definition write_arr (l : loc) (a : list value) : M unit :=
  fun h =>
    match h !! l with
    | Some (OArr _) => Ok tt (<[l := OArr a]> h)
    | _ => Panic "invalid memory address: not an array"
    end.

(** Element [i] of a backing array. *)
Definition read_elem (a : loc) (i : nat) : M value :=
  let* xs := read_arr a in
  match xs !! i with
  | Some x => ret x
  | None => panic "index out of range"
  end.

Definition write_elem (a : loc) (i : nat) (x : value) : M unit :=
  let* xs := read_arr a in
  if decide (i < List.length xs)%nat then write_arr a (<[i := x]> xs)
  else panic "index out of range".

(** The elements a slice header sees. *)
Definition read_slice (s : slice) : M (list value) :=
  match s_arr s with
  | None => ret []
  | Some a => let* xs := read_arr a in ret (take (s_len s) (drop (s_off s) xs))
  end.

(** [copy(dst[i:], xs)] into a backing array, element by element. *)
Definition write_range (a : loc) (i : nat) (xs : list value) : M unit :=
  let* old := read_arr a in
  if decide (i + List.length xs <= List.length old)%nat
  then write_arr a (take i old ++ xs ++ drop (i + List.length xs) old)
  else panic "index out of range".

(** ** Strings: [strings.Split] and [strconv.ParseInt] *)

(** [strings.Split(s, ".")]: the empty string splits into one empty field. *)
Fixpoint split_dot (s : string) : list string :=
  match s with
  | EmptyString => [EmptyString]
  | String c rest =>
      match split_dot rest with
      | [] => [String c EmptyString]
      | x :: xs =>
          if Ascii.eqb c "."%char then EmptyString :: x :: xs
          else String c x :: xs
      end
  end.

Definition digit_of (c : ascii) : option Z :=
  let n := Z.of_N (N_of_ascii c) in
  if (48 <=? n) && (n <=? 57) then Some (n - 48) else None.

Fixpoint parse_digits (s : string) (acc : Z) : option Z :=
  match s with
  | EmptyString => Some acc
  | String c r =>
      match digit_of c with
      | Some d => parse_digits r (acc * 10 + d)
      | None => None
      end
  end.

(** [strconv.ParseUint(s, 10, 64)]; [None] stands for a syntax or range
    error. *)
Definition ParseUint (s : string) : option Z :=
  match s with
  | EmptyString => None
  | _ =>
      match parse_digits s 0 with
      | Some n => if n <=? 2 ^ 64 - 1 then Some n else None
      | None => None
      end
  end.

(** [strconv.ParseInt(s, 10, 64)]: an optional sign, then decimal digits. *)
Definition ParseInt (s : string) : option Z :=
  match s with
  | EmptyString => None
  | String c r =>
      let '(neg, s') :=
        if Ascii.eqb c "+"%char then (false, r)
        else if Ascii.eqb c "-"%char then (true, r)
        else (false, s) in
      match ParseUint s' with
      | None => None
      | Some un =>
          if neg then (if un <=? 2 ^ 63 then Some (- un) else None)
          else (if un <? 2 ^ 63 then Some un else None)
      end
  end.

Definition MaxInt32 : Z := 2 ^ 31 - 1.

(** ** [reflect.Value] *)

(** The shapes of [reflect.Value] the engine produces:
    - [Invalid], the zero Value;
    - [RIface v], a copy of an [interface{}] map element, as [MapIndex] on a
      [RawData] returns it: its kind is [Interface], it is not addressable;
    - [RVal v], a concrete value as [reflect.ValueOf] and [Elem] return it,
      not addressable;
    - [RElem t a i], element [i] of the backing array [a], of static type
      [t], as [Index] on a slice returns it: it is addressable and reads the
      array. *)
Inductive rvalue : Type :=
| Invalid
| RIface (v : value)
| RVal (v : value)
| RElem (t : gtype) (a : loc) (i : nat).

Definition IsValid (val : rvalue) : bool :=
  match val with Invalid => false | _ => true end.

(** [for val.Kind() == reflect.Interface { val = val.Elem() }]. [Elem] of a
    nil interface is the zero Value, whose kind is [Invalid]. *)
Definition unwrap (val : rvalue) : M rvalue :=
  match val with
  | RIface VNil => ret Invalid
  | RIface v => ret (RVal v)
  | RElem tInterface a i =>
      let* v := read_elem a i in
      ret (match v with VNil => Invalid | _ => RVal v end)
  | _ => ret val
  end.

(** What a Value currently holds; [VNil] for the zero Value. *)
Definition load (val : rvalue) : M value :=
  match val with
  | Invalid => ret VNil
  | RIface v => ret v
  | RVal v => ret v
  | RElem _ a i => read_elem a i
  end.

(** [val.Interface()]. *)
Definition Interface (val : rvalue) : M value :=
  match val with
  | Invalid => panic "reflect: call of reflect.Value.Interface on zero Value"
  | _ => load val
  end.

(** [m.MapIndex(k)] on a [RawData]; a nil map has no entries. *)
Definition MapIndex (m : RawData) (k : string) : M rvalue :=
  match m with
  | None => ret Invalid
  | Some l =>
      let* entries := read_map l in
      ret (match entries !! k with Some x => RIface x | None => Invalid end)
  end.

(** [m.SetMapIndex(k, elem)]: the zero Value deletes the key (a no-op on a
    nil map); storing into a nil map panics. *)
Definition SetMapIndex (m : RawData) (k : string) (elem : rvalue) : M unit :=
  match elem with
  | Invalid =>
      match m with
      | None => ret tt
      | Some l => let* entries := read_map l in write_map l (delete k entries)
      end
  | _ =>
      let* x := load elem in
      match m with
      | None => panic "assignment to entry in nil map"
      | Some l => let* entries := read_map l in write_map l (<[k := x]> entries)
      end
  end.

(** The Go statements [d[k] = x] and [delete(d, k)] on a [RawData]. *)
Definition map_assign (d : RawData) (k : string) (x : value) : M unit :=
  match d with
  | None => panic "assignment to entry in nil map"
  | Some l => let* entries := read_map l in write_map l (<[k := x]> entries)
  end.

Definition map_delete (d : RawData) (k : string) : M unit :=
  match d with
  | None => ret tt
  | Some l => let* entries := read_map l in write_map l (delete k entries)
  end.

(** [kv.Set(x)]: [kv] must be addressable and [x] valid. *)
Definition Set_ (kv x : rvalue) : M unit :=
  match kv with
  | RElem _ a i =>
      match x with
      | Invalid => panic "reflect: call of reflect.Value.Set on zero Value"
      | _ => let* v := load x in write_elem a i v
      end
  | _ => panic "reflect: reflect.Value.Set using unaddressable value"
  end.

(** [val.SetLen(n)]: only an addressable slice can be shortened in place. *)
Definition SetLen (val : rvalue) (n : nat) : M unit :=
  match val with
  | RElem _ a i =>
      let* v := read_elem a i in
      match v with
      | VSlice t s =>
          if decide (n <= s_cap s)%nat
          then write_elem a i (VSlice t (Slice (s_arr s) (s_off s) n (s_cap s)))
          else panic "reflect: slice length out of range in SetLen"
      | _ => panic "reflect: call of reflect.Value.SetLen on non-slice Value"
      end
  | _ => panic "reflect: reflect.Value.SetLen using unaddressable value"
  end.

(** [s.Slice(i, j)] on a slice. *)
Definition Slice_ (s : slice) (i j : nat) : slice :=
  Slice (s_arr s) (s_off s + i) (j - i) (s_cap s - i).

(** [reflect.AppendSlice(s, t)] for two slices of element type [ty]: when
    the capacity of [s] suffices the elements of [t] are copied into the
    backing array of [s]; otherwise a new array is allocated. The language
    leaves the new capacity open; the model takes the length needed. *)
Definition AppendSlice (ty : gtype) (s t : slice) : M value :=
  let* xs := read_slice t in
  let n := (s_len s + List.length xs)%nat in
  if decide (n <= s_cap s)%nat then
    match s_arr s with
    | Some a =>
        write_range a (s_off s + s_len s) xs ;;
        ret (VSlice ty (Slice (Some a) (s_off s) n (s_cap s)))
    | None => ret (VSlice ty s)
    end
  else
    let* ys := read_slice s in
    let* a := new_arr (ys ++ xs) in
    ret (VSlice ty (Slice (Some a) 0 n n)).

(** ** The path resolver ([data.go]) *)

Definition modifier_t : Type := rvalue -> M rvalue.

(** [callModifier(i, v)], where [last] is [i == len(fields)-1]. *)
Definition callModifier (last : bool) (modifier : option modifier_t)
    (v : rvalue) : M rvalue :=
  match modifier with
  | Some f => if last then f v else ret v
  | None => ret v
  end.

Definition is_nil {A} (l : list A) : bool :=
  match l with [] => true | _ => false end.

(** The loop [for i, f := range fields] of [RawData.get], from the value
    [val] on. *)
Fixpoint get_loop (val : rvalue) (fields : list string)
    (modifier : option modifier_t) : M rvalue :=
  match fields with
  | [] => ret val
  | f :: rest =>
      let* val := unwrap val in
      let* c := load val in
      match c with
      | VMap m =>
          let* kv := MapIndex m f in
          if IsValid kv then
            let* kv := callModifier (is_nil rest) modifier kv in
            SetMapIndex m f kv ;;
            if IsValid kv then get_loop kv rest modifier else ret Invalid
          else ret Invalid
      | VSlice t s =>
          match ParseInt f with
          | None => ret Invalid
          | Some n =>
              if (n <? 0) || (n >? MaxInt32) then ret Invalid
              else
                let idx := Z.to_nat n in
                if decide (s_len s <= idx)%nat then ret Invalid
                else
                  match s_arr s with
                  | None => panic "index out of range"
                  | Some a =>
                      let kv := RElem t a (s_off s + idx) in
                      let* x := callModifier (is_nil rest) modifier kv in
                      Set_ kv x ;;
                      get_loop kv rest modifier
                  end
          end
      | _ => ret Invalid
      end
  end.

(** [RawData.get(fields, modifier)]. *)
Definition get (d : RawData) (fields : list string)
    (modifier : option modifier_t) : M rvalue :=
  match fields with
  | [] =>
      let found := RVal (VMap d) in
      match modifier with
      | Some f => f found
      | None => ret found
      end
  | k :: fields' =>
      let* val := MapIndex d k in
      match val with
      | Invalid => ret Invalid
      | RIface VNil => ret Invalid
      | _ =>
          match fields' with
          | [] =>
              match modifier with
              | Some f =>
                  let* val := f val in
                  (if IsValid val then
                     let* x := Interface val in
                     map_assign d k x
                   else map_delete d k) ;;
                  ret val
              | None => ret val
              end
          | _ => get_loop val fields' modifier
          end
      end
  end.

(** [RawData.Get(fields...)]: [VNil] when nothing is found. *)
Definition Get (d : RawData) (fields : list string) : M value :=
  match fields with
  | [] => ret (VMap d)
  | _ =>
      let* v := get d fields None in
      if IsValid v then Interface v else ret VNil
  end.

(** [RawData.Query(query)]. *)
Definition Query (d : RawData) (query : string) : M value :=
  match query with
  | EmptyString => ret (VMap d)
  | _ => Get d (split_dot query)
  end.

(** The closure [delete] passes to [get]; [target] is the last field. *)
Definition delete_modifier (target : string) (val : rvalue) : M rvalue :=
  match target with
  | EmptyString => ret Invalid
  | _ =>
      let* val := unwrap val in
      let* c := load val in
      match c with
      | VMap m => SetMapIndex m target Invalid ;; ret val
      | VSlice t s =>
          match ParseInt target with
          | None => ret val
          | Some idx =>
              let l := s_len s in
              if (idx <? 0) || (Z.of_nat l <=? idx) then ret val
              else
                let i := Z.to_nat idx in
                if decide (i = l - 1)%nat then
                  SetLen val (l - 1) ;; ret val
                else
                  let front := Slice_ s 0 i in
                  let remaining := Slice_ s (i + 1) l in
                  let* v := AppendSlice t front remaining in
                  ret (RVal v)
          end
      | _ => ret val
      end
  end.

(** [RawData.delete(query)]. *)
Definition delete_ (d : RawData) (query : string) : M unit :=
  let fields := split_dot query in
  let target := List.last fields EmptyString in
  let fields := removelast fields in
  get d fields (Some (delete_modifier target)) ;; ret tt.

(** [RawData.Delete(queries...)], whose receiver is a pointer: the result is
    the new content of the receiver. *)
Definition Delete (d : RawData) (queries : list string) : M RawData :=
  if existsb (String.eqb EmptyString) queries then ret None
  else forM_ queries (delete_ d) ;; ret d.

(** ** The merge engine *)

(** [for k, v := range m]: the entries of a map, none for a nil map. Go
    leaves the order open; the model takes the order of [map_to_list]. *)
Definition range_map (m : RawData) : M (list (string * value)) :=
  match m with
  | None => ret []
  | Some l => let* entries := read_map l in ret (map_to_list entries)
  end.

(** [clone.Clone(v)] of the library go-clone: a deep copy. A nil map or
    slice stays nil; a map is copied into a new map, a slice into a new
    backing array of the same length and capacity, elements cloned in turn. *)
Fixpoint clone (fuel : nat) (v : value) : M value :=
  match fuel with
  | O => out_of_fuel
  | S fuel' =>
      match v with
      | VMap (Some l) =>
          let* entries := read_map l in
          let* kvs := traverse (fun kv : string * value =>
                              let* x := clone fuel' (snd kv) in
                              ret (fst kv, x))
                           (map_to_list entries) in
          let* l' := new_map (list_to_map kvs) in
          ret (VMap (Some l'))
      | VSlice t s =>
          match s_arr s with
          | None => ret v
          | Some _ =>
              let* xs := read_slice s in
              let* ys := traverse (clone fuel') xs in
              let* a := new_arr (ys ++ replicate (s_cap s - s_len s) (zero_of t)) in
              ret (VSlice t (Slice (Some a) 0 (s_len s) (s_cap s)))
          end
      | _ => ret v
      end
  end.

(** [mergeValue(target, v)]. *)
Fixpoint mergeValue (fuel : nat) (target : rvalue) (v : value) : M rvalue :=
  match fuel with
  | O => out_of_fuel
  | S fuel' =>
      match v with
      | VNil => ret target
      | _ =>
          let* merged :=
            (if IsValid target then
               let* target := unwrap target in
               match target with
               | Invalid =>
                   panic "reflect: call of reflect.Value.Type on zero Value"
               | _ =>
                   let* c := load target in
                   if decide (type_of c = type_of v) then
                     match c, v with
                     | VMap tm, VMap dm =>
                         let* tm := match tm with
                                    | None => let* l := new_map ∅ in ret (Some l)
                                    | Some _ => ret tm
                                    end in
                         let* entries := range_map dm in
                         forM_ entries (fun kv : string * value =>
                           let* from := MapIndex tm (fst kv) in
                           let* to := mergeValue fuel' from (snd kv) in
                           SetMapIndex tm (fst kv) to) ;;
                         ret (Some (RVal (VMap tm)))
                     | VSlice t s, VSlice _ s' =>
                         let* r := AppendSlice t s s' in
                         ret (Some (RVal r))
                     | _, _ => ret None
                     end
                   else ret None
               end
             else ret None) in
          match merged with
          | Some r => ret r
          | None => let* x := clone fuel' v in ret (RVal x)
          end
      end
  end.

(** One pass of [merge]: [for k, v := range data]. *)
Definition merge_entries (fuel : nat) (target data_ : RawData) : M unit :=
  let* entries := range_map data_ in
  forM_ entries (fun kv : string * value =>
    let* from := MapIndex target (fst kv) in
    let* to := mergeValue fuel from (snd kv) in
    SetMapIndex target (fst kv) to).

(** [merge(target, data, remaining...)]. *)
Fixpoint merge (fuel : nat) (target data_ : RawData) (remaining : list Data)
    : M unit :=
  merge_entries fuel target data_ ;;
  match remaining with
  | [] => ret tt
  | r :: rest => merge fuel target (data r) rest
  end.

(** [Merge(data...)]. *)
Definition Merge (fuel : nat) (ds : list Data) : M Data :=
  match ds with
  | [] => ret emptyData
  | d0 :: rest =>
      let* target := new_map ∅ in
      merge fuel (Some target) (data d0) rest ;;
      ret (mkData (Some target))
  end.

(** [MergeTo(target, data...)]; [target] is a pointer, possibly nil. *)
Definition MergeTo (fuel : nat) (target : option Data) (ds : list Data)
    : M unit :=
  match target, ds with
  | Some t, d0 :: rest => merge fuel (data t) (data d0) rest
  | _, _ => ret tt
  end.

(** [Data.Clone()]. *)
Definition Clone (fuel : nat) (d : Data) : M Data := Merge fuel [d].

(** ** The patch engine ([patch.go]) *)

(** An action. [Updates] is a Go map: the list gives its entries in the
    order in which [range] happens to visit them, and its keys are
    distinct. *)
Record PatchAction : Type := mkAction {
  Deletes : list string;
  Updates : list (string * Data)
}.

Definition Patch := list PatchAction.

(** The two errors of patch application: the query finds nothing, or it
    finds a value that is not a [RawData]. *)
Inductive patch_error : Type :=
| InvalidQuery (query : string)
| UnsupportedType (query : string).

(** [sort.Strings]: ascending for Go's [<] on strings, which compares
    bytes lexicographically. *)
Fixpoint insert_sorted (x : string) (l : list string) : list string :=
  match l with
  | [] => [x]
  | y :: l' => if String.leb x y then x :: l else y :: insert_sorted x l'
  end.

Definition sort_Strings (l : list string) : list string :=
  fold_right insert_sorted [] l.

(** Go's [<] and [<=] on strings. *)
Definition str_lt (a b : string) : Prop := String.compare a b = Lt.
Definition str_le (a b : string) : Prop := String.leb a b = true.

(** [action.Updates[query]]; the zero [Data] for a missing key. *)
Fixpoint lookup_update (updates : list (string * Data)) (query : string) : Data :=
  match updates with
  | [] => emptyData
  | (k, d) :: rest => if String.eqb k query then d else lookup_update rest query
  end.

(** The loop [for _, query := range queries] of [PatchAction.ApplyTo]. *)
Fixpoint apply_updates (fuel : nat) (d : RawData)
    (updates : list (string * Data)) (queries : list string)
    : M (option patch_error) :=
  match queries with
  | [] => ret None
  | query :: rest =>
      let* v := Query d query in
      match v with
      | VNil => ret (Some (InvalidQuery query))
      | VMap m =>
          merge fuel m (data (lookup_update updates query)) [] ;;
          apply_updates fuel d updates rest
      | _ => ret (Some (UnsupportedType query))
      end
  end.

(** [PatchAction.ApplyTo(target)]: the new content of [*target] and the
    error returned. *)
Definition PatchAction_ApplyTo (fuel : nat) (action : PatchAction)
    (target : Data) : M (Data * option patch_error) :=
  let* d := Delete (data target) (Deletes action) in
  let target := mkData d in
  if is_nil (Updates action) then ret (target, None)
  else
    let queries := sort_Strings (map fst (Updates action)) in
    let* err := apply_updates fuel d (Updates action) queries in
    ret (target, err).

(** The loop of [Patch.ApplyTo] over the actions, for a non-nil [target]. *)
Fixpoint apply_actions (fuel : nat) (actions : list PatchAction)
    (target : Data) : M (Data * option patch_error) :=
  match actions with
  | [] => ret (target, None)
  | action :: rest =>
      let* r := PatchAction_ApplyTo fuel action target in
      match snd r with
      | Some err => ret (fst r, Some err)
      | None => apply_actions fuel rest (fst r)
      end
  end.

(** [Patch.ApplyTo(target)]; [target] is a pointer, possibly nil. *)
Definition Patch_ApplyTo (fuel : nat) (patch : Patch) (target : option Data)
    : M (option Data * option patch_error) :=
  match target with
  | None => ret (None, None)
  | Some t =>
      let* r := apply_actions fuel patch t in
      ret (Some (fst r), snd r)
  end.

(** [Patch.Apply(d)]: the applied value (the zero [Data] on error) and the
    error. *)
Definition Patch_Apply (fuel : nat) (patch : Patch) (d : Data)
    : M (Data * option patch_error) :=
  let* d := Clone fuel d in
  let* r := Patch_ApplyTo fuel patch (Some d) in
  match snd r with
  | Some err => ret (emptyData, Some err)
  | None => ret (match fst r with Some d' => d' | None => d end, None)
  end.

(** ** Value trees *)

(** A canonical value as a tree, without sharing. A mapping lists its
    entries by key; [TNilMap] and [TNilSlice] are the nil map and the nil
    slice, which [reflect.DeepEqual] tells from the empty ones. *)
#[local] Unset Elimination Schemes.
Inductive tval : Type :=
| TNil
| TBool (b : bool)
| TInt64 (n : Z)
| TUint64 (n : Z)
| TFloat64 (f : float64)
| TComplex128 (re im : float64)
| TString (s : string)
| TNilMap
| TMap (kvs : list (string * tval))
| TNilSlice (t : gtype)
| TSlice (t : gtype) (xs : list tval).
#[local] Set Elimination Schemes.

(** Insertion of an entry into a list of entries sorted by key; an entry
    with the same key is replaced, as by the Go statement [d[k] = v]. *)
Fixpoint kv_insert {A} (k : string) (v : A) (l : list (string * A))
    : list (string * A) :=
  match l with
  | [] => [(k, v)]
  | (k', v') :: l' =>
      match String.compare k k' with
      | Lt => (k, v) :: l
      | Eq => (k, v) :: l'
      | Gt => (k', v') :: kv_insert k v l'
      end
  end.

Definition kv_sort {A} (l : list (string * A)) : list (string * A) :=
  fold_left (fun acc kv => kv_insert (fst kv) (snd kv) acc) l [].

(** Allocation of a tree in the store. *)
Fixpoint build (t : tval) : M value :=
  match t with
  | TNil => ret VNil
  | TBool b => ret (VBool b)
  | TInt64 n => ret (VInt64 n)
  | TUint64 n => ret (VUint64 n)
  | TFloat64 f => ret (VFloat64 f)
  | TComplex128 re im => ret (VComplex128 re im)
  | TString s => ret (VString s)
  | TNilMap => ret (VMap None)
  | TMap kvs =>
      let* es :=
        (fix go (kvs : list (string * tval)) : M (list (string * value)) :=
           match kvs with
           | [] => ret []
           | (k, x) :: r =>
               let* v := build x in
               let* vs := go r in
               ret ((k, v) :: vs)
           end) kvs in
      let* l := new_map (list_to_map es) in
      ret (VMap (Some l))
  | TNilSlice ty => ret (VSlice ty (Slice None 0 0 0))
  | TSlice ty xs =>
      let* vs :=
        (fix go (xs : list tval) : M (list value) :=
           match xs with
           | [] => ret []
           | x :: r =>
               let* v := build x in
               let* vs := go r in
               ret (v :: vs)
           end) xs in
      let* a := new_arr vs in
      ret (VSlice ty (Slice (Some a) 0 (List.length vs) (List.length vs)))
  end.

(** [Data] built from a tree that is a mapping. *)
Definition build_data (t : tval) : M Data :=
  let* v := build t in
  match v with
  | VMap m => ret (mkData m)
  | _ => ret emptyData
  end.

(** The tree a value denotes in a store, entries listed by ascending key. *)
Fixpoint reify (fuel : nat) (h : heap) (v : value) : option tval :=
  match fuel with
  | O => None
  | S fuel' =>
      match v with
      | VNil => Some TNil
      | VBool b => Some (TBool b)
      | VInt64 n => Some (TInt64 n)
      | VUint64 n => Some (TUint64 n)
      | VFloat64 f => Some (TFloat64 f)
      | VComplex128 re im => Some (TComplex128 re im)
      | VString s => Some (TString s)
      | VMap None => Some TNilMap
      | VMap (Some l) =>
          match h !! l with
          | Some (OMap m) =>
              match mapM (fun kv : string * value =>
                       match reify fuel' h (snd kv) with
                       | Some t => Some (fst kv, t)
                       | None => None
                       end) (map_to_list m) with
              | Some kvs => Some (TMap (kv_sort kvs))
              | None => None
              end
          | _ => None
          end
      | VSlice ty s =>
          match s_arr s with
          | None => Some (TNilSlice ty)
          | Some a =>
              match h !! a with
              | Some (OArr xs) =>
                  match mapM (reify fuel' h)
                          (take (s_len s) (drop (s_off s) xs)) with
                  | Some ts => Some (TSlice ty ts)
                  | None => None
                  end
              | _ => None
              end
          end
      end
  end.

Definition reify_data (fuel : nat) (h : heap) (d : Data) : option tval :=
  reify fuel h (VMap (data d)).

(** ** Numbers of the text codec *)

(** A JSON number literal: sign, decimal digits read as a natural number,
    and a power of ten; it denotes [(-1)^neg * mant * 10^exp10]. The literal
    [-12.50e3] is [JNumber true 1250 1]. *)
Record jnumber : Type := JNumber {
  jn_neg : bool;
  jn_mant : Z;
  jn_exp10 : Z
}.

(** The literal denotes an integer. *)
Definition jn_integral (n : jnumber) : bool :=
  (jn_mant n =? 0) || (0 <=? jn_exp10 n)
  || (jn_mant n mod 10 ^ (- jn_exp10 n) =? 0).

(** The integer a literal denotes, rounded towards zero. *)
Definition jn_trunc (n : jnumber) : Z :=
  let a := if 0 <=? jn_exp10 n then jn_mant n * 10 ^ jn_exp10 n
           else jn_mant n / 10 ^ (- jn_exp10 n) in
  if jn_neg n then - a else a.

(** [strconv.ParseFloat(raw, 64)] on a JSON literal: the binary64 nearest to
    the number, ties to even, an infinity beyond the largest float. *)
Definition ParseFloat (n : jnumber) : float64 :=
  if jn_mant n =? 0 then S754_zero (jn_neg n)
  else if 0 <=? jn_exp10 n then
    binary_normalize prec64 emax64
      (let a := jn_mant n * 10 ^ jn_exp10 n in if jn_neg n then - a else a)
      0 (jn_neg n)
  else
    let '(q, e, l) :=
      SFdiv_core_binary prec64 emax64 (jn_mant n) 0 (10 ^ (- jn_exp10 n)) 0 in
    binary_round_aux prec64 emax64 (jn_neg n) q e l.

(** Conversion of a Go integer constant to [float64]. *)
Definition float64_of_Z (n : Z) : float64 :=
  binary_normalize prec64 emax64 n 0 false.

(** [math.MinInt64] and [math.MaxInt64] as they enter a comparison with a
    [float64]: the nearest floats, [-2^63] and [2^63]. *)
Definition MinInt64 : Z := - 2 ^ 63.
Definition MaxInt64 : Z := 2 ^ 63 - 1.
Definition MinInt64_f : float64 := float64_of_Z MinInt64.
Definition MaxInt64_f : float64 := float64_of_Z MaxInt64.

(** [math.Round]: nearest integer, halves away from zero. *)
Definition math_Round (f : float64) : float64 :=
  match f with
  | S754_finite s m e =>
      if 0 <=? e then f
      else
        let d := 2 ^ (- e) in
        let q := Z.pos m / d in
        let r := Z.pos m mod d in
        let n := if d <=? 2 * r then q + 1 else q in
        binary_normalize prec64 emax64 (if s then - n else n) 0 s
  | _ => f
  end.

(** The integer part of a float, towards zero. *)
Definition float64_trunc (f : float64) : Z :=
  match f with
  | S754_finite s m e =>
      let a := if 0 <=? e then Z.pos m * 2 ^ e else Z.pos m / 2 ^ (- e) in
      if s then - a else a
  | _ => 0
  end.

(** The conversion [int64(f)]. When the integer part does not fit, Go
    leaves the result to the implementation; amd64 yields [-2^63]. *)
Definition int64_of_float64 (f : float64) : Z :=
  let n := float64_trunc f in
  if (MinInt64 <=? n) && (n <=? MaxInt64) then n else MinInt64.

Definition f64_leb : float64 -> float64 -> bool := SFleb.
Definition f64_eqb : float64 -> float64 -> bool := SFeqb.

(** The guard of [parseJSONValue]:
    [f >= math.MinInt64 && f <= math.MaxInt64 && math.Round(f) == f]. *)
Definition fits_int64 (f : float64) : bool :=
  f64_leb MinInt64_f f && f64_leb f MaxInt64_f && f64_eqb (math_Round f) f.

(** ** JSON text, as [gjson] reads it *)

(** A [gjson.Result], eagerly: [RNull], [RFalse], [RNumber], [RString] and
    [RTrue] are the scalar types; [RObject] and [RArray] are the type
    [gjson.JSON], told apart by [IsObject]. *)
#[local] Unset Elimination Schemes.
Inductive Result : Type :=
| RNull
| RFalse
| RTrue
| RNumber (n : jnumber)
| RString (str : string)
| RObject (members : list (string * Result))
| RArray (elems : list Result).
#[local] Set Elimination Schemes.

(** [res.Float()] of a number. *)
Definition Result_Float (n : jnumber) : float64 := ParseFloat n.

Definition dquote : ascii := "034"%char.
Definition backslash : ascii := "\"%char.

Definition code (c : ascii) : Z := Z.of_N (N_of_ascii c).
Definition chr (n : Z) : ascii := ascii_of_N (Z.to_N n).

Definition is_ws (c : ascii) : bool :=
  (code c =? 32) || (code c =? 9) || (code c =? 10) || (code c =? 13).

Fixpoint skip_ws (s : string) : string :=
  match s with
  | String c r => if is_ws c then skip_ws r else s
  | EmptyString => s
  end.

Definition is_digit (c : ascii) : bool := (48 <=? code c) && (code c <=? 57).

(** The longest prefix of digits, and what follows it. *)
Fixpoint span_digits (s : string) : string * string :=
  match s with
  | String c r =>
      if is_digit c then let '(d, r') := span_digits r in (String c d, r')
      else (EmptyString, s)
  | EmptyString => (EmptyString, s)
  end.

Fixpoint digits_value (s : string) (acc : Z) : Z :=
  match s with
  | String c r => digits_value r (acc * 10 + (code c - 48))
  | EmptyString => acc
  end.

(** A JSON number, as [validnumber] accepts it: an optional minus sign; a
    zero or a run of digits; optionally a dot and digits; optionally [e] or
    [E], an optional sign and digits. *)
Definition scan_sign (s : string) : bool * string :=
  match s with
  | String c r => if Ascii.eqb c "-" then (true, r) else (false, s)
  | EmptyString => (false, s)
  end.

Definition scan_integer (s1 : string) : string * string :=
  match s1 with
  | String c r =>
      if Ascii.eqb c "0" then (String c EmptyString, r) else span_digits s1
  | EmptyString => (EmptyString, s1)
  end.

Definition scan_fraction (s2 : string) : option (string * string) :=
  match s2 with
  | String c r =>
      if Ascii.eqb c "." then
        let '(fp, s3) := span_digits r in
        match fp with
        | EmptyString => None
        | _ => Some (fp, s3)
        end
      else Some (EmptyString, s2)
  | EmptyString => Some (EmptyString, s2)
  end.

Definition scan_exponent (neg : bool) (ip fp s3 : string)
    : option (jnumber * string) :=
  let mant := digits_value (String.append ip fp) 0 in
  let scale := Z.of_nat (String.length fp) in
  match s3 with
  | String c r =>
      if Ascii.eqb c "e" || Ascii.eqb c "E" then
        let '(eneg, r1) :=
          match r with
          | String c' r' =>
              if Ascii.eqb c' "+" then (false, r')
              else if Ascii.eqb c' "-" then (true, r')
              else (false, r)
          | EmptyString => (false, r)
          end in
        let '(ep, s4) := span_digits r1 in
        match ep with
        | EmptyString => None
        | _ =>
            let ev := digits_value ep 0 in
            Some (JNumber neg mant ((if eneg then - ev else ev) - scale), s4)
        end
      else Some (JNumber neg mant (- scale), s3)
  | EmptyString => Some (JNumber neg mant (- scale), s3)
  end.

Definition scan_number (s : string) : option (jnumber * string) :=
  let '(neg, s1) := scan_sign s in
  let '(ip, s2) := scan_integer s1 in
  match ip with
  | EmptyString => None
  | _ =>
      match scan_fraction s2 with
      | None => None
      | Some (fp, s3) => scan_exponent neg ip fp s3
      end
  end.

Definition hex_value (c : ascii) : option Z :=
  let n := code c in
  if (48 <=? n) && (n <=? 57) then Some (n - 48)
  else if (97 <=? n) && (n <=? 102) then Some (n - 87)
  else if (65 <=? n) && (n <=? 70) then Some (n - 55)
  else None.

(** [utf8.EncodeRune]: surrogates and runes beyond U+10FFFF become U+FFFD. *)
Definition utf8_encode (r : Z) : string :=
  if r <? 128 then String (chr r) EmptyString
  else if r <? 2048 then
    String (chr (192 + r / 64)) (String (chr (128 + r mod 64)) EmptyString)
  else if ((55296 <=? r) && (r <? 57344)) || (1114111 <? r) then
    String (chr 239) (String (chr 191) (String (chr 189) EmptyString))
  else if r <? 65536 then
    String (chr (224 + r / 4096))
      (String (chr (128 + (r / 64) mod 64))
         (String (chr (128 + r mod 64)) EmptyString))
  else
    String (chr (240 + r / 262144))
      (String (chr (128 + (r / 4096) mod 64))
         (String (chr (128 + (r / 64) mod 64))
            (String (chr (128 + r mod 64)) EmptyString))).

(** [utf16.DecodeRune]. *)
Definition utf16_decode (r1 r2 : Z) : Z :=
  if (55296 <=? r1) && (r1 <? 56320) && (56320 <=? r2) && (r2 <? 57344)
  then 65536 + (r1 - 55296) * 1024 + (r2 - 56320)
  else 65533.

(** Four hexadecimal digits. *)
Definition scan_hex4 (s : string) : option (Z * string) :=
  match s with
  | String a (String b (String c (String d r))) =>
      match hex_value a, hex_value b, hex_value c, hex_value d with
      | Some x, Some y, Some z, Some w =>
          Some (((x * 16 + y) * 16 + z) * 16 + w, r)
      | _, _, _, _ => None
      end
  | _ => None
  end.

Definition simple_escape (c : ascii) : option ascii :=
  let n := code c in
  if n =? 34 then Some dquote
  else if n =? 92 then Some backslash
  else if n =? 47 then Some "/"%char
  else if n =? 98 then Some (chr 8)
  else if n =? 102 then Some (chr 12)
  else if n =? 110 then Some (chr 10)
  else if n =? 114 then Some (chr 13)
  else if n =? 116 then Some (chr 9)
  else None.

(** A JSON string from just after its opening quote: the text it denotes
    and what follows the closing quote. Bytes below 0x20 are refused, the
    escapes are those of [validstring], and [\uXXXX] is decoded to UTF-8 as
    [gjson] does, a surrogate taking the escape that follows it. *)
Fixpoint scan_string (fuel : nat) (s : string) : option (string * string) :=
  match fuel with
  | O => None
  | S fuel' =>
      match s with
      | EmptyString => None
      | String c r =>
          if Ascii.eqb c dquote then Some (EmptyString, r)
          else if Ascii.eqb c backslash then
            match r with
            | EmptyString => None
            | String e r' =>
                match simple_escape e with
                | Some x =>
                    match scan_string fuel' r' with
                    | Some (t, rest) => Some (String x t, rest)
                    | None => None
                    end
                | None =>
                    if Ascii.eqb e "u" then
                      match scan_hex4 r' with
                      | None => None
                      | Some (r1, after) =>
                          let '(rune, after') :=
                            if (55296 <=? r1) && (r1 <? 57344) then
                              match after with
                              | String b1 (String b2 more) =>
                                  if Ascii.eqb b1 backslash && Ascii.eqb b2 "u" then
                                    match scan_hex4 more with
                                    | Some (r2, after2) => (utf16_decode r1 r2, after2)
                                    | None => (r1, after)
                                    end
                                  else (r1, after)
                              | _ => (r1, after)
                              end
                            else (r1, after) in
                          match scan_string fuel' after' with
                          | Some (t, rest) => Some (String.append (utf8_encode rune) t, rest)
                          | None => None
                          end
                      end
                    else None
                end
            end
          else if code c <? 32 then None
          else
            match scan_string fuel' r with
            | Some (t, rest) => Some (String c t, rest)
            | None => None
            end
      end
  end.

(** [s] starts with [lit]: what follows it. *)
Fixpoint strip_prefix (lit s : string) : option string :=
  match lit with
  | EmptyString => Some s
  | String a lit' =>
      match s with
      | String b s' => if Ascii.eqb a b then strip_prefix lit' s' else None
      | EmptyString => None
      end
  end.

(** A JSON value at the head of [s], after optional white space, and what
    follows it; [None] when [gjson.Valid] refuses the text. *)
Fixpoint parse_value (fuel : nat) (s : string) {struct fuel}
    : option (Result * string) :=
  match fuel with
  | O => None
  | S fuel' =>
      match skip_ws s with
      | EmptyString => None
      | String c r =>
          if Ascii.eqb c "{" then
            match skip_ws r with
            | String c' r' =>
                if Ascii.eqb c' "}" then Some (RObject [], r')
                else
                  match parse_members fuel' (String c' r') with
                  | Some (ms, rest) => Some (RObject ms, rest)
                  | None => None
                  end
            | EmptyString => None
            end
          else if Ascii.eqb c "[" then
            match skip_ws r with
            | String c' r' =>
                if Ascii.eqb c' "]" then Some (RArray [], r')
                else
                  match parse_elems fuel' (String c' r') with
                  | Some (xs, rest) => Some (RArray xs, rest)
                  | None => None
                  end
            | EmptyString => None
            end
          else if Ascii.eqb c dquote then
            match scan_string (String.length r) r with
            | Some (t, rest) => Some (RString t, rest)
            | None => None
            end
          else if Ascii.eqb c "t" then
            match strip_prefix "rue" r with
            | Some rest => Some (RTrue, rest)
            | None => None
            end
          else if Ascii.eqb c "f" then
            match strip_prefix "alse" r with
            | Some rest => Some (RFalse, rest)
            | None => None
            end
          else if Ascii.eqb c "n" then
            match strip_prefix "ull" r with
            | Some rest => Some (RNull, rest)
            | None => None
            end
          else if Ascii.eqb c "-" || is_digit c then
            match scan_number (String c r) with
            | Some (n, rest) => Some (RNumber n, rest)
            | None => None
            end
          else None
      end
  end

with parse_members (fuel : nat) (s : string) {struct fuel}
    : option (list (string * Result) * string) :=
  match fuel with
  | O => None
  | S fuel' =>
      match skip_ws s with
      | String c r =>
          if Ascii.eqb c dquote then
            match scan_string (String.length r) r with
            | None => None
            | Some (k, r1) =>
                match skip_ws r1 with
                | String c1 r2 =>
                    if Ascii.eqb c1 ":" then
                      match parse_value fuel' r2 with
                      | None => None
                      | Some (v, r3) =>
                          match skip_ws r3 with
                          | String c3 r4 =>
                              if Ascii.eqb c3 "," then
                                match parse_members fuel' r4 with
                                | Some (ms, r5) => Some ((k, v) :: ms, r5)
                                | None => None
                                end
                              else if Ascii.eqb c3 "}" then Some ([(k, v)], r4)
                              else None
                          | EmptyString => None
                          end
                      end
                    else None
                | EmptyString => None
                end
            end
          else None
      | EmptyString => None
      end
  end

with parse_elems (fuel : nat) (s : string) {struct fuel}
    : option (list Result * string) :=
  match fuel with
  | O => None
  | S fuel' =>
      match parse_value fuel' s with
      | None => None
      | Some (v, r1) =>
          match skip_ws r1 with
          | String c r2 =>
              if Ascii.eqb c "," then
                match parse_elems fuel' r2 with
                | Some (xs, r3) => Some (v :: xs, r3)
                | None => None
                end
              else if Ascii.eqb c "]" then Some ([v], r2)
              else None
          | EmptyString => None
          end
      end
  end.

(** [gjson.Valid(str)] and [gjson.Parse(str)] together: the value of a text
    that is one JSON value between optional white space. *)
Definition gjson_Parse (str : string) : option Result :=
  match parse_value (S (String.length str)) str with
  | Some (res, rest) =>
      match skip_ws rest with
      | EmptyString => Some res
      | _ => None
      end
  | None => None
  end.

Definition gjson_Valid (str : string) : bool :=
  match gjson_Parse str with Some _ => true | None => false end.

(** [res.IsObject()]. *)
Definition IsObject (res : Result) : bool :=
  match res with RObject _ => true | _ => false end.

(** ** Decoding ([data.go]) *)

(** What a decoding function yields: a result, or a Go panic. *)
Inductive presult (A : Type) : Type :=
| Done (a : A)
| Crash (msg : string).
Arguments Done {A} a.
Arguments Crash {A} msg.

(** [parseJSONArray], after its elements have been parsed: [vals] are the
    values with their types ([None] is the nil [reflect.Type] of a JSON
    null). The element type is the first type met, widened to
    [interface{}] once a different one follows; [reflect.Append] then
    panics on the zero Value of a null. *)
Fixpoint array_elem_type (elemType : option gtype)
    (vals : list (tval * option gtype)) : option gtype :=
  match vals with
  | [] => elemType
  | (_, vt) :: rest =>
      array_elem_type
        (match elemType with
         | None => vt
         | Some et =>
             if negb (bool_decide (elemType = vt))
                && negb (bool_decide (et = tInterface))
             then Some tInterface else elemType
         end) rest
  end.

Definition make_array (vals : list (tval * option gtype))
    : presult (tval * option gtype) :=
  let elemType :=
    match array_elem_type None vals with
    | None => tInterface
    | Some t => t
    end in
  if existsb (fun v => match fst v with TNil => true | _ => false end) vals
  then Crash "reflect: call of reflect.Value.Set on zero Value"
  else Done (TSlice elemType (map fst vals), Some (tSlice elemType)).

(** [parseJSONValue(res)]: the value and its type. *)
Fixpoint parseJSONValue (res : Result) : presult (tval * option gtype) :=
  match res with
  | RTrue => Done (TBool true, Some tBool)
  | RFalse => Done (TBool false, Some tBool)
  | RNumber n =>
      let f := Result_Float n in
      if fits_int64 f then Done (TInt64 (int64_of_float64 f), Some tInt64)
      else Done (TFloat64 f, Some tFloat64)
  | RString str => Done (TString str, Some tString)
  | RObject members =>
      (* parseJSONToRawData(d, res) on a fresh d *)
      match
        (fix go (ms : list (string * Result)) (d : list (string * tval))
           : presult (list (string * tval)) :=
           match ms with
           | [] => Done d
           | (key, value) :: rest =>
               match parseJSONValue value with
               | Done (v, _) => go rest (kv_insert key v d)
               | Crash msg => Crash msg
               end
           end) members []
      with
      | Done d => Done (TMap d, Some tObject)
      | Crash msg => Crash msg
      end
  | RArray elems =>
      (* parseJSONArray(res.Array()) *)
      match
        (fix go (rs : list Result) : presult (list (tval * option gtype)) :=
           match rs with
           | [] => Done []
           | r :: rest =>
               match parseJSONValue r with
               | Done vt =>
                   match go rest with
                   | Done vts => Done (vt :: vts)
                   | Crash msg => Crash msg
                   end
               | Crash msg => Crash msg
               end
           end) elems
      with
      | Done vals => make_array vals
      | Crash msg => Crash msg
      end
  | RNull => Done (TNil, None)
  end.

(** [parseJSONToRawData(d, res)]: the entries of [d] afterwards. *)
Fixpoint parseJSONToRawData (d : list (string * tval))
    (members : list (string * Result)) : presult (list (string * tval)) :=
  match members with
  | [] => Done d
  | (key, value) :: rest =>
      match parseJSONValue value with
      | Done (v, _) => parseJSONToRawData (kv_insert key v d) rest
      | Crash msg => Crash msg
      end
  end.

(** The errors of [Parse] and [ParseJSON], by their messages:
    "go-data: invalid data string format", "go-data: invalid data type",
    "go-data: invalid JSON string" and "go-data: JSON must be an object". *)
Inductive parse_error : Type :=
| ErrInvalidDataString
| ErrInvalidDataType (typeName : string)
| ErrInvalidJSON
| ErrJSONNotObject.

(** What [Parse] returns: a [Data] (as a tree: the nil map for the empty
    [Data]) with a nil error, an error, or a panic. *)
Inductive parse_result : Type :=
| Parsed (d : tval)
| ParseError (e : parse_error)
| ParsePanic (msg : string).

(** [ParseJSON(str)]. *)
Definition ParseJSON (str : string) : parse_result :=
  if negb (gjson_Valid str) then ParseError ErrInvalidJSON
  else
    match gjson_Parse str with
    | Some (RObject members) =>
        match parseJSONToRawData [] members with
        | Done raw =>
            match raw with
            | [] => Parsed TNilMap
            | _ => Parsed (TMap raw)
            end
        | Crash msg => ParsePanic msg
        end
    | _ => ParseError ErrJSONNotObject
    end.

Definition dataMetaBegin : string := "<".
Definition dataTypeJSON : string := "json".
Definition dataMetaEnd : string := ">".

(** [strings.Index(s, ">")] with the text before and after the match. *)
Fixpoint cut_at (c : ascii) (s : string) : option (string * string) :=
  match s with
  | EmptyString => None
  | String a r =>
      if Ascii.eqb a c then Some (EmptyString, r)
      else
        match cut_at c r with
        | Some (before, after) => Some (String a before, after)
        | None => None
        end
  end.

(** [Parse(str)]. *)
Definition Parse (str : string) : parse_result :=
  match strip_prefix dataMetaBegin str with
  | None => ParseError ErrInvalidDataString
  | Some str1 =>
      match cut_at ">" str1 with
      | None => ParseError ErrInvalidDataString
      | Some (typeName, str2) =>
          if String.eqb typeName dataTypeJSON then ParseJSON str2
          else ParseError (ErrInvalidDataType typeName)
      end
  end.

(** ** Encoding ([encoding/json] with [SetEscapeHTML(false)], then
    [Data.json] and [Data.String]) *)

Definition format_int (n : Z) : string :=
  DecimalString.NilZero.string_of_int (Z.to_int n).

Definition hex_digit (n : Z) : ascii :=
  if n <? 10 then chr (48 + n) else chr (87 + n).

Definition is_cont (c : ascii) : bool := (128 <=? code c) && (code c <=? 191).

Definition str1 (a : ascii) : string := String a EmptyString.
Definition str2 (a b : ascii) : string := String a (str1 b).

(** The escape [\u00XX] of a control byte. *)
Definition escape_control (c : ascii) : string :=
  String backslash (String "u" (String "0" (String "0"
    (str2 (hex_digit (code c / 16)) (hex_digit (code c mod 16)))))).

Definition escape_fffd : string := String backslash "ufffd".

(** The body of a JSON string for [s]: quotes, backslashes and control
    bytes are escaped; valid UTF-8 is copied, except U+2028 and U+2029;
    every byte that starts no valid UTF-8 sequence becomes the escape of
    U+FFFD. *)
Fixpoint escape_string (s : string) : string :=
  match s with
  | EmptyString => EmptyString
  | String c r =>
      let n := code c in
      if (n =? 34) || (n =? 92) then String backslash (String c (escape_string r))
      else if n =? 8 then String backslash (String "b" (escape_string r))
      else if n =? 12 then String backslash (String "f" (escape_string r))
      else if n =? 10 then String backslash (String "n" (escape_string r))
      else if n =? 13 then String backslash (String "r" (escape_string r))
      else if n =? 9 then String backslash (String "t" (escape_string r))
      else if n <? 32 then String.append (escape_control c) (escape_string r)
      else if n <? 128 then String c (escape_string r)
      else
        let bad := String.append escape_fffd (escape_string r) in
        match r with
        | String c1 r1 =>
            let n1 := code c1 in
            if (194 <=? n) && (n <=? 223) then
              if is_cont c1 then String c (String c1 (escape_string r1)) else bad
            else if (224 <=? n) && (n <=? 239) then
              match r1 with
              | String c2 r2 =>
                  let lo := if n =? 224 then 160 else 128 in
                  let hi := if n =? 237 then 159 else 191 in
                  if (lo <=? n1) && (n1 <=? hi) && is_cont c2 then
                    if (n =? 226) && (n1 =? 128) && ((code c2 =? 168) || (code c2 =? 169))
                    then String backslash (String "u" (String "2" (String "0" (String "2"
                           (String (if code c2 =? 168 then "8"%char else "9"%char)
                              (escape_string r2))))))
                    else String c (String c1 (String c2 (escape_string r2)))
                  else bad
              | EmptyString => bad
              end
            else if (240 <=? n) && (n <=? 244) then
              match r1 with
              | String c2 (String c3 r3) =>
                  let lo := if n =? 240 then 144 else 128 in
                  let hi := if n =? 244 then 143 else 191 in
                  if (lo <=? n1) && (n1 <=? hi) && is_cont c2 && is_cont c3 then
                    String c (String c1 (String c2 (String c3 (escape_string r3))))
                  else bad
              | _ => bad
              end
            else bad
        | EmptyString => bad
        end
  end.

Definition quote (s : string) : string :=
  String dquote (String.append (escape_string s) (str1 dquote)).

(** *** Floats: the shortest decimal that reads back as the float *)

(** Compare [num / den] with [10^p], for positive [num] and [den]. *)
Definition cmp_pow10 (num den p : Z) : comparison :=
  if 0 <=? p then num ?= den * 10 ^ p else num * 10 ^ (- p) ?= den.

(** [floor (log10 (num / den))], from a binary estimate. *)
Fixpoint adjust_log10 (fuel : nat) (num den p : Z) : Z :=
  match fuel with
  | O => p
  | S fuel' =>
      match cmp_pow10 num den p with
      | Lt => adjust_log10 fuel' num den (p - 1)
      | _ =>
          match cmp_pow10 num den (p + 1) with
          | Lt => p
          | _ => adjust_log10 fuel' num den (p + 1)
          end
      end
  end.

Definition floor_log10 (num den : Z) : Z :=
  adjust_log10 8 num den (((Z.log2 num - Z.log2 den) * 1233) / 4096).

Fixpoint strip_zeros (fuel : nat) (d k : Z) : Z * Z :=
  match fuel with
  | O => (d, k)
  | S fuel' => if d mod 10 =? 0 then strip_zeros fuel' (d / 10) (k + 1) else (d, k)
  end.

(** The decimal with [n] digits nearest to [num / den], as digits and a
    power of ten, when it reads back as [f]; else its neighbour if that one
    does. *)
Definition digits_candidate (f : float64) (num den p : Z) (n : Z)
    : option (Z * Z) :=
  let k := p - n + 1 in
  let a := if 0 <=? k then num else num * 10 ^ (- k) in
  let b := if 0 <=? k then den * 10 ^ k else den in
  let lo := a / b in
  let r := a mod b in
  let near := if b <=? 2 * r then lo + 1 else lo in
  let far := if b <=? 2 * r then lo else lo + 1 in
  if bool_decide (ParseFloat (JNumber false near k) = f) then Some (near, k)
  else if bool_decide (ParseFloat (JNumber false far k) = f) then Some (far, k)
  else None.

Fixpoint shortest_search (fuel : nat) (f : float64) (num den p n : Z)
    : Z * Z :=
  match fuel with
  | O => (num / den, 0)
  | S fuel' =>
      match digits_candidate f num den p n with
      | Some dk => dk
      | None => shortest_search fuel' f num den p (n + 1)
      end
  end.

(** Digits [d] without a trailing zero and a power of ten [k] with
    [|f| = d * 10^k] up to rounding: the shortest such decimal. *)
Definition shortest_decimal (m : positive) (e : Z) : Z * Z :=
  let num := if 0 <=? e then Z.pos m * 2 ^ e else Z.pos m in
  let den := if 0 <=? e then 1 else 2 ^ (- e) in
  let p := floor_log10 num den in
  let '(d, k) := shortest_search 17 (S754_finite false m e) num den p 1 in
  strip_zeros 20 d k.

Fixpoint zeros (n : nat) : string :=
  match n with O => EmptyString | S n' => String "0" (zeros n') end.

(** [strconv.AppendFloat(b, f, fmt, -1, 64)] for a finite [f], with the
    choice of [fmt] and the clean-up of the exponent that [encoding/json]
    makes: format [e] below [1e-6] and from [1e21] on. *)
Definition format_float (f : float64) : option string :=
  match f with
  | S754_zero s => Some (if s then "-0" else "0")
  | S754_finite s m e =>
      let '(d, k) := shortest_decimal m e in
      let ds := format_int d in
      let n := Z.of_nat (String.length ds) in
      let dp := k + n in
      let abs := S754_finite false m e in
      let body :=
        if SFltb abs (ParseFloat (JNumber false 1 (-6)))
           || SFleb (ParseFloat (JNumber false 1 21)) abs
        then
          let ex := dp - 1 in
          let mant :=
            match ds with
            | String c EmptyString => ds
            | String c rest => String c (String "." rest)
            | EmptyString => ds
            end in
          let es := format_int (Z.abs ex) in
          String.append mant
            (String "e" (String (if ex <? 0 then "-"%char else "+"%char)
               (if (Z.abs ex <? 10) && (0 <=? ex) then String "0" es else es)))
        else if dp <=? 0 then
          String.append "0." (String.append (zeros (Z.to_nat (- dp))) ds)
        else if n <=? dp then String.append ds (zeros (Z.to_nat (dp - n)))
        else
          String.append (substring 0 (Z.to_nat dp) ds)
            (String "." (substring (Z.to_nat dp) (Z.to_nat (n - dp)) ds)) in
      Some (if s then String "-" body else body)
  | _ => None
  end.

Fixpoint join_comma (l : list string) : string :=
  match l with
  | [] => EmptyString
  | [x] => x
  | x :: rest => String.append x (String "," (join_comma rest))
  end.

(** [json.Marshal] of a value: [None] stands for its error, on a complex
    number or on a float that is not finite. The keys of a map are written
    in ascending order. *)
Fixpoint encode (v : tval) : option string :=
  match v with
  | TNil | TNilMap | TNilSlice _ => Some "null"
  | TBool b => Some (if b then "true" else "false")
  | TInt64 n => Some (format_int n)
  | TUint64 n => Some (format_int n)
  | TFloat64 f => format_float f
  | TComplex128 _ _ => None
  | TString s => Some (quote s)
  | TMap kvs =>
      match
        (fix go (kvs : list (string * tval)) : option (list (string * string)) :=
           match kvs with
           | [] => Some []
           | (k, x) :: rest =>
               match encode x, go rest with
               | Some sx, Some srest => Some ((k, sx) :: srest)
               | _, _ => None
               end
           end) kvs
      with
      | Some parts =>
          Some (String "{" (String.append
                  (join_comma (map (fun kv : string * string =>
                                      String.append (quote (fst kv)) (String ":" (snd kv)))
                                   (kv_sort parts))) "}"))
      | None => None
      end
  | TSlice _ xs =>
      match
        (fix go (xs : list tval) : option (list string) :=
           match xs with
           | [] => Some []
           | x :: rest =>
               match encode x, go rest with
               | Some sx, Some srest => Some (sx :: srest)
               | _, _ => None
               end
           end) xs
      with
      | Some parts => Some (String "[" (String.append (join_comma parts) "]"))
      | None => None
      end
  end.

(** [Data.Len()]. *)
Definition Len (d : tval) : nat :=
  match d with
  | TMap kvs => List.length kvs
  | _ => O
  end.

(** [Data.json(buf, false)]: what is added to the buffer. The error of
    [enc.Encode] is dropped, and nothing is written then. *)
Definition json (d : tval) : string :=
  if Nat.eqb (Len d) 0 then "{}"
  else match encode d with Some s => s | None => EmptyString end.

(** [Data.String()]. *)
Definition String_ (d : tval) : string :=
  String.append (String.append dataMetaBegin (String.append dataTypeJSON dataMetaEnd))
    (json d).

(** The two kinds of decoding error of the specification: a format error
    (no marker, a body that is not JSON, or a JSON value that is not an
    object) and an unrecognized type tag. *)
Definition is_invalid_format (r : parse_result) : Prop :=
  r = ParseError ErrInvalidDataString \/ r = ParseError ErrInvalidJSON
  \/ r = ParseError ErrJSONNotObject.

Definition is_unrecognized_format (r : parse_result) : Prop :=
  exists typeName, r = ParseError (ErrInvalidDataType typeName).

(** [tag] holds no [>]. *)
Fixpoint no_gt (tag : string) : Prop :=
  match tag with
  | EmptyString => True
  | String c r => c <> ">"%char /\ no_gt r
  end.

(** ["<" + tag + ">" + body]. *)
Definition tagged (tag body : string) : string :=
  String "<" (String.append tag (String ">" body)).

(** ** Scenarios *)

(** The tree a [Data] denotes in the current store. *)
Definition snapshot (d : Data) : M (option tval) :=
  fun h => Ok (reify_data 64 h d) h.

(** A computation started in the empty store. *)
Definition run {A} (c : M A) : outcome A := c [].

(** JSON text written with apostrophes in place of double quotes. *)
Fixpoint js (s : string) : string :=
  match s with
  | String c r => String (if Ascii.eqb c "'" then dquote else c) (js r)
  | EmptyString => EmptyString
  end.

Definition ints (l : list Z) : tval := TSlice tInt64 (map TInt64 l).

(** The Go statement [d["x"].([]RawData)[i][k] = v] on a [Data]. *)
Definition assign_in_slice_elem (d : Data) (x : string) (i : nat)
    (k : string) (v : value) : M unit :=
  match data d with
  | None => panic "nil map"
  | Some l =>
      let* entries := read_map l in
      match entries !! x with
      | Some (VSlice _ s) =>
          match s_arr s with
          | Some a =>
              let* e := read_elem a (s_off s + i) in
              match e with
              | VMap m => map_assign m k v
              | _ => panic "interface conversion"
              end
          | None => panic "index out of range"
          end
      | _ => panic "interface conversion"
      end
  end.

(** [r := Merge(a, b)] for [a = {"x": [{"p": 1}]}] and
    [b = {"x": [{"q": 2}]}], then [r["x"][1]["changed"] = true]: the trees
    of [a] and [b] before the assignment, and after it. *)
Definition merge_then_mutate
    : M ((option tval * option tval) * (option tval * option tval)) :=
  let* a := build_data (TMap [("x", TSlice tObject [TMap [("p", TInt64 1)]])]) in
  let* b := build_data (TMap [("x", TSlice tObject [TMap [("q", TInt64 2)]])]) in
  let* r := Merge 8 [a; b] in
  let* a0 := snapshot a in
  let* b0 := snapshot b in
  assign_in_slice_elem r "x" 1 "changed" (VBool true) ;;
  let* a1 := snapshot a in
  let* b1 := snapshot b in
  ret ((a0, b0), (a1, b1)).

(** [Merge(a, b)] where [a = {"m": {"x": nil}}] and [b = {"m": {"x": 1}}]. *)
Definition merge_onto_null : M (option tval) :=
  let* a := build_data (TMap [("m", TMap [("x", TNil)])]) in
  let* b := build_data (TMap [("m", TMap [("x", TInt64 1)])]) in
  let* r := Merge 8 [a; b] in
  snapshot r.

(** A patch with the one update [{"": {"a": 1}}], applied to the empty
    [Data]. *)
Definition patch_empty_target : M (option Data * option patch_error) :=
  let* u := build_data (TMap [("a", TInt64 1)]) in
  Patch_ApplyTo 8 [mkAction [] [("", u)]] (Some emptyData).

(** A patch that first clears the target and then updates its root. *)
Definition patch_clear_then_update : M (option Data * option patch_error) :=
  let* d := build_data (TMap [("old", TInt64 0)]) in
  let* u := build_data (TMap [("a", TInt64 1)]) in
  Patch_ApplyTo 8 [mkAction [""] [("", u)]] (Some d).

(** A patch that deletes the last element of a sequence. *)
Definition patch_delete_last : M (option Data * option patch_error) :=
  let* d := build_data (TMap [("arr", ints [1; 2; 3])]) in
  Patch_ApplyTo 8 [mkAction ["arr.2"] []] (Some d).

(** [p.Apply(d)] for [d = {"x": [{"p": 1}]}] and the patch [p] with the
    updates [{"": d, "x.1": {"q": 2}}]: the tree of [d] before and after,
    the applied tree and the error. *)
Definition apply_with_shared_update
    : M (option tval * option tval * option tval * option patch_error) :=
  let* d := build_data (TMap [("x", TSlice tObject [TMap [("p", TInt64 1)]])]) in
  let* e := build_data (TMap [("q", TInt64 2)]) in
  let* d0 := snapshot d in
  let* r := Patch_Apply 8 [mkAction [] [("", d); ("x.1", e)]] d in
  let* d1 := snapshot d in
  let* applied := snapshot (fst r) in
  ret (d0, d1, applied, snd r).

(** [p.ApplyTo(&d)] for [d = {"arr": [1, 2, 3], "v2": 123}] and the patch
    with the deletes [["v2"]] and the update [{"foo": {"bar": 1}}]. *)
Definition applyto_partial : M (option tval * option patch_error) :=
  let* d := build_data (TMap [("arr", ints [1; 2; 3]); ("v2", TInt64 123)]) in
  let* u := build_data (TMap [("bar", TInt64 1)]) in
  let* r := Patch_ApplyTo 8 [mkAction ["v2"] [("foo", u)]] (Some d) in
  let* d1 := snapshot d in
  ret (d1, snd r).

(** [d.Delete(queries...)] on the [Data] built from a tree, then its tree. *)
Definition delete_in (t : tval) (queries : list string) : M (option tval) :=
  let* d := build_data t in
  let* d' := Delete (data d) queries in
  snapshot (mkData d').

(** A store for a target [{"a": {}}] at address 0 and two update values,
    [{"b": {}}] at address 2 and [{"c": 1}] at address 4. *)
Definition order_store : heap :=
  [OMap {["a" := VMap (Some 1%nat)]}; OMap ∅;
   OMap {["b" := VMap (Some 3%nat)]}; OMap ∅;
   OMap {["c" := VInt64 1]}].

Definition order_target : Data := mkData (Some 0%nat).

(** The updates [{"a.b": {"c": 1}, "a": {"b": {}}}], in two orders of
    iteration. *)
Definition order_updates : list (string * Data) :=
  [("a.b", mkData (Some 4%nat)); ("a", mkData (Some 2%nat))].
Definition order_updates' : list (string * Data) :=
  [("a", mkData (Some 2%nat)); ("a.b", mkData (Some 4%nat))].

(** The target of a [PatchAction.ApplyTo] afterwards, as a tree, and the
    error. *)
Definition action_result (o : outcome (Data * option patch_error))
    : option (option tval * option patch_error) :=
  match o with
  | Ok r h => Some (reify_data 64 h (fst r), snd r)
  | _ => None
  end.

(** A store for the target [{"arr": [1, 2, 3], "num": 123}] at address 1
    and the update value [{"bar": 1}] at address 2. *)
Definition errors_store : heap :=
  [OArr [VInt64 1; VInt64 2; VInt64 3];
   OMap (<["arr" := VSlice tInt64 (Slice (Some 0%nat) 0 3 3)]>
           {["num" := VInt64 123]});
   OMap {["bar" := VInt64 1]}].

Definition errors_target : Data := mkData (Some 1%nat).
Definition errors_update : Data := mkData (Some 2%nat).

(** ** Where a modifier's result is stored back *)

(** [get] calls the modifier on the value the path resolves to and stores
    its result back in the parent: nowhere for the empty path, under a key
    of a map, or in an element of a backing array. *)
Inductive slot : Type :=
| SRoot
| SMap (l : loc) (k : string)
| SArr (t : gtype) (a : loc) (i : nat).

Definition write_back (s : slot) (v : rvalue) : M unit :=
  match s with
  | SRoot => ret tt
  | SMap l k => SetMapIndex (Some l) k v
  | SArr t a i => Set_ (RElem t a i) v
  end.

Definition slot_result (s : slot) (r v : rvalue) : rvalue :=
  match s with SArr _ _ _ => r | _ => v end.

Definition slot_ok (s : slot) (r : rvalue) (h : heap) : Prop :=
  match s with
  | SRoot => exists d, r = RVal (VMap d)
  | SMap l k =>
      exists entries x,
        r = RIface x /\ h !! l = Some (OMap entries) /\ entries !! k = Some x
  | SArr t a i =>
      exists xs x,
        r = RElem t a i /\ h !! a = Some (OArr xs) /\ xs !! i = Some x
  end.

(** An index that is not a number, or not an index of the slice. *)
Definition no_index (target : string) (s : slice) : bool :=
  match ParseInt target with
  | None => true
  | Some idx => (idx <? 0) || (Z.of_nat (s_len s) <=? idx)
  end.

(** A store of two maps, the second the entry [a] of the first. *)
Definition nested_store : heap :=
  [OMap {[ "a" := VMap (Some 1%nat) ]};
   OMap {[ "x" := VInt64 1; "y" := VInt64 2 ]}].


(** ** Values that come back from their text *)

(** Valid UTF-8, as [utf8.DecodeRuneInString] accepts it: the text that
    [escape_string] copies or escapes, without a replacement character. *)
Fixpoint utf8_valid (s : string) : bool :=
  match s with
  | EmptyString => true
  | String c r =>
      let n := code c in
      if n <? 128 then utf8_valid r
      else
        match r with
        | String c1 r1 =>
            let n1 := code c1 in
            if (194 <=? n) && (n <=? 223) then is_cont c1 && utf8_valid r1
            else if (224 <=? n) && (n <=? 239) then
              match r1 with
              | String c2 r2 =>
                  let lo := if n =? 224 then 160 else 128 in
                  let hi := if n =? 237 then 159 else 191 in
                  (lo <=? n1) && (n1 <=? hi) && is_cont c2 && utf8_valid r2
              | EmptyString => false
              end
            else if (240 <=? n) && (n <=? 244) then
              match r1 with
              | String c2 (String c3 r3) =>
                  let lo := if n =? 240 then 144 else 128 in
                  let hi := if n =? 244 then 143 else 191 in
                  (lo <=? n1) && (n1 <=? hi) && is_cont c2 && is_cont c3
                  && utf8_valid r3
              | _ => false
              end
            else false
        | EmptyString => false
        end
  end.

(** What may follow a value in a text: nothing, or one of [,], [}] and
    []]. *)
Definition delim (rest : string) : bool :=
  match rest with
  | EmptyString => true
  | String c _ => Ascii.eqb c "," || Ascii.eqb c "}" || Ascii.eqb c "]"
  end.

(** The float is written as a number that reads back as the same float,
    and not as an integer. *)
Definition float_reads_back (f : float64) : bool :=
  match format_float f with
  | Some txt =>
      match scan_number txt with
      | Some (j, EmptyString) =>
          negb (fits_int64 (Result_Float j)) && bool_decide (Result_Float j = f)
      | _ => false
      end
  | None => false
  end.

(** The integer is read back from its decimal text: the float64 nearest to
    it passes the guard of [parseJSONValue] and converts to the integer. *)
Definition int_reads_back (n : Z) : bool :=
  let f := Result_Float (JNumber (n <? 0) (Z.abs n) 0) in
  fits_int64 f && (int64_of_float64 f =? n).

(** The type [parseJSONValue] reports for a value. *)
Definition jtype (v : tval) : option gtype :=
  match v with
  | TBool _ => Some tBool
  | TInt64 _ => Some tInt64
  | TFloat64 _ => Some tFloat64
  | TString _ => Some tString
  | TMap _ => Some tObject
  | TSlice t _ => Some (tSlice t)
  | _ => None
  end.

(** Keys in strictly ascending order. *)
Fixpoint ascending (ks : list string) : bool :=
  match ks with
  | [] => true
  | k :: r =>
      forallb (fun k' => match String.compare k k' with Lt => true | _ => false end) r
      && ascending r
  end.

Definition is_TNil (v : tval) : bool :=
  match v with TNil => true | _ => false end.

(** The values that come back from their text: booleans; the Int64 that
    read back, among them all of magnitude at most [2^53]
    ([int_reads_back_small]); the floats that read back; strings of valid UTF-8; nil
    as the value of a key; mappings with keys of valid UTF-8 and stable values
    (entries listed by ascending key, as [reify] lists them); non-empty
    sequences of stable values other than nil, whose element type is the
    one the decoder chooses: the common type of the elements, or
    [interface{}] when they differ. *)
Fixpoint stable (v : tval) : bool :=
  match v with
  | TNil => true
  | TBool _ => true
  | TInt64 n => int_reads_back n
  | TFloat64 f => float_reads_back f
  | TString s => utf8_valid s
  | TMap kvs =>
      ascending (map fst kvs)
      && forallb (fun kv => utf8_valid (fst kv) && stable (snd kv)) kvs
  | TSlice t xs =>
      negb (is_nil xs)
      && forallb (fun x => negb (is_TNil x) && stable x) xs
      && bool_decide (array_elem_type None (map (fun x => (x, jtype x)) xs) = Some t)
  | _ => false
  end.

(** A [Data]: the nil map, or a non-empty stable mapping. *)
Definition stable_data (d : tval) : bool :=
  match d with
  | TNilMap => true
  | TMap kvs => negb (is_nil kvs) && stable d
  | _ => false
  end.

(** The [gjson.Result] of the text of a value. *)
Fixpoint to_result (v : tval) : Result :=
  match v with
  | TBool b => if b then RTrue else RFalse
  | TInt64 n => RNumber (JNumber (n <? 0) (Z.abs n) 0)
  | TFloat64 f =>
      match format_float f with
      | Some txt =>
          match scan_number txt with
          | Some (j, _) => RNumber j
          | None => RNull
          end
      | None => RNull
      end
  | TString s => RString s
  | TMap kvs => RObject (map (fun kv => (fst kv, to_result (snd kv))) kvs)
  | TSlice _ xs => RArray (map to_result xs)
  | _ => RNull
  end.

(** The text of a value, and of an entry. *)
Definition text (v : tval) : string :=
  match encode v with Some s => s | None => EmptyString end.

Definition member_text (kv : string * tval) : string :=
  String.append (quote (fst kv)) (String ":" (text (snd kv))).

(** The text starts with a character that is no white space and does not
    close an array. *)
Definition head_ok (txt : string) : bool :=
  match txt with
  | String c _ => negb (is_ws c) && negb (Ascii.eqb c "]")
  | EmptyString => false
  end.

(** Induction on value trees, through the entries and the elements. *)
Definition tval_ind' (P : tval -> Prop)
    (HNil : P TNil) (HBool : forall b, P (TBool b))
    (HInt : forall n, P (TInt64 n)) (HUint : forall n, P (TUint64 n))
    (HFloat : forall f, P (TFloat64 f))
    (HComplex : forall re im, P (TComplex128 re im))
    (HString : forall s, P (TString s)) (HNilMap : P TNilMap)
    (HMap : forall kvs, Forall (fun kv => P (snd kv)) kvs -> P (TMap kvs))
    (HNilSlice : forall t, P (TNilSlice t))
    (HSlice : forall t xs, Forall P xs -> P (TSlice t xs)) : forall v, P v :=
  fix F (v : tval) : P v :=
    match v with
    | TNil => HNil
    | TBool b => HBool b
    | TInt64 n => HInt n
    | TUint64 n => HUint n
    | TFloat64 f => HFloat f
    | TComplex128 re im => HComplex re im
    | TString s => HString s
    | TNilMap => HNilMap
    | TMap kvs =>
        HMap kvs
          ((fix G (l : list (string * tval)) : Forall (fun kv => P (snd kv)) l :=
              match l with
              | [] => @List.Forall_nil _ _
              | kv :: r => @List.Forall_cons _ _ kv r (F (snd kv)) (G r)
              end) kvs)
    | TNilSlice t => HNilSlice t
    | TSlice t xs =>
        HSlice t xs
          ((fix G (l : list tval) : Forall P l :=
              match l with
              | [] => @List.Forall_nil _ _
              | x :: r => @List.Forall_cons _ _ x r (F x) (G r)
              end) xs)
    end.

(** The value is written as a text that, followed by a delimiter, is read
    as a [gjson.Result] which [parseJSONValue] turns into the value. *)
Definition reads_back (v : tval) : Prop :=
  encode v = Some (text v)
  /\ head_ok (text v) = true
  /\ parseJSONValue (to_result v) = Done (v, jtype v)
  /\ forall (fuel : nat) (rest : string),
       (String.length (text v) < fuel)%nat -> delim rest = true ->
       parse_value fuel (String.append (text v) rest) = Some (to_result v, rest).

(** A mapping with a number, a mixed sequence (the float is [2.5]) and a
    nested mapping. *)
Definition sample_data : tval :=
  TMap [("a", TInt64 (-12));
        ("b", TSlice tInterface
                [TString "x";
                 TFloat64 (S754_finite false 5629499534213120 (-51));
                 TBool true]);
        ("c", TMap [("d", TNil); ("e", TSlice tInt64 [TInt64 1; TInt64 2])])].

(** ** Paths and sequences: what they yield *)

(** What [Get] finds below a sequence: the element at an index of the
    sequence, and nil for any other field. *)
Definition index_result (s : slice) (xs : list value) (f : string) : value :=
  match ParseInt f with
  | None => VNil
  | Some n =>
      if (n <? 0) || (n >? MaxInt32) then VNil
      else if decide (s_len s <= Z.to_nat n)%nat then VNil
      else default VNil (xs !! (s_off s + Z.to_nat n)%nat)
  end.

(** Neither a mapping nor a sequence: nil or a scalar. *)
Definition is_leaf (v : value) : bool :=
  match v with
  | VMap _ | VSlice _ _ => false
  | _ => true
  end.

(** The capacity of a slice lies within its backing array. *)
Definition slice_ok (h : heap) (s : slice) : Prop :=
  (s_len s <= s_cap s)%nat
  /\ match s_arr s with
     | None => s_cap s = 0%nat
     | Some a =>
         exists arr, h !! a = Some (OArr arr)
                     /\ (s_off s + s_cap s <= List.length arr)%nat
     end.

(** ** Merging entries that are nil or scalars *)

(** The entries of [e] after a merge of the entries [de], when these are
    nil or scalars: the entries of [de] that are not nil, then those of
    [e]. *)
Definition flat_merge (e de : gmap string value) : gmap string value :=
  filter (fun kv : string * value => snd kv <> VNil) de ∪ e.

(** The entries a [Data] has in a store. *)
Definition entries_of (h : heap) (d : Data) : option (gmap string value) :=
  match data d with
  | None => Some ∅
  | Some l =>
      match h !! l with
      | Some (OMap e) => Some e
      | _ => None
      end
  end.

(** Every entry is nil or a scalar. *)
Definition flat (de : gmap string value) : Prop :=
  map_Forall (fun (_ : string) (v : value) => is_leaf v = true) de.

(** No entry of [de] that is not nil meets a nil entry of [e]. *)
Definition meets_no_nil (e de : gmap string value) : Prop :=
  map_Forall (fun (k : string) (v : value) => v <> VNil -> e !! k <> Some VNil) de.

(** No entry is nil. *)
Definition no_nil (e : gmap string value) : Prop :=
  forall k : string, e !! k <> Some VNil.

(** One entry at a time. *)
Definition flat_step (e : gmap string value) (kv : string * value)
    : gmap string value :=
  match snd kv with
  | VNil => e
  | v => <[fst kv := v]> e
  end.

(** ** Decoded objects and arrays *)

(** The first entry of a key in a list of entries. *)
Fixpoint kv_lookup {A} (k : string) (l : list (string * A)) : option A :=
  match l with
  | [] => None
  | (k', v) :: r => if String.eqb k k' then Some v else kv_lookup k r
  end.

(** The value of the last member of a key in an object, as decoded. *)
Definition last_member (members : list (string * Result)) (k : string)
    : option tval :=
  match kv_lookup k (rev members) with
  | Some r =>
      match parseJSONValue r with
      | Done (x, _) => Some x
      | Crash _ => None
      end
  | None => None
  end.

(** The elements of an array, decoded from left to right. *)
Fixpoint parse_all (rs : list Result) : presult (list (tval * option gtype)) :=
  match rs with
  | [] => Done []
  | r :: rest =>
      match parseJSONValue r with
      | Done vt =>
          match parse_all rest with
          | Done vts => Done (vt :: vts)
          | Crash msg => Crash msg
          end
      | Crash msg => Crash msg
      end
  end.

(** The type all of [ts] have, [interface{}] when there is none. *)
Definition common_type (ts : list gtype) : gtype :=
  match ts with
  | [] => tInterface
  | t :: rest => if forallb (fun t' => bool_decide (t' = t)) rest then t else tInterface
  end.

Definition Result_ind' (P : Result -> Prop)
    (HNull : P RNull) (HFalse : P RFalse) (HTrue : P RTrue)
    (HNumber : forall n, P (RNumber n)) (HString : forall s, P (RString s))
    (HObject : forall ms, Forall (fun m => P (snd m)) ms -> P (RObject ms))
    (HArray : forall rs, Forall P rs -> P (RArray rs)) : forall r, P r :=
  fix F (r : Result) : P r :=
    match r with
    | RNull => HNull
    | RFalse => HFalse
    | RTrue => HTrue
    | RNumber n => HNumber n
    | RString s => HString s
    | RObject ms =>
        HObject ms
          ((fix G (l : list (string * Result)) : Forall (fun m => P (snd m)) l :=
              match l with
              | [] => @List.Forall_nil _ _
              | m :: r => @List.Forall_cons _ _ m r (F (snd m)) (G r)
              end) ms)
    | RArray rs =>
        HArray rs
          ((fix G (l : list Result) : Forall P l :=
              match l with
              | [] => @List.Forall_nil _ _
              | x :: r => @List.Forall_cons _ _ x r (F x) (G r)
              end) rs)
    end.

Definition set_on_zero : string :=
  "reflect: call of reflect.Value.Set on zero Value".

(** ** [MarshalJSON] and [UnmarshalJSON] *)

(** [Data.MarshalJSON()]: the bytes written; the error is always nil. *)
Definition MarshalJSON (d : tval) : string := json d.

(** [UnmarshalJSON(src)] on a receiver that holds [d]: the new
    content of the receiver and the error returned. *)
Definition UnmarshalJSON (d : tval) (src : string)
    : presult (tval * option parse_error) :=
  match ParseJSON src with
  | Parsed data_ => Done (data_, None)
  | ParseError e => Done (d, Some e)
  | ParsePanic msg => Crash msg
  end.

(** ** Field tags ([ParseFieldTag]) *)

(** [strings.Split(s, sep)] for a separator of one byte: the first piece
    and the pieces after it. There is always a first piece. *)
Fixpoint Split (sep : ascii) (s : string) : string * list string :=
  match s with
  | EmptyString => (EmptyString, [])
  | String c rest =>
      let (x, xs) := Split sep rest in
      if Ascii.eqb c sep then (EmptyString, x :: xs) else (String c x, xs)
  end.

(** [strings.Join(l, sep)]. *)
Fixpoint Join (sep : ascii) (l : list string) : string :=
  match l with
  | [] => EmptyString
  | [x] => x
  | x :: rest => String.append x (String sep (Join sep rest))
  end.

(** [strings.Contains(s, c)] for one byte. *)
Fixpoint contains (c : ascii) (s : string) : bool :=
  match s with
  | EmptyString => false
  | String a r => Ascii.eqb a c || contains c r
  end.

(** White space as [unicode.IsSpace] has it, on the bytes of UTF-8: the
    ASCII characters tab, line feed, vertical tab, form feed, carriage
    return and space; in two bytes U+0085 and U+00A0; in three bytes U+1680,
    U+2000 to U+200A, U+2028, U+2029, U+202F, U+205F and U+3000. *)
Definition is_ascii_space (c : ascii) : bool :=
  ((9 <=? code c) && (code c <=? 13)) || (code c =? 32).

Definition is_space2 (b1 b2 : ascii) : bool :=
  (code b1 =? 194) && ((code b2 =? 133) || (code b2 =? 160)).

Definition is_space3 (b1 b2 b3 : ascii) : bool :=
  ((code b1 =? 225) && (code b2 =? 154) && (code b3 =? 128))
  || ((code b1 =? 226) && (code b2 =? 128)
      && (((128 <=? code b3) && (code b3 <=? 138))
          || (code b3 =? 168) || (code b3 =? 169) || (code b3 =? 175)))
  || ((code b1 =? 226) && (code b2 =? 129) && (code b3 =? 159))
  || ((code b1 =? 227) && (code b2 =? 128) && (code b3 =? 128)).

(** [strings.TrimLeftFunc(s, unicode.IsSpace)] on the bytes of [s]. *)
Fixpoint trim_left (s : list ascii) : list ascii :=
  match s with
  | [] => []
  | b1 :: r1 =>
      if is_ascii_space b1 then trim_left r1
      else
        match r1 with
        | b2 :: r2 =>
            if is_space2 b1 b2 then trim_left r2
            else
              match r2 with
              | b3 :: r3 => if is_space3 b1 b2 b3 then trim_left r3 else s
              | [] => s
              end
        | [] => s
        end
  end.

(** [strings.TrimRightFunc(s, unicode.IsSpace)], on the bytes of [s] from
    the last one on. *)
Fixpoint trim_right_rev (s : list ascii) : list ascii :=
  match s with
  | [] => []
  | b1 :: r1 =>
      if is_ascii_space b1 then trim_right_rev r1
      else
        match r1 with
        | b2 :: r2 =>
            if is_space2 b2 b1 then trim_right_rev r2
            else
              match r2 with
              | b3 :: r3 => if is_space3 b3 b2 b1 then trim_right_rev r3 else s
              | [] => s
              end
        | [] => s
        end
  end.

(** [strings.TrimSpace(s)]. *)
Definition TrimSpace (s : string) : string :=
  string_of_list_ascii
    (rev (trim_right_rev (rev (trim_left (list_ascii_of_string s))))).

Record FieldTag : Type := mkFieldTag {
  Alias : string;
  Skipped : bool;
  OmitEmpty : bool;
  Squash : bool
}.

(** The loop over [opts[1:]]: the flags [omitEmpty] and [squash]. *)
Definition tag_option (flags : bool * bool) (opt : string) : bool * bool :=
  if String.eqb opt "omitempty" then (true, snd flags)
  else if String.eqb opt "squash" then (fst flags, true)
  else flags.

(** [ParseFieldTag(tag)]. *)
Definition ParseFieldTag (tag : string) : FieldTag :=
  let (first, opts) := Split "," tag in
  let alias := TrimSpace first in
  let flags := fold_left tag_option opts (false, false) in
  if String.eqb alias "-" then mkFieldTag EmptyString true (fst flags) (snd flags)
  else mkFieldTag alias false (fst flags) (snd flags).

(** ** Trees of values in a store *)

(** Every sequence that a value reaches lies within its backing array. *)
Fixpoint within (fuel : nat) (h : heap) (v : value) : bool :=
  match fuel with
  | O => false
  | S fuel' =>
      match v with
      | VMap (Some l) =>
          match h !! l with
          | Some (OMap m) =>
              forallb (fun kv : string * value => within fuel' h (snd kv))
                      (map_to_list m)
          | _ => false
          end
      | VSlice _ s =>
          match s_arr s with
          | None => true
          | Some a =>
              match h !! a with
              | Some (OArr xs) =>
                  bool_decide (s_off s + s_len s <= List.length xs)%nat
                  && forallb (within fuel' h) (take (s_len s) (drop (s_off s) xs))
              | _ => false
              end
          end
      | _ => true
      end
  end.

(** The entries of a tree that is a mapping. *)
Definition tree_entries (t : tval) : list (string * tval) :=
  match t with
  | TMap kvs => kvs
  | _ => []
  end.

(** The entry of a key with its tree, as [reify] computes it. *)
Definition reify_entry (fuel : nat) (h : heap) (kv : string * value)
    : option (string * tval) :=
  match reify fuel h (snd kv) with
  | Some t => Some (fst kv, t)
  | None => None
  end.

(** Entries in the order of their keys. *)
Definition key_lt {A} (a b : string * A) : Prop := str_lt (fst a) (fst b).

(** The entries that are not nil. *)
Definition not_nil_entries (kvs : list (string * tval)) : list (string * tval) :=
  List.filter (fun kv => negb (is_TNil (snd kv))) kvs.

(** ** Further stores *)

(** A store for [{"a": {"arr": [1, 2, 3]}}] at address 0. *)
Definition seq_store : heap :=
  [OMap {["a" := VMap (Some 1%nat)]};
   OMap {["arr" := VSlice tInt64 (Slice (Some 2%nat) 0 3 3)]};
   OArr [VInt64 1; VInt64 2; VInt64 3]].

(** A store for [{"a": 1, "b": "x"}] at address 0 and
    [{"a": nil, "b": 2, "c": true}] at address 1. *)
Definition flat_store : heap :=
  [OMap (<["a" := VInt64 1]> {["b" := VString "x"]});
   OMap (<["a" := VNil]> (<["b" := VInt64 2]> {["c" := VBool true]}))].

(** A store for [{"x": [1, 2]}] at address 0 and [{"x": [3]}] at address
    2; the sequence [[1, 2]] has capacity for a third element. *)
Definition append_store : heap :=
  [OMap {["x" := VSlice tInt64 (Slice (Some 1%nat) 0 2 3)]};
   OArr [VInt64 1; VInt64 2; VInt64 0];
   OMap {["x" := VSlice tInt64 (Slice (Some 3%nat) 0 1 1)]};
   OArr [VInt64 3]].

(** * Theorems *)

(** ** Merge *)

(** C2, at the failing input: after [r := Merge(a, b)] with
    [a = {"x": [{"p": 1}]}] and [b = {"x": [{"q": 2}]}], the assignment
    [r["x"][1]["changed"] = true] changes [b]: the map appended to the
    sequence of [r] is the map of [b] itself, not a clone. *)
Theorem C2_merge_result_shares_appended_elements :
  exists h,
    run merge_then_mutate =
      Ok ((Some (TMap [("x", TSlice tObject [TMap [("p", TInt64 1)]])]),
           Some (TMap [("x", TSlice tObject [TMap [("q", TInt64 2)]])])),
          (Some (TMap [("x", TSlice tObject [TMap [("p", TInt64 1)]])]),
           Some (TMap [("x", TSlice tObject
                           [TMap [("changed", TBool true); ("q", TInt64 2)]])])))
         h.
Proof. eexists. vm_compute. reflexivity. Qed.

(** C3, at the failing input: merging [{"m": {"x": 1}}] onto
    [{"m": {"x": nil}}] does not replace the nil entry; [mergeValue] asks
    the zero Value for its type and panics. *)
Theorem C3_merge_onto_null_entry_panics :
  run merge_onto_null =
    Panic "reflect: call of reflect.Value.Type on zero Value".
Proof. vm_compute. reflexivity. Qed.

(** ** Patch *)

(** C10, at the failing input: an update keyed by the zero-length path
    against the empty value writes into the nil map, and panics. *)
Theorem C10_update_of_empty_value_panics :
  run patch_empty_target = Panic "assignment to entry in nil map".
Proof. vm_compute. reflexivity. Qed.

(** The same write happens when the patch itself clears the target with
    the delete [""] before the update; and a delete of the last element of
    a sequence that sits in a map panics in [SetLen]. *)
Example patch_clear_then_update_panics :
  run patch_clear_then_update = Panic "assignment to entry in nil map".
Proof. vm_compute. reflexivity. Qed.

Example patch_delete_last_panics :
  run patch_delete_last
  = Panic "reflect: reflect.Value.SetLen using unaddressable value".
Proof. vm_compute. reflexivity. Qed.

(** C6, at the failing input: [p.Apply(d)] returns no error and leaves [d]
    changed, when an update of [p] shares storage with [d]. *)
Theorem C6_apply_modifies_shared_original :
  exists h,
    run apply_with_shared_update =
      Ok (Some (TMap [("x", TSlice tObject [TMap [("p", TInt64 1)]])]),
          Some (TMap [("x", TSlice tObject
                          [TMap [("p", TInt64 1); ("q", TInt64 2)]])]),
          Some (TMap [("x", TSlice tObject
                          [TMap [("p", TInt64 1)];
                           TMap [("p", TInt64 1); ("q", TInt64 2)]])]),
          None) h.
Proof. eexists. vm_compute. reflexivity. Qed.

(** [ApplyTo] on a live target: the delete of ["v2"] stays applied when the
    update of ["foo"] fails. *)
Example applyto_leaves_partial_result :
  exists h,
    run applyto_partial
    = Ok (Some (TMap [("arr", ints [1; 2; 3])]), Some (InvalidQuery "foo")) h.
Proof. eexists. vm_compute. reflexivity. Qed.

(** *** The order of updates *)

Lemma ascii_compare_lt_trans (a b c : ascii) :
  Ascii.compare a b = Lt -> Ascii.compare b c = Lt -> Ascii.compare a c = Lt.
Proof.
  unfold Ascii.compare. rewrite !N.compare_lt_iff. lia.
Qed.

Lemma str_lt_trans (a b c : string) : str_lt a b -> str_lt b c -> str_lt a c.
Proof.
  unfold str_lt. revert b c.
  induction a as [|x a IH]; intros [|y b] [|z c]; simpl; try congruence.
  destruct (Ascii.compare x y) eqn:Hxy; try congruence;
    destruct (Ascii.compare y z) eqn:Hyz; try congruence; intros H1 H2.
  - apply Ascii.compare_eq_iff in Hxy, Hyz. subst.
    rewrite (proj2 (N.compare_eq_iff _ _) eq_refl : Ascii.compare z z = Eq).
    eauto.
  - apply Ascii.compare_eq_iff in Hxy. subst. now rewrite Hyz.
  - apply Ascii.compare_eq_iff in Hyz. subst. now rewrite Hxy.
  - now rewrite (ascii_compare_lt_trans _ _ _ Hxy Hyz).
Qed.

Lemma str_compare_refl (a : string) : String.compare a a = Eq.
Proof.
  induction a as [|x a IH]; simpl; [reflexivity|].
  now rewrite (proj2 (N.compare_eq_iff _ _) eq_refl : Ascii.compare x x = Eq).
Qed.

Lemma str_lt_irrefl (a : string) : ~ str_lt a a.
Proof. unfold str_lt. rewrite str_compare_refl. discriminate. Qed.

Lemma str_le_lt_or_eq (a b : string) : str_le a b <-> str_lt a b \/ a = b.
Proof.
  unfold str_le, str_lt, String.leb. split.
  - destruct (String.compare a b) eqn:H; try discriminate; intros _.
    + right. now apply String.compare_eq_iff.
    + now left.
  - intros [->| ->]; [reflexivity|]. now rewrite str_compare_refl.
Qed.

Global Instance str_le_trans : Transitive str_le.
Proof.
  intros a b c. rewrite !str_le_lt_or_eq.
  intros [H1| ->] [H2| ->]; eauto using str_lt_trans.
Qed.

Global Instance str_le_antisym : AntiSymm (=) str_le.
Proof. intros a b. apply String.leb_antisym. Qed.

Global Instance str_lt_transitive : Transitive str_lt.
Proof. intros a b c. apply str_lt_trans. Qed.

Lemma str_le_total (a b : string) : str_le a b \/ str_le b a.
Proof. apply String.leb_total. Qed.

(** A string is below each of its proper extensions: a path is below its
    descendants. *)
Lemma str_lt_extension (q r : string) :
  r <> EmptyString -> str_lt q (String.append q r).
Proof.
  unfold str_lt. intros Hr. induction q as [|x q IH]; simpl.
  - destruct r; [congruence | reflexivity].
  - rewrite (proj2 (N.compare_eq_iff _ _) eq_refl : Ascii.compare x x = Eq).
    exact IH.
Qed.

Lemma insert_sorted_perm (x : string) (l : list string) :
  insert_sorted x l ≡ₚ x :: l.
Proof.
  induction l as [|y l IH]; simpl; [reflexivity|].
  destruct (String.leb x y); [reflexivity|].
  rewrite IH. apply Permutation_swap.
Qed.

Lemma sort_Strings_perm (l : list string) : sort_Strings l ≡ₚ l.
Proof.
  induction l as [|x l IH]; simpl; [reflexivity|].
  rewrite insert_sorted_perm. now rewrite IH.
Qed.

Lemma insert_sorted_sorted (x : string) (l : list string) :
  Sorted str_le l -> Sorted str_le (insert_sorted x l).
Proof.
  induction 1 as [|y l Hl IH Hhd]; simpl.
  - repeat constructor.
  - destruct (String.leb x y) eqn:Hxy.
    + constructor; [constructor; assumption|]. constructor. exact Hxy.
    + constructor; [exact IH|].
      assert (Hyx : str_le y x).
      { destruct (str_le_total x y) as [H|H]; [unfold str_le in H; congruence|exact H]. }
      destruct Hhd as [|z l' Hyz]; simpl.
      * constructor. exact Hyx.
      * destruct (String.leb x z); constructor; assumption.
Qed.

Lemma sort_Strings_sorted (l : list string) : Sorted str_le (sort_Strings l).
Proof.
  induction l as [|x l IH]; simpl; [constructor|].
  now apply insert_sorted_sorted.
Qed.

(** The sorted list does not depend on the order of its input. *)
Lemma sort_Strings_order_independent (l1 l2 : list string) :
  l1 ≡ₚ l2 -> sort_Strings l1 = sort_Strings l2.
Proof.
  intros Hp. apply (Sorted_unique str_le); try apply sort_Strings_sorted.
  now rewrite !sort_Strings_perm.
Qed.

(** Without duplicates the order is strict. *)
Lemma Sorted_le_NoDup_lt (l : list string) :
  Sorted str_le l -> NoDup l -> StronglySorted str_lt l.
Proof.
  intros Hs Hn. apply Sorted_StronglySorted in Hs; [|apply _].
  induction Hs as [|x l Hs IH Hall]; [constructor|].
  apply NoDup_cons in Hn as [Hx Hn]. constructor; [auto|].
  rewrite Forall_forall in *. intros y Hy.
  destruct (proj1 (str_le_lt_or_eq x y) (Hall y Hy)) as [H| ->]; [exact H|].
  exfalso. apply Hx. exact Hy.
Qed.

Lemma StronglySorted_lookup_lt (l : list string) (i j : nat) (x y : string) :
  StronglySorted str_lt l -> l !! i = Some x -> l !! j = Some y ->
  (i < j)%nat -> str_lt x y.
Proof.
  intros Hs. revert i j. induction Hs as [|z l Hs IH Hall]; intros i j Hi Hj Hij.
  - discriminate.
  - destruct j as [|j]; [lia|]. destruct i as [|i]; simpl in *.
    + injection Hi as ->. rewrite Forall_forall in Hall. apply Hall.
      eapply list_elem_of_lookup_2. exact Hj.
    + eapply IH; eauto. lia.
Qed.

(** In a strictly ascending list the smaller of two members comes first. *)
Lemma StronglySorted_lt_before (l : list string) (x y : string) :
  StronglySorted str_lt l -> x ∈ l -> y ∈ l -> str_lt x y ->
  exists i j, (i < j)%nat /\ l !! i = Some x /\ l !! j = Some y.
Proof.
  intros Hs Hx Hy Hxy.
  apply list_elem_of_lookup in Hx as [i Hi], Hy as [j Hj].
  exists i, j. split; [|auto].
  destruct (lt_eq_lt_dec i j) as [[H|H]|H]; [exact H| |].
  - subst. rewrite Hi in Hj. injection Hj as ->. now apply str_lt_irrefl in Hxy.
  - pose proof (StronglySorted_lookup_lt _ _ _ _ _ Hs Hj Hi H) as Hyx.
    exfalso. exact (str_lt_irrefl _ (str_lt_trans _ _ _ Hxy Hyx)).
Qed.

Lemma lookup_update_In (ups : list (string * Data)) (q : string) (d : Data) :
  NoDup (map fst ups) -> In (q, d) ups -> lookup_update ups q = d.
Proof.
  induction ups as [|[k d'] ups IH]; simpl; [tauto|].
  intros Hn [Heq|Hin].
  - injection Heq as -> ->. now rewrite String.eqb_refl.
  - apply NoDup_cons in Hn as [Hk Hn].
    destruct (String.eqb_spec k q) as [->|Hne]; [|auto].
    exfalso. apply Hk. apply list_elem_of_In. apply in_map_iff. now exists (q, d).
Qed.

Lemma lookup_update_notin (ups : list (string * Data)) (q : string) :
  ~ In q (map fst ups) -> lookup_update ups q = emptyData.
Proof.
  induction ups as [|[k d'] ups IH]; simpl; [reflexivity|].
  intros Hq. destruct (String.eqb_spec k q) as [->|Hne]; [tauto|].
  apply IH. tauto.
Qed.

Lemma lookup_update_perm (ups1 ups2 : list (string * Data)) (q : string) :
  NoDup (map fst ups1) -> ups1 ≡ₚ ups2 ->
  lookup_update ups1 q = lookup_update ups2 q.
Proof.
  intros Hn Hp.
  assert (Hn2 : NoDup (map fst ups2)).
  { rewrite <- (Permutation_map fst Hp). exact Hn. }
  destruct (in_dec string_dec q (map fst ups1)) as [Hin|Hnin].
  - apply in_map_iff in Hin as [[k d] [Hk Hin]]. simpl in Hk. subst k.
    rewrite (lookup_update_In _ _ _ Hn Hin).
    symmetry. apply lookup_update_In; [exact Hn2|].
    eapply Permutation_in; eauto.
  - rewrite (lookup_update_notin _ _ Hnin). symmetry.
    apply lookup_update_notin. intros Hin. apply Hnin.
    eapply Permutation_in; [|exact Hin]. apply Permutation_map. now symmetry.
Qed.

Lemma apply_updates_ext (fuel : nat) (d : RawData)
    (ups1 ups2 : list (string * Data)) (qs : list string) (h : heap) :
  (forall q, lookup_update ups1 q = lookup_update ups2 q) ->
  apply_updates fuel d ups1 qs h = apply_updates fuel d ups2 qs h.
Proof.
  intros Hl. revert h.
  induction qs as [|q qs IH]; intros h; cbn [apply_updates]; [reflexivity|].
  unfold bind. destruct (Query d q h) as [v h'| |]; try reflexivity.
  destruct v; try reflexivity.
  rewrite Hl. destruct (merge fuel m (data (lookup_update ups2 q)) [] h');
    try reflexivity. apply IH.
Qed.

Lemma is_nil_perm {A} (l1 l2 : list A) : l1 ≡ₚ l2 -> is_nil l1 = is_nil l2.
Proof.
  intros Hp. apply Permutation_length in Hp.
  destruct l1, l2; simpl in *; congruence.
Qed.



Example order_example_sorted :
  sort_Strings (map fst order_updates) = ["a"; "a.b"].
Proof. reflexivity. Qed.

Example order_example_result :
  action_result
    (PatchAction_ApplyTo 8 (mkAction [] order_updates) order_target order_store)
  = Some (Some (TMap [("a", TMap [("b", TMap [("c", TInt64 1)])])]), None).
Proof. vm_compute. reflexivity. Qed.

(** *** The errors of patch application *)

Lemma apply_updates_errors (fuel : nat) (d : RawData)
    (ups : list (string * Data)) (qs : list string) (h h' : heap)
    (e : patch_error) :
  apply_updates fuel d ups qs h = Ok (Some e) h' ->
  exists q, In q qs /\ (e = InvalidQuery q \/ e = UnsupportedType q).
Proof.
  revert h. induction qs as [|q qs IH]; intros h; cbn [apply_updates].
  - unfold ret. congruence.
  - unfold bind. destruct (Query d q h) as [v h1| |]; try congruence.
    destruct v; unfold ret;
      try (intros [= <- <-]; exists q; split; [now left|tauto]).
    destruct (merge fuel m _ [] h1) as [u h2| |]; try congruence.
    intros H. apply IH in H as [q' [Hq' He]]. exists q'. split; [now right|exact He].
Qed.

Lemma sort_Strings_In (l : list string) (q : string) :
  In q (sort_Strings l) -> In q l.
Proof.
  intros H. apply list_elem_of_In. rewrite <- (sort_Strings_perm l).
  now apply list_elem_of_In.
Qed.



Example patch_update_missing_path :
  action_result
    (PatchAction_ApplyTo 8 (mkAction [] [("foo", errors_update)])
       errors_target errors_store)
  = Some (Some (TMap [("arr", ints [1; 2; 3]); ("num", TInt64 123)]),
          Some (InvalidQuery "foo")).
Proof. vm_compute. reflexivity. Qed.

Example patch_delete_missing_paths :
  action_result
    (PatchAction_ApplyTo 8 (mkAction ["arr.3"; "foo"] [])
       errors_target errors_store)
  = Some (Some (TMap [("arr", ints [1; 2; 3]); ("num", TInt64 123)]), None).
Proof. vm_compute. reflexivity. Qed.

(** ** The text codec: errors of [Parse] *)

Lemma cut_at_tagged (tag body : string) :
  no_gt tag -> cut_at ">" (String.append tag (String ">" body)) = Some (tag, body).
Proof.
  induction tag as [|c tag IH]; simpl.
  - reflexivity.
  - intros [Hc Ht]. destruct (Ascii.eqb_spec c ">"); [contradiction|].
    now rewrite (IH Ht).
Qed.

Lemma cut_at_Some (s before after : string) :
  cut_at ">" s = Some (before, after) ->
  s = String.append before (String ">" after).
Proof.
  revert before after.
  induction s as [|c s IH]; simpl; intros before after; [discriminate|].
  destruct (Ascii.eqb_spec c ">") as [->|Hc].
  - intros [= <- <-]. reflexivity.
  - destruct (cut_at ">" s) as [[b a]|]; [|discriminate].
    intros [= <- <-].
    change (String c s = String c (String.append b (String ">" a))).
    f_equal. now apply IH.
Qed.

Lemma Parse_tagged (tag body : string) :
  no_gt tag ->
  Parse (tagged tag body) =
    if String.eqb tag dataTypeJSON then ParseJSON body
    else ParseError (ErrInvalidDataType tag).
Proof.
  intros Ht. unfold Parse, tagged. cbn [strip_prefix dataMetaBegin].
  cbn [Ascii.eqb Bool.eqb]. now rewrite (cut_at_tagged _ _ Ht).
Qed.

(** C9: [Parse] fails with the format error on every string that is not of
    the shape [<tag>body], whatever the string is otherwise; it fails with
    the unrecognized-type error on [<tag>body] for every tag other than
    [json]; and on [<json>body] it fails with a format error when the body
    is not valid JSON and when it is a JSON value that is not an object. *)
Theorem C9_parse_errors :
  (forall str : string,
      (forall tag body, str <> tagged tag body) ->
      Parse str = ParseError ErrInvalidDataString)
  /\ (forall tag body : string,
        no_gt tag -> tag <> "json" ->
        Parse (tagged tag body) = ParseError (ErrInvalidDataType tag)
        /\ is_unrecognized_format (Parse (tagged tag body)))
  /\ (forall body : string,
        gjson_Valid body = false ->
        Parse (tagged "json" body) = ParseError ErrInvalidJSON
        /\ is_invalid_format (Parse (tagged "json" body)))
  /\ (forall (body : string) (res : Result),
        gjson_Parse body = Some res -> IsObject res = false ->
        Parse (tagged "json" body) = ParseError ErrJSONNotObject
        /\ is_invalid_format (Parse (tagged "json" body))).
Proof.
  split; [|split; [|split]].
  - intros str Hno. unfold Parse.
    destruct str as [|c str]; [reflexivity|]. cbn [strip_prefix dataMetaBegin].
    destruct (Ascii.eqb_spec "<" c) as [<-|Hc]; [|reflexivity].
    destruct (cut_at ">" str) as [[t b]|] eqn:Hcut; [|reflexivity].
    exfalso. apply (Hno t b). unfold tagged. f_equal. now apply cut_at_Some.
  - intros tag body Ht Hne.
    assert (H : Parse (tagged tag body) = ParseError (ErrInvalidDataType tag)).
    { rewrite (Parse_tagged _ _ Ht).
      destruct (String.eqb_spec tag dataTypeJSON); [contradiction|reflexivity]. }
    split; [exact H|]. rewrite H. now exists tag.
  - intros body Hv.
    assert (H : Parse (tagged "json" body) = ParseError ErrInvalidJSON).
    { rewrite Parse_tagged by (simpl; intuition discriminate).
      cbn [String.eqb dataTypeJSON Ascii.eqb Bool.eqb]. unfold ParseJSON.
      now rewrite Hv. }
    split; [exact H|]. rewrite H. right. now left.
  - intros body res Hp Hobj.
    assert (H : Parse (tagged "json" body) = ParseError ErrJSONNotObject).
    { rewrite Parse_tagged by (simpl; intuition discriminate).
      cbn [String.eqb dataTypeJSON Ascii.eqb Bool.eqb]. unfold ParseJSON, gjson_Valid.
      rewrite Hp. cbn [negb]. destruct res; try reflexivity. discriminate. }
    split; [exact H|]. rewrite H. right. now right.
Qed.

(** The scenarios of the specification: valid JSON without a marker, an
    unknown tag, a trailing comma, and a JSON value that is not an
    object. *)
Lemma C9_parse_errors_witness :
  Parse (js "{'a':1}") = ParseError ErrInvalidDataString
  /\ Parse (js "<bson>{'a':1}") = ParseError (ErrInvalidDataType "bson")
  /\ Parse (js "<json>{'a':1,}") = ParseError ErrInvalidJSON
  /\ Parse (js "<json>[1]") = ParseError ErrJSONNotObject.
Proof.
  destruct C9_parse_errors as (H1 & H2 & H3 & H4).
  split; [|split; [|split]].
  - apply H1. intros tag body. vm_compute. discriminate.
  - apply (H2 "bson" (js "{'a':1}")).
    + vm_compute. intuition discriminate.
    + discriminate.
  - apply (H3 (js "{'a':1,}")). vm_compute. reflexivity.
  - apply (H4 (js "[1]") (RArray [RNumber (JNumber false 1 0)])).
    + vm_compute. reflexivity.
    + reflexivity.
Defined.

Example parse_without_marker :
  gjson_Valid (js "{'a':1}") = true
  /\ Parse (js "{'a':1}") = ParseError ErrInvalidDataString.
Proof. split; vm_compute; reflexivity. Qed.

Example parse_scalar_body :
  Parse "<json>1" = ParseError ErrJSONNotObject.
Proof. vm_compute. reflexivity. Qed.

Example parse_empty_object : Parse "<json>{}" = Parsed TNilMap.
Proof. vm_compute. reflexivity. Qed.

(** ** Delete *)

(** C7, counterexample: on [{"arr": [1, 2, 3]}], deleting ["arr.0"] once
    leaves [[2, 3]] and deleting it twice leaves [[3]]: deleting an index
    moves the later elements down, so a second deletion removes another
    element. *)
Lemma C7_counterexample :
  exists (h1 h2 : heap) (once twice : option tval),
    run (delete_in (TMap [("arr", ints [1; 2; 3])]) ["arr.0"]) = Ok once h1
    /\ run (delete_in (TMap [("arr", ints [1; 2; 3])]) ["arr.0"; "arr.0"])
       = Ok twice h2
    /\ once = Some (TMap [("arr", ints [2; 3])])
    /\ twice = Some (TMap [("arr", ints [3])])
    /\ once <> twice.
Proof.
  do 4 eexists. split; [vm_compute; reflexivity|].
  split; [vm_compute; reflexivity|].
  split; [reflexivity|]. split; [reflexivity|]. discriminate.
Qed.

(** Deleting the last element of a sequence that sits in a map panics:
    the slice reached through [MapIndex] and [Elem] is not addressable. *)
Example delete_last_element_panics :
  run (delete_in (TMap [("arr", ints [1; 2; 3])]) ["arr.2"])
  = Panic "reflect: reflect.Value.SetLen using unaddressable value".
Proof. vm_compute. reflexivity. Qed.

(** Inside a sequence of sequences the element is addressable, and its
    last element is removed in place. *)
Example delete_last_of_nested_sequence :
  exists h,
    run (delete_in (TMap [("a", TSlice (tSlice tInt64) [ints [1; 2]; ints [3]])])
           ["a.0.1"])
    = Ok (Some (TMap [("a", TSlice (tSlice tInt64) [ints [1]; ints [3]])])) h.
Proof. eexists. vm_compute. reflexivity. Qed.

(** A path below a nil entry removes the entry. *)
Example delete_below_null_entry :
  exists h,
    run (delete_in (TMap [("a", TMap [("b", TNil)])]) ["a.b.c"])
    = Ok (Some (TMap [("a", TMap [])])) h.
Proof. eexists. vm_compute. reflexivity. Qed.

(** A path that ends in a dot removes the parent. *)
Example delete_trailing_dot :
  exists h,
    run (delete_in (TMap [("a", TMap [("x", TInt64 1)])]) ["a."])
    = Ok (Some (TMap [])) h.
Proof. eexists. vm_compute. reflexivity. Qed.

(** An index beyond the sequence, or a final field that is no number,
    deletes nothing. *)
Example delete_missing_index :
  exists h,
    run (delete_in (TMap [("arr", ints [1; 2; 3])]) ["arr.7"; "arr.x"; "arr.-1"])
    = Ok (Some (TMap [("arr", ints [1; 2; 3])])) h.
Proof. eexists. vm_compute. reflexivity. Qed.

(** *** Deleting a key, or an index that is not there *)

(** Writing back what is there changes nothing. *)
Lemma write_map_same (l : loc) (m : gmap string value) (h : heap) :
  h !! l = Some (OMap m) -> write_map l m h = Ok tt h.
Proof.
  intros H. unfold write_map. rewrite H. f_equal. now apply list_insert_id.
Qed.

Lemma read_map_Ok (l : loc) (h h' : heap) (m : gmap string value) :
  read_map l h = Ok m h' -> h' = h /\ h !! l = Some (OMap m).
Proof.
  unfold read_map. destruct (h !! l) as [[m'|a]|]; try discriminate.
  intros [= <- <-]. auto.
Qed.

Lemma read_arr_Ok (a : loc) (h h' : heap) (xs : list value) :
  read_arr a h = Ok xs h' -> h' = h /\ h !! a = Some (OArr xs).
Proof.
  unfold read_arr. destruct (h !! a) as [[m'|a']|]; try discriminate.
  intros [= <- <-]. auto.
Qed.

Lemma read_elem_Ok (a : loc) (i : nat) (h h' : heap) (v : value) :
  read_elem a i h = Ok v h' ->
  h' = h /\ exists xs, h !! a = Some (OArr xs) /\ xs !! i = Some v.
Proof.
  unfold read_elem, bind. destruct (read_arr a h) as [xs h1| |] eqn:Hr; try discriminate.
  apply read_arr_Ok in Hr as [-> Ha].
  destruct (xs !! i) eqn:Hi; [|discriminate].
  unfold ret. intros [= <- <-]. eauto.
Qed.

Lemma write_elem_same (a : loc) (i : nat) (v : value) (xs : list value) (h : heap) :
  h !! a = Some (OArr xs) -> xs !! i = Some v -> write_elem a i v h = Ok tt h.
Proof.
  intros Ha Hi. unfold write_elem, bind, read_arr. rewrite Ha.
  destruct (decide (i < length xs)%nat) as [Hlt|Hge].
  - unfold write_arr. rewrite Ha. f_equal.
    rewrite (list_insert_id xs i v Hi). now apply list_insert_id.
  - exfalso. apply Hge. eapply lookup_lt_Some. exact Hi.
Qed.

Lemma unwrap_Ok (val r : rvalue) (h h' : heap) :
  unwrap val h = Ok r h' -> h' = h.
Proof.
  destruct val as [|v|v|t a i]; cbn [unwrap].
  - unfold ret. congruence.
  - destruct v; unfold ret; congruence.
  - unfold ret. congruence.
  - destruct t; unfold ret; try congruence.
    unfold bind. destruct (read_elem a i h) as [v h1| |] eqn:Hr; try discriminate.
    apply read_elem_Ok in Hr as [-> _]. unfold ret. congruence.
Qed.

Lemma load_Ok (val : rvalue) (v : value) (h h' : heap) :
  load val h = Ok v h' -> h' = h.
Proof.
  destruct val as [|x|x|t a i]; cbn [load]; unfold ret; try congruence.
  intros Hr. now apply read_elem_Ok in Hr as [-> _].
Qed.

Lemma MapIndex_Ok (m : RawData) (k : string) (r : rvalue) (h h' : heap) :
  MapIndex m k h = Ok r h' ->
  h' = h /\
  match m with
  | None => r = Invalid
  | Some l => exists entries, h !! l = Some (OMap entries)
                /\ r = match entries !! k with Some x => RIface x | None => Invalid end
  end.
Proof.
  destruct m as [l|]; cbn [MapIndex].
  - unfold bind. destruct (read_map l h) as [entries h1| |] eqn:Hr; try discriminate.
    apply read_map_Ok in Hr as [-> Hl]. unfold ret. intros [= <- <-]. eauto.
  - unfold ret. intros [= <- <-]. auto.
Qed.

(** Resolving a path without a modifier leaves the store as it is. *)
Lemma get_loop_None_heap (fields : list string) :
  forall (val r : rvalue) (h h' : heap),
    get_loop val fields None h = Ok r h' -> h' = h.
Proof.
  induction fields as [|f rest IH]; intros val r h h'; cbn [get_loop].
  - unfold ret. congruence.
  - unfold bind at 1. destruct (unwrap val h) as [val1 h1| |] eqn:Hu; try discriminate.
    apply unwrap_Ok in Hu as ->.
    unfold bind at 1. destruct (load val1 h) as [c h1| |] eqn:Hl; try discriminate.
    apply load_Ok in Hl as ->.
    destruct c; try (unfold ret; congruence).
    + (* a map *)
      unfold bind at 1. destruct (MapIndex m f h) as [kv h1| |] eqn:Hm; try discriminate.
      apply MapIndex_Ok in Hm as [-> Hm].
      destruct m as [l|]; [|subst kv; cbn [IsValid]; unfold ret; congruence].
      destruct Hm as (entries & Hl & ->).
      destruct (entries !! f) as [x|] eqn:Hx; cbn [IsValid]; [|unfold ret; congruence].
      cbn [callModifier]. unfold bind at 1. cbn [ret].
      unfold bind at 1. cbn [SetMapIndex load]. unfold bind at 1. cbn [ret].
      unfold bind at 1. unfold read_map at 1. rewrite Hl.
      rewrite (insert_id entries f x Hx), (write_map_same l entries h Hl).
      apply IH.
    + (* a slice *)
      destruct (ParseInt f) as [n|]; [|unfold ret; congruence].
      destruct ((n <? 0) || (n >? MaxInt32)); [unfold ret; congruence|].
      destruct (decide (s_len s <= Z.to_nat n)%nat); [unfold ret; congruence|].
      destruct (s_arr s) as [a|]; [|discriminate].
      cbn [callModifier]. unfold bind at 1. cbn [ret].
      unfold bind at 1. cbn [Set_ load]. unfold bind at 1.
      destruct (read_elem a (s_off s + Z.to_nat n) h) as [v h1| |] eqn:Hr; try discriminate.
      apply read_elem_Ok in Hr as [-> (xs & Ha & Hi)].
      rewrite (write_elem_same _ _ _ _ _ Ha Hi). apply IH.
Qed.

Lemma get_loop_Invalid (f : string) (md : option modifier_t) (h : heap) :
  get_loop Invalid [f] md h = Ok Invalid h.
Proof. reflexivity. Qed.

Lemma bind_assoc {A B C} (c : M A) (k : A -> M B) (g : B -> M C) (h : heap) :
  (let* y := (let* x := c in k x) in g y) h
  = (let* x := c in let* y := k x in g y) h.
Proof. unfold bind. destruct (c h); reflexivity. Qed.

Lemma bind_ext {A B} (c : M A) (k1 k2 : A -> M B) (h : heap) :
  (forall a h', k1 a h' = k2 a h') -> bind c k1 h = bind c k2 h.
Proof. intros H. unfold bind. destruct (c h); auto. Qed.

Lemma bind_ret_l {A B} (a : A) (k : A -> M B) (h : heap) :
  (let* x := ret a in k x) h = k a h.
Proof. reflexivity. Qed.

(** All fields but the last are resolved as without a modifier. *)
Lemma get_loop_snoc (init : list string) (fk : string) (md : option modifier_t) :
  forall (val : rvalue) (h : heap),
    get_loop val (init ++ [fk]) md h
    = (let* rp := get_loop val init None in get_loop rp [fk] md) h.
Proof.
  induction init as [|f init IH]; intros val h.
  - reflexivity.
  - cbn [app]. cbn [get_loop].
    assert (Hnil : is_nil (init ++ [fk]) = false) by now destruct init.
    rewrite Hnil.
    rewrite bind_assoc. apply bind_ext. intros val1 h1.
    rewrite bind_assoc. apply bind_ext. intros c h2.
    destruct c as [|b|n|n|fl|re im|str|m|t s]; try reflexivity.
    + rewrite bind_assoc. apply bind_ext. intros kv h3.
      destruct (IsValid kv) eqn:Hv; [|reflexivity].
      assert (Hc1 : callModifier false md kv = ret kv) by (destruct md; reflexivity).
      assert (Hc2 : callModifier (is_nil init) None kv = ret kv) by reflexivity.
      rewrite Hc1, Hc2. repeat (rewrite bind_assoc || rewrite bind_ret_l).
      apply bind_ext. intros u h4.
      rewrite Hv. apply IH.
    + destruct (ParseInt f) as [n|]; [|reflexivity].
      destruct ((n <? 0) || (n >? MaxInt32)); [reflexivity|].
      destruct (decide (s_len s <= Z.to_nat n)%nat); [reflexivity|].
      destruct (s_arr s) as [a|]; [|reflexivity].
      set (kv := RElem t a (s_off s + Z.to_nat n)).
      assert (Hc1 : callModifier false md kv = ret kv) by (destruct md; reflexivity).
      assert (Hc2 : callModifier (is_nil init) None kv = ret kv) by reflexivity.
      rewrite Hc1, Hc2. repeat (rewrite bind_assoc || rewrite bind_ret_l).
      apply bind_ext. intros u h4.
      apply IH.
Qed.

Lemma bind_Ok {A B} (c : M A) (k : A -> M B) (h h' : heap) (a : A) :
  c h = Ok a h' -> bind c k h = k a h'.
Proof. intros H. unfold bind. now rewrite H. Qed.

Lemma SetMapIndex_same (l : loc) (k : string) (x : value)
    (entries : gmap string value) (h : heap) :
  h !! l = Some (OMap entries) -> entries !! k = Some x ->
  forall v, load v h = Ok x h -> IsValid v = true ->
  SetMapIndex (Some l) k v h = Ok tt h.
Proof.
  intros Hl Hk v Hv Hval.
  assert (Hgo : (let* y := load v in
                 let* e := read_map l in write_map l (<[k := y]> e)) h = Ok tt h).
  { rewrite (bind_Ok _ _ _ _ _ Hv). unfold bind, read_map. rewrite Hl.
    rewrite (insert_id entries k x Hk). now apply write_map_same. }
  destruct v; [discriminate| | |]; exact Hgo.
Qed.

Lemma Set_same (t : gtype) (a : loc) (i : nat) (x : value) (xs : list value)
    (h : heap) :
  h !! a = Some (OArr xs) -> xs !! i = Some x ->
  forall v, load v h = Ok x h -> IsValid v = true ->
  Set_ (RElem t a i) v h = Ok tt h.
Proof.
  intros Ha Hi v Hv Hval.
  assert (Hgo : (let* y := load v in write_elem a i y) h = Ok tt h).
  { rewrite (bind_Ok _ _ _ _ _ Hv). now apply (write_elem_same a i x xs). }
  destruct v; [discriminate| | |]; exact Hgo.
Qed.

(** One step of the loop, with the modifier called on the value found. *)
Lemma get_loop_single (val r : rvalue) (fk : string) (h h' : heap) :
  get_loop val [fk] None h = Ok r h' -> IsValid r = true ->
  exists s, slot_ok s r h /\
    forall md, get_loop val [fk] (Some md) h
               = (let* v := md r in write_back s v ;; ret (slot_result s r v)) h.
Proof.
  cbn [get_loop]. intros H Hv.
  unfold bind at 1 in H. destruct (unwrap val h) as [val1 h1| |] eqn:Hu; try discriminate.
  pose proof (unwrap_Ok _ _ _ _ Hu) as ->.
  unfold bind at 1 in H. destruct (load val1 h) as [c h1| |] eqn:Hl; try discriminate.
  pose proof (load_Ok _ _ _ _ Hl) as ->.
  destruct c as [|b|n|n|fl|re im|str|m|t s];
    try (unfold ret in H; injection H as <- <-; discriminate).
  - unfold bind at 1 in H.
    destruct (MapIndex m fk h) as [kv h1| |] eqn:Hm; try discriminate.
    pose proof (MapIndex_Ok _ _ _ _ _ Hm) as [-> Hm'].
    destruct m as [l|]; [|subst kv; unfold ret in H; injection H as <- <-; discriminate].
    destruct Hm' as (entries & Hent & Hkv).
    destruct (entries !! fk) as [x|] eqn:Hx;
      [|subst kv; unfold ret in H; injection H as <- <-; discriminate].
    subst kv. cbn [IsValid callModifier is_nil] in H.
    rewrite bind_ret_l in H.
    rewrite (bind_Ok _ _ _ _ _
               (SetMapIndex_same l fk x entries h Hent Hx (RIface x) eq_refl eq_refl)) in H.
    cbn [get_loop] in H. unfold ret in H. injection H as <- <-.
    exists (SMap l fk). split; [exists entries, x; auto|].
    intros md. rewrite (bind_Ok _ _ _ _ _ Hu), (bind_Ok _ _ _ _ _ Hl).
    rewrite (bind_Ok _ _ _ _ _ Hm). cbn [IsValid callModifier is_nil].
    apply bind_ext. intros v h2. apply bind_ext. intros u h3.
    destruct v; reflexivity.
  - destruct (ParseInt fk) as [n|]; [|unfold ret in H; injection H as <- <-; discriminate].
    destruct ((n <? 0) || (n >? MaxInt32));
      [unfold ret in H; injection H as <- <-; discriminate|].
    cbv zeta in H.
    destruct (decide (s_len s <= Z.to_nat n)%nat) as [|Hlen] eqn:Hdec;
      [unfold ret in H; injection H as <- <-; discriminate|].
    destruct (s_arr s) as [a|] eqn:Harr; [|discriminate].
    cbn [callModifier is_nil] in H. rewrite bind_ret_l in H.
    unfold bind at 1 in H.
    destruct (Set_ (RElem t a (s_off s + Z.to_nat n)) (RElem t a (s_off s + Z.to_nat n)) h)
      as [u h1| |] eqn:Hs; try discriminate.
    cbn [Set_ load] in Hs. unfold bind in Hs.
    destruct (read_elem a (s_off s + Z.to_nat n) h) as [x h2| |] eqn:Hr; try discriminate.
    apply read_elem_Ok in Hr as [-> (xs & Ha & Hi)].
    rewrite (write_elem_same _ _ _ _ _ Ha Hi) in Hs. injection Hs as <- <-.
    cbn [get_loop] in H. unfold ret in H. injection H as <- <-.
    exists (SArr t a (s_off s + Z.to_nat n)). split; [exists xs, x; auto|].
    intros md. rewrite (bind_Ok _ _ _ _ _ Hu), (bind_Ok _ _ _ _ _ Hl).
    cbv zeta. rewrite Hdec, Harr. cbn [callModifier is_nil]. reflexivity.
Qed.

Lemma get_loop_single_Invalid (val : rvalue) (fk : string) (h h' : heap) :
  get_loop val [fk] None h = Ok Invalid h' ->
  forall md, get_loop val [fk] md h = Ok Invalid h.
Proof.
  cbn [get_loop]. intros H.
  unfold bind at 1 in H. destruct (unwrap val h) as [val1 h1| |] eqn:Hu; try discriminate.
  pose proof (unwrap_Ok _ _ _ _ Hu) as ->.
  unfold bind at 1 in H. destruct (load val1 h) as [c h1| |] eqn:Hl; try discriminate.
  pose proof (load_Ok _ _ _ _ Hl) as ->.
  intros md. rewrite (bind_Ok _ _ _ _ _ Hu), (bind_Ok _ _ _ _ _ Hl).
  destruct c as [|b|n|n|fl|re im|str|m|t s]; try reflexivity.
  - unfold bind at 1 in H.
    destruct (MapIndex m fk h) as [kv h1| |] eqn:Hm; try discriminate.
    pose proof (MapIndex_Ok _ _ _ _ _ Hm) as [-> Hm'].
    rewrite (bind_Ok _ _ _ _ _ Hm).
    destruct m as [l|]; [|subst kv; reflexivity].
    destruct Hm' as (entries & Hent & Hkv).
    destruct (entries !! fk) as [x|] eqn:Hx; [|subst kv; reflexivity].
    subst kv. cbn [IsValid callModifier is_nil] in H.
    rewrite bind_ret_l in H.
    rewrite (bind_Ok _ _ _ _ _
               (SetMapIndex_same l fk x entries h Hent Hx (RIface x) eq_refl eq_refl)) in H.
    discriminate.
  - destruct (ParseInt fk) as [n|]; [|reflexivity].
    destruct ((n <? 0) || (n >? MaxInt32)); [reflexivity|].
    cbv zeta in H |- *.
    destruct (decide (s_len s <= Z.to_nat n)%nat) as [|Hlen]; [reflexivity|].
    destruct (s_arr s) as [a|]; [|discriminate].
    cbn [callModifier is_nil] in H. rewrite bind_ret_l in H.
    unfold bind at 1 in H.
    destruct (Set_ (RElem t a (s_off s + Z.to_nat n)) (RElem t a (s_off s + Z.to_nat n)) h)
      as [u h1| |]; discriminate.
Qed.

Lemma get_loop_Invalid_any (fields : list string) (md : option modifier_t) (h : heap) :
  get_loop Invalid fields md h = Ok Invalid h.
Proof. destruct fields; reflexivity. Qed.

(** A path of at least one field: the modifier is called on the value the
    path resolves to, and its result is stored back. *)
Lemma get_loop_modifier (fields : list string) (val r : rvalue) (h h' : heap) :
  fields <> [] ->
  get_loop val fields None h = Ok r h' -> IsValid r = true ->
  exists s, slot_ok s r h /\
    forall md, get_loop val fields (Some md) h
               = (let* v := md r in write_back s v ;; ret (slot_result s r v)) h.
Proof.
  intros Hne H Hv. destruct (exists_last Hne) as (init & fk & ->).
  rewrite get_loop_snoc in H. unfold bind in H.
  destruct (get_loop val init None h) as [rp h1| |] eqn:Hi; try discriminate.
  pose proof (get_loop_None_heap _ _ _ _ _ Hi) as ->.
  destruct (get_loop_single rp r fk h h' H Hv) as (s & Hs & Hmd).
  exists s. split; [exact Hs|]. intros md.
  rewrite get_loop_snoc, (bind_Ok _ _ _ _ _ Hi). apply Hmd.
Qed.

Lemma get_loop_unresolved (fields : list string) (val : rvalue) (h h' : heap) :
  get_loop val fields None h = Ok Invalid h' ->
  forall md, get_loop val fields md h = Ok Invalid h' .
Proof.
  intros H md. pose proof (get_loop_None_heap _ _ _ _ _ H) as ->.
  destruct fields as [|f fields].
  - exact H.
  - assert (Hne : f :: fields <> []) by discriminate.
    destruct (exists_last Hne) as (init & fk & Heq). rewrite Heq in *.
    rewrite get_loop_snoc in H. unfold bind in H.
    destruct (get_loop val init None h) as [rp h1| |] eqn:Hi; try discriminate.
    pose proof (get_loop_None_heap _ _ _ _ _ Hi) as ->.
    rewrite get_loop_snoc, (bind_Ok _ _ _ _ _ Hi).
    eapply get_loop_single_Invalid. exact H.
Qed.

Lemma bind_ret_r {A} (c : M A) (h : heap) :
  (let* v := c in ret tt ;; ret v) h = c h.
Proof. unfold bind, ret. destruct (c h); reflexivity. Qed.

(** The first field of a path is looked up in the top-level map. *)
Lemma get_cons (d : RawData) (k : string) (fields : list string)
    (md : option modifier_t) (r : rvalue) (h h' : heap) :
  get d (k :: fields) md h = Ok r h' ->
  r = Invalid \/
  exists l entries x,
    d = Some l /\ h !! l = Some (OMap entries) /\ entries !! k = Some x
    /\ x <> VNil /\ MapIndex d k h = Ok (RIface x) h.
Proof.
  cbn [get]. intros H. unfold bind at 1 in H.
  destruct (MapIndex d k h) as [val h1| |] eqn:Hm; try discriminate.
  pose proof (MapIndex_Ok _ _ _ _ _ Hm) as [-> Hm'].
  destruct d as [l|]; [|subst val; unfold ret in H; left; congruence].
  destruct Hm' as (entries & Hent & Hval).
  destruct (entries !! k) as [x|] eqn:Hx; [|subst val; unfold ret in H; left; congruence].
  subst val. destruct (decide (x = VNil)) as [->|Hx'].
  - unfold ret in H. left. congruence.
  - right. exists l, entries, x. auto.
Qed.

Lemma get_None_heap (d : RawData) (fields : list string) (r : rvalue)
    (h h' : heap) :
  get d fields None h = Ok r h' -> h' = h.
Proof.
  destruct fields as [|k fields]; cbn [get].
  - unfold ret. congruence.
  - intros H. unfold bind at 1 in H.
    destruct (MapIndex d k h) as [val h1| |] eqn:Hm; try discriminate.
    pose proof (MapIndex_Ok _ _ _ _ _ Hm) as [-> _].
    destruct val as [|x|x|t a i]; try (unfold ret in H; congruence).
    + destruct x, fields;
        solve [unfold ret in H; congruence
              | exact (get_loop_None_heap _ _ _ _ _ H)].
    + destruct fields; [unfold ret in H; congruence|].
      exact (get_loop_None_heap _ _ _ _ _ H).
    + destruct fields; [unfold ret in H; congruence|].
      exact (get_loop_None_heap _ _ _ _ _ H).
Qed.

(** [get] with a modifier: the modifier is called on the value the path
    resolves to, and its result is stored back in the parent. *)
Lemma get_modifier (d : RawData) (fields : list string) (r : rvalue)
    (h h' : heap) :
  get d fields None h = Ok r h' -> IsValid r = true ->
  exists s, slot_ok s r h /\
    forall md, get d fields (Some md) h
               = (let* v := md r in write_back s v ;; ret (slot_result s r v)) h.
Proof.
  intros H Hv. destruct fields as [|k fields].
  - cbn [get] in H. unfold ret in H. injection H as <- <-.
    exists SRoot. split; [exists d; reflexivity|].
    intros md. cbn [get write_back slot_result]. now rewrite bind_ret_r.
  - destruct (get_cons _ _ _ _ _ _ _ H) as [->|(l & entries & x & -> & Hent & Hx & Hnil & Hm)];
      [discriminate|].
    cbn [get] in H. rewrite (bind_Ok _ _ _ _ _ Hm) in H.
    destruct fields as [|f rest].
    + assert (Hr : r = RIface x /\ h' = h).
      { destruct x; try contradiction; unfold ret in H; injection H as <- <-; auto. }
      destruct Hr as [-> ->].
      exists (SMap l k). split; [exists entries, x; auto|].
      intros md. cbn [get]. rewrite (bind_Ok _ _ _ _ _ Hm).
      transitivity ((let* v := md (RIface x) in
                     (if IsValid v then let* y := Interface v in map_assign (Some l) k y
                      else map_delete (Some l) k) ;; ret v) h).
      { destruct x; try contradiction; reflexivity. }
      apply bind_ext. intros v h2. destruct v; reflexivity.
    + assert (Hg : get_loop (RIface x) (f :: rest) None h = Ok r h').
      { destruct x; try contradiction; exact H. }
      destruct (get_loop_modifier (f :: rest) (RIface x) r h h' ltac:(discriminate) Hg Hv)
        as (s & Hs & Hmd).
      exists s. split; [exact Hs|]. intros md. cbn [get].
      rewrite (bind_Ok _ _ _ _ _ Hm). rewrite <- Hmd.
      destruct x; try contradiction; reflexivity.
Qed.

Lemma get_unresolved (d : RawData) (fields : list string) (h h' : heap) :
  get d fields None h = Ok Invalid h' ->
  forall md, get d fields md h = Ok Invalid h.
Proof.
  intros H md. pose proof (get_None_heap _ _ _ _ _ H) as ->.
  destruct fields as [|k fields]; [discriminate|].
  cbn [get] in H |- *. unfold bind at 1 in H. unfold bind at 1.
  destruct (MapIndex d k h) as [val h1| |] eqn:Hm; try discriminate.
  pose proof (MapIndex_Ok _ _ _ _ _ Hm) as [-> _].
  destruct val as [|x|x|t a i]; try reflexivity.
  - destruct x; try reflexivity;
      (destruct fields as [|fd rest]; [discriminate|];
       exact (get_loop_unresolved _ _ _ _ H md)).
  - destruct fields as [|f rest]; [discriminate|].
    exact (get_loop_unresolved _ _ _ _ H md).
  - destruct fields as [|f rest]; [discriminate|].
    exact (get_loop_unresolved _ _ _ _ H md).
Qed.

(** *** The store after entries of one map have been removed *)

Lemma heap_lookup_insert_ne (h : heap) (l a : loc) (o : object) :
  l <> a -> (<[l := o]> h) !! a = h !! a.
Proof. intros H. exact (list_lookup_insert_ne h l a o H). Qed.

Lemma heap_lookup_insert_eq (h : heap) (l : loc) (o o' : object) :
  h !! l = Some o' -> (<[l := o]> h) !! l = Some o.
Proof.
  intros H. apply (list_lookup_insert_eq h l o).
  exact (lookup_lt_Some h l o' H).
Qed.

Lemma heap_insert_insert_eq (h : heap) (l : loc) (o o' : object) :
  <[l := o]> (<[l := o']> h) = <[l := o]> h.
Proof. exact (list_insert_insert_eq h l o o'). Qed.

Lemma heap_insert_id (h : heap) (l : loc) (o : object) :
  h !! l = Some o -> <[l := o]> h = h.
Proof. exact (list_insert_id h l o). Qed.

Section after_delete.
Variables (h : heap) (l : loc) (m m' : gmap string value).
Hypothesis Hl : h !! l = Some (OMap m).
Hypothesis Hsub : forall k x, m' !! k = Some x -> m !! k = Some x.

Local Abbreviation h1 := (<[l := OMap m']> h).

Lemma lookup_arr_after (a : loc) (xs : list value) :
  h !! a = Some (OArr xs) -> h1 !! a = Some (OArr xs).
Proof.
  intros Ha. rewrite heap_lookup_insert_ne; [exact Ha|].
  intros ->. congruence.
Qed.

Lemma lookup_map_after (l0 : loc) (e : gmap string value) :
  h !! l0 = Some (OMap e) ->
  exists e1, h1 !! l0 = Some (OMap e1)
             /\ (forall k x, e1 !! k = Some x -> e !! k = Some x)
             /\ (l0 <> l -> e1 = e) /\ (l0 = l -> e1 = m').
Proof.
  intros He. destruct (decide (l0 = l)) as [->|Hne].
  - exists m'. split.
    + eapply heap_lookup_insert_eq. exact Hl.
    + assert (e = m) by congruence. subst e.
      split; [exact Hsub|]. split; [intros Hc; now elim Hc|reflexivity].
  - exists e. rewrite heap_lookup_insert_ne by auto.
    split; [exact He|]. split; [auto|]. split; [reflexivity|]. intros Hc. now elim Hne.
Qed.

Lemma read_elem_after (a : loc) (i : nat) (v : value) (h' : heap) :
  read_elem a i h = Ok v h' -> read_elem a i h1 = Ok v h1.
Proof.
  intros H. apply read_elem_Ok in H as [_ (xs & Ha & Hi)].
  unfold read_elem, bind, read_arr. rewrite (lookup_arr_after _ _ Ha), Hi.
  reflexivity.
Qed.

Lemma unwrap_after (val r : rvalue) (h' : heap) :
  unwrap val h = Ok r h' -> unwrap val h1 = Ok r h1.
Proof.
  destruct val as [|v|v|t a i]; cbn [unwrap].
  - unfold ret. congruence.
  - destruct v; unfold ret; congruence.
  - unfold ret. congruence.
  - destruct t; unfold ret; try congruence.
    unfold bind. destruct (read_elem a i h) as [v h2| |] eqn:Hr; try discriminate.
    rewrite (read_elem_after _ _ _ _ Hr). unfold ret. congruence.
Qed.

Lemma load_after (val : rvalue) (v : value) (h' : heap) :
  load val h = Ok v h' -> load val h1 = Ok v h1.
Proof.
  destruct val as [|x|x|t a i]; cbn [load]; unfold ret; try congruence.
  apply read_elem_after.
Qed.

Lemma get_loop_single_after (val r : rvalue) (fk : string) (h' : heap) :
  get_loop val [fk] None h = Ok r h' ->
  get_loop val [fk] None h1 = Ok r h1 \/ get_loop val [fk] None h1 = Ok Invalid h1.
Proof.
  cbn [get_loop]. intros H.
  unfold bind at 1 in H. destruct (unwrap val h) as [val1 h2| |] eqn:Hu; try discriminate.
  pose proof (unwrap_Ok _ _ _ _ Hu) as ->.
  unfold bind at 1 in H. destruct (load val1 h) as [c h2| |] eqn:Hld; try discriminate.
  pose proof (load_Ok _ _ _ _ Hld) as ->.
  rewrite (bind_Ok _ _ _ _ _ (unwrap_after _ _ _ Hu)).
  rewrite (bind_Ok _ _ _ _ _ (load_after _ _ _ Hld)).
  destruct c as [|b|n|n|fl|re im|str|m0|t s];
    try (unfold ret in H |- *; left; congruence).
  - unfold bind at 1 in H.
    destruct (MapIndex m0 fk h) as [kv h2| |] eqn:Hm; try discriminate.
    pose proof (MapIndex_Ok _ _ _ _ _ Hm) as [-> Hm'].
    destruct m0 as [l0|];
      [|subst kv; cbn [IsValid] in H; unfold ret in H; injection H as <- <-;
        left; reflexivity].
    destruct Hm' as (e & He & Hkv).
    destruct (lookup_map_after l0 e He) as (e1 & He1 & Hsub1 & _).
    assert (Hm1 : MapIndex (Some l0) fk h1
                  = Ok (match e1 !! fk with Some x => RIface x | None => Invalid end) h1).
    { cbn [MapIndex]. unfold bind, read_map. rewrite He1. reflexivity. }
    rewrite (bind_Ok _ _ _ _ _ Hm1).
    destruct (e1 !! fk) as [x|] eqn:Hx1; [|right; reflexivity].
    pose proof (Hsub1 _ _ Hx1) as Hx. rewrite Hx in Hkv. subst kv.
    cbn [IsValid callModifier is_nil] in H |- *.
    rewrite bind_ret_l in H. rewrite bind_ret_l.
    rewrite (bind_Ok _ _ _ _ _
               (SetMapIndex_same l0 fk x e h He Hx (RIface x) eq_refl eq_refl)) in H.
    rewrite (bind_Ok _ _ _ _ _
               (SetMapIndex_same l0 fk x e1 h1 He1 Hx1 (RIface x) eq_refl eq_refl)).
    cbn [get_loop IsValid] in H |- *. unfold ret in H |- *. left. congruence.
  - destruct (ParseInt fk) as [n|]; [|unfold ret in H |- *; left; congruence].
    destruct ((n <? 0) || (n >? MaxInt32)); [unfold ret in H |- *; left; congruence|].
    cbv zeta in H |- *.
    destruct (decide (s_len s <= Z.to_nat n)%nat) as [|Hlen];
      [unfold ret in H |- *; left; congruence|].
    destruct (s_arr s) as [a|]; [|discriminate].
    cbn [callModifier is_nil] in H |- *. rewrite bind_ret_l in H. rewrite bind_ret_l.
    unfold bind at 1 in H.
    destruct (Set_ (RElem t a (s_off s + Z.to_nat n)) (RElem t a (s_off s + Z.to_nat n)) h)
      as [u h2| |] eqn:Hs; try discriminate.
    cbn [Set_ load] in Hs. unfold bind in Hs.
    destruct (read_elem a (s_off s + Z.to_nat n) h) as [x h3| |] eqn:Hr; try discriminate.
    apply read_elem_Ok in Hr as [-> (xs & Ha & Hi)].
    rewrite (write_elem_same _ _ _ _ _ Ha Hi) in Hs. injection Hs as <- <-.
    assert (Hs1 : Set_ (RElem t a (s_off s + Z.to_nat n))
                       (RElem t a (s_off s + Z.to_nat n)) h1 = Ok tt h1).
    { apply (Set_same t a _ x xs); auto using lookup_arr_after.
      cbn [load]. unfold read_elem, bind, read_arr.
      rewrite (lookup_arr_after _ _ Ha), Hi. reflexivity. }
    rewrite (bind_Ok _ _ _ _ _ Hs1).
    cbn [get_loop] in H |- *. unfold ret in H |- *. left. congruence.
Qed.

Lemma get_loop_after (fields : list string) :
  forall (val r : rvalue) (h' : heap),
    get_loop val fields None h = Ok r h' ->
    get_loop val fields None h1 = Ok r h1
    \/ get_loop val fields None h1 = Ok Invalid h1.
Proof.
  induction fields as [|fk init IH] using rev_ind; intros val r h' H.
  - cbn [get_loop] in H |- *. unfold ret in H |- *. left. congruence.
  - rewrite get_loop_snoc in H. unfold bind in H.
    destruct (get_loop val init None h) as [rp h2| |] eqn:Hi; try discriminate.
    pose proof (get_loop_None_heap _ _ _ _ _ Hi) as ->.
    rewrite !get_loop_snoc.
    destruct (IH _ _ _ Hi) as [Hi1|Hi1]; rewrite !(bind_Ok _ _ _ _ _ Hi1).
    + eapply get_loop_single_after. exact H.
    + right. reflexivity.
Qed.

Lemma get_after (d : RawData) (fields : list string) (r : rvalue) (h' : heap) :
  get d fields None h = Ok r h' ->
  get d fields None h1 = Ok r h1 \/ get d fields None h1 = Ok Invalid h1.
Proof.
  intros H. destruct fields as [|k fields].
  - cbn [get] in H |- *. unfold ret in H |- *. left. congruence.
  - cbn [get] in H |- *. unfold bind at 1 in H.
    destruct (MapIndex d k h) as [val h2| |] eqn:Hm; try discriminate.
    pose proof (MapIndex_Ok _ _ _ _ _ Hm) as [-> Hm'].
    destruct d as [l0|];
      [|subst val; unfold ret in H; injection H as <- <-; left; reflexivity].
    destruct Hm' as (e & He & Hval).
    destruct (lookup_map_after l0 e He) as (e1 & He1 & Hsub1 & _).
    assert (Hm1 : MapIndex (Some l0) k h1
                  = Ok (match e1 !! k with Some x => RIface x | None => Invalid end) h1).
    { cbn [MapIndex]. unfold bind, read_map. rewrite He1. reflexivity. }
    rewrite (bind_Ok _ _ _ _ _ Hm1).
    destruct (e1 !! k) as [x|] eqn:Hx1; [|right; reflexivity].
    pose proof (Hsub1 _ _ Hx1) as Hx. rewrite Hx in Hval. subst val.
    destruct x, fields;
      solve [unfold ret in H |- *; left; congruence
            | exact (get_loop_after _ _ _ _ H)].
Qed.
End after_delete.

(** A valid value that is not nil stays valid when interfaces are
    unwrapped, and holds the same. *)
Lemma unwrap_valid (r : rvalue) (c : value) (h h' : heap) :
  IsValid r = true -> load r h = Ok c h' -> c <> VNil ->
  exists v1, unwrap r h = Ok v1 h /\ IsValid v1 = true /\ load v1 h = Ok c h.
Proof.
  intros Hv Hld Hc. pose proof (load_Ok _ _ _ _ Hld) as ->.
  destruct r as [|v|v|t a i]; [discriminate| | |].
  - cbn [load] in Hld. unfold ret in Hld. injection Hld as ->.
    exists (RVal c). destruct c; try contradiction; auto.
  - exists (RVal v). auto.
  - cbn [load] in Hld.
    destruct (decide (t = tInterface)) as [->|Ht].
    + exists (RVal c). cbn [unwrap]. rewrite (bind_Ok _ _ _ _ _ Hld).
      destruct c; try contradiction; auto.
    + exists (RElem t a i). destruct t; try contradiction; auto.
Qed.

(** The closure of [delete] on a value that holds a map. *)
Lemma delete_modifier_map (target : string) (r : rvalue) (h : heap)
    (l : loc) (m : gmap string value) :
  target <> EmptyString -> IsValid r = true ->
  load r h = Ok (VMap (Some l)) h -> h !! l = Some (OMap m) ->
  exists v1, IsValid v1 = true /\ load v1 h = Ok (VMap (Some l)) h
    /\ delete_modifier target r h = Ok v1 (<[l := OMap (delete target m)]> h).
Proof.
  intros Ht Hv Hld Hl.
  destruct (unwrap_valid r _ h h Hv Hld ltac:(discriminate)) as (v1 & Hu & Hv1 & Hld1).
  exists v1. split; [exact Hv1|]. split; [exact Hld1|].
  destruct target as [|c0 t0]; [contradiction|]. cbn [delete_modifier].
  rewrite (bind_Ok _ _ _ _ _ Hu), (bind_Ok _ _ _ _ _ Hld1).
  cbn [SetMapIndex]. unfold bind, read_map, write_map.
  rewrite Hl. cbv beta iota. rewrite Hl. reflexivity.
Qed.

Lemma delete_modifier_no_index (target : string) (r : rvalue) (h : heap)
    (t : gtype) (s : slice) :
  target <> EmptyString -> IsValid r = true ->
  load r h = Ok (VSlice t s) h -> no_index target s = true ->
  exists v1, IsValid v1 = true /\ load v1 h = Ok (VSlice t s) h
    /\ delete_modifier target r h = Ok v1 h.
Proof.
  intros Ht Hv Hld Hno.
  destruct (unwrap_valid r _ h h Hv Hld ltac:(discriminate)) as (v1 & Hu & Hv1 & Hld1).
  exists v1. split; [exact Hv1|]. split; [exact Hld1|].
  destruct target as [|c0 t0]; [contradiction|]. cbn [delete_modifier].
  rewrite (bind_Ok _ _ _ _ _ Hu), (bind_Ok _ _ _ _ _ Hld1).
  unfold no_index in Hno. cbv zeta.
  destruct (ParseInt (String c0 t0)) as [idx|]; [|reflexivity].
  rewrite Hno. reflexivity.
Qed.

(** Storing back what the parent holds changes nothing. *)
Lemma write_back_noop (s : slot) (r v1 : rvalue) (c : value) (h : heap) :
  slot_ok s r h -> load r h = Ok c h -> load v1 h = Ok c h ->
  IsValid v1 = true -> write_back s v1 h = Ok tt h.
Proof.
  intros Hs Hr Hv1 Hval. destruct s as [|l0 k|t a i]; cbn [slot_ok write_back] in *.
  - reflexivity.
  - destruct Hs as (e & x & -> & He & Hx).
    cbn [load] in Hr. unfold ret in Hr. injection Hr as ->.
    now apply (SetMapIndex_same l0 k c e).
  - destruct Hs as (xs & x & -> & Ha & Hi).
    cbn [load] in Hr. apply read_elem_Ok in Hr as [_ (xs' & Ha' & Hi')].
    assert (xs' = xs) by congruence. subst xs'.
    now apply (Set_same t a i c xs).
Qed.

Lemma slot_ok_after (s : slot) (r : rvalue) (h : heap) (l : loc)
    (m : gmap string value) (target : string) :
  h !! l = Some (OMap m) ->
  m !! target <> Some (VMap (Some l)) ->
  slot_ok s r h -> load r h = Ok (VMap (Some l)) h ->
  slot_ok s r (<[l := OMap (delete target m)]> h).
Proof.
  intros Hl Hne Hs Hr.
  assert (Hsub : forall k x, delete target m !! k = Some x -> m !! k = Some x).
  { intros k x Hk. apply lookup_delete_Some in Hk. tauto. }
  destruct s as [|l0 k|t a i]; cbn [slot_ok] in *.
  - exact Hs.
  - destruct Hs as (e & x & -> & He & Hx).
    cbn [load] in Hr. unfold ret in Hr. injection Hr as ->.
    destruct (lookup_map_after h l m (delete target m) Hl Hsub l0 e He)
      as (e1 & He1 & _ & Hdiff & Hsame).
    exists e1, (VMap (Some l)). split; [reflexivity|]. split; [exact He1|].
    destruct (decide (l0 = l)) as [->|Hl0].
    + rewrite (Hsame eq_refl). assert (e = m) by congruence. subst e.
      rewrite lookup_delete_ne; [exact Hx|]. intros ->. contradiction.
    + now rewrite (Hdiff Hl0).
  - destruct Hs as (xs & x & -> & Ha & Hi).
    exists xs, x. split; [reflexivity|]. split; [|exact Hi].
    now apply (lookup_arr_after h l m).
Qed.

(** Deleting a key of the map a path resolves to. *)
Lemma delete_resolved (d : RawData) (fields : list string) (target : string)
    (r : rvalue) (h h' : heap) (l : loc) (m : gmap string value) :
  target <> EmptyString ->
  get d fields None h = Ok r h' -> IsValid r = true ->
  load r h = Ok (VMap (Some l)) h ->
  h !! l = Some (OMap m) ->
  m !! target <> Some (VMap (Some l)) ->
  (get d fields (Some (delete_modifier target)) ;; ret tt) h
  = Ok tt (<[l := OMap (delete target m)]> h).
Proof.
  intros Ht Hg Hv Hld Hl Hne.
  assert (Hsub : forall k x, delete target m !! k = Some x -> m !! k = Some x).
  { intros k x Hk. apply lookup_delete_Some in Hk. tauto. }
  destruct (get_modifier _ _ _ _ _ Hg Hv) as (s & Hs & Hmd).
  destruct (delete_modifier_map target r h l m Ht Hv Hld Hl) as (v1 & Hv1 & Hld1 & Hdm).
  unfold bind at 1. rewrite Hmd. rewrite (bind_Ok _ _ _ _ _ Hdm).
  rewrite (bind_Ok _ _ _ _ _
             (write_back_noop s r v1 _ _
                (slot_ok_after _ _ _ _ _ _ Hl Hne Hs Hld)
                (load_after h l m _ Hl _ _ _ Hld)
                (load_after h l m _ Hl _ _ _ Hld1) Hv1)).
  reflexivity.
Qed.

Lemma delete_no_index (d : RawData) (fields : list string) (target : string)
    (r : rvalue) (h h' : heap) (t : gtype) (s : slice) :
  target <> EmptyString ->
  get d fields None h = Ok r h' -> IsValid r = true ->
  load r h = Ok (VSlice t s) h ->
  no_index target s = true ->
  (get d fields (Some (delete_modifier target)) ;; ret tt) h = Ok tt h.
Proof.
  intros Ht Hg Hv Hld Hno.
  destruct (get_modifier _ _ _ _ _ Hg Hv) as (sl & Hs & Hmd).
  destruct (delete_modifier_no_index target r h t s Ht Hv Hld Hno)
    as (v1 & Hv1 & Hld1 & Hdm).
  unfold bind at 1. rewrite Hmd. rewrite (bind_Ok _ _ _ _ _ Hdm).
  rewrite (bind_Ok _ _ _ _ _ (write_back_noop sl r v1 _ _ Hs Hld Hld1 Hv1)).
  reflexivity.
Qed.

(** What [Get] returns is held by the value [get] resolves the path to. *)
Lemma Get_resolved (d : RawData) (fields : list string) (c : value)
    (h h' : heap) :
  Get d fields h = Ok c h' -> c <> VNil ->
  exists r, get d fields None h = Ok r h /\ IsValid r = true
            /\ load r h = Ok c h.
Proof.
  intros H Hc. destruct fields as [|k fields].
  - cbn [Get] in H. unfold ret in H. injection H as <- <-.
    exists (RVal (VMap d)). auto.
  - unfold Get in H. unfold bind in H.
    destruct (get d (k :: fields) None h) as [r h2| |] eqn:Hg; try discriminate.
    pose proof (get_None_heap _ _ _ _ _ Hg) as ->.
    exists r. split; [reflexivity|].
    destruct r as [|v|v|t a i]; cbn [IsValid] in H.
    + unfold ret in H. congruence.
    + pose proof (load_Ok (RIface v) _ _ _ H) as ->. auto.
    + pose proof (load_Ok (RVal v) _ _ _ H) as ->. auto.
    + pose proof (load_Ok (RElem t a i) _ _ _ H) as ->. auto.
Qed.

(** C7, amended: let a path's parent (all fields but the last) resolve to
    a value [parent], and let the last field [target] be non-empty.
    - If [parent] is a map (that does not hold itself under [target]),
      deleting the path removes the key [target] from that map and changes
      nothing else; deleting it a second time changes nothing more; and if
      the key is absent the first deletion already changes nothing.
    - If [parent] is a sequence and [target] is not a number or not an
      index of it, deleting the path changes nothing.
    In neither case does the deletion panic. *)
Theorem C7_delete_key_or_missing_index (d : RawData) (query : string)
    (h h' : heap) (parent : value) :
  let fields := removelast (split_dot query) in
  let target := List.last (split_dot query) EmptyString in
  target <> EmptyString ->
  Get d fields h = Ok parent h' ->
  (forall (l : loc) (m : gmap string value),
      parent = VMap (Some l) -> h !! l = Some (OMap m) ->
      m !! target <> Some (VMap (Some l)) ->
      delete_ d query h = Ok tt (<[l := OMap (delete target m)]> h)
      /\ delete_ d query (<[l := OMap (delete target m)]> h)
         = Ok tt (<[l := OMap (delete target m)]> h)
      /\ (m !! target = None -> <[l := OMap (delete target m)]> h = h))
  /\ (forall (t : gtype) (s : slice),
        parent = VSlice t s -> no_index target s = true ->
        delete_ d query h = Ok tt h).
Proof.
  intros fields target Ht HG. split.
  - intros l m -> Hl Hne.
    destruct (Get_resolved _ _ _ _ _ HG ltac:(discriminate)) as (r & Hg & Hv & Hld).
    assert (Hsub : forall k x, delete target m !! k = Some x -> m !! k = Some x).
    { intros k x Hk. apply lookup_delete_Some in Hk. tauto. }
    split; [|split].
    + exact (delete_resolved d fields target r h h l m Ht Hg Hv Hld Hl Hne).
    + destruct (get_after h l m (delete target m) Hl Hsub d fields r h Hg) as [Hg1|Hg1].
      * pose proof (delete_resolved d fields target r _ _ l (delete target m) Ht Hg1 Hv
                      (load_after h l m _ Hl _ _ _ Hld)
                      (heap_lookup_insert_eq _ _ _ _ Hl)) as Hd.
        rewrite delete_delete_eq, heap_insert_insert_eq in Hd.
        apply Hd. rewrite lookup_delete_eq. discriminate.
      * unfold delete_. fold fields. fold target. unfold bind.
        now rewrite (get_unresolved _ _ _ _ Hg1).
    + intros Hnone. rewrite delete_id by exact Hnone.
      now apply heap_insert_id.
  - intros t s -> Hno.
    destruct (Get_resolved _ _ _ _ _ HG ltac:(discriminate)) as (r & Hg & Hv & Hld).
    exact (delete_no_index d fields target r h h t s Ht Hg Hv Hld Hno).
Qed.

Lemma C7_delete_key_or_missing_index_witness :
  delete_ (Some 0%nat) "a.x" nested_store
  = Ok tt (<[1%nat := OMap (delete "x" {[ "x" := VInt64 1; "y" := VInt64 2 ]})]>
             nested_store)
  /\ delete_ (Some 0%nat) "a.x"
       (<[1%nat := OMap (delete "x" {[ "x" := VInt64 1; "y" := VInt64 2 ]})]>
          nested_store)
     = Ok tt (<[1%nat := OMap (delete "x" {[ "x" := VInt64 1; "y" := VInt64 2 ]})]>
                nested_store).
Proof.
  assert (Ht : List.last (split_dot "a.x") EmptyString <> EmptyString)
    by (vm_compute; discriminate).
  assert (HG : Get (Some 0%nat) (removelast (split_dot "a.x")) nested_store
               = Ok (VMap (Some 1%nat)) nested_store)
    by (vm_compute; reflexivity).
  destruct (C7_delete_key_or_missing_index (Some 0%nat) "a.x" nested_store
              nested_store (VMap (Some 1%nat)) Ht HG) as [Hmap _].
  destruct (Hmap 1%nat {[ "x" := VInt64 1; "y" := VInt64 2 ]} eq_refl eq_refl)
    as (H1 & H2 & _).
  - vm_compute. discriminate.
  - split; [exact H1|exact H2].
Defined.

(** ** The text codec: numbers *)

(** C8, counterexample: the JSON number [1.00000000000000000001] is not
    integral, and it becomes the Int64 [1], not a Float64: the decoder
    looks at the nearest float64, which is [1]. *)
Lemma C8_counterexample :
  jn_integral (JNumber false 100000000000000000001 (-20)) = false
  /\ parseJSONValue (RNumber (JNumber false 100000000000000000001 (-20)))
     = Done (TInt64 1, Some tInt64)
  /\ Parse (js "<json>{'a':1.00000000000000000001}")
     = Parsed (TMap [("a", TInt64 1)]).
Proof. repeat split; vm_compute; reflexivity. Qed.

(** At the upper edge of the range the guard compares with the float
    nearest to [math.MaxInt64], which is [2^63]: the integer [2^63]
    passes it, although it is outside the range, and so does
    [math.MaxInt64] itself, which reads as the float [2^63]. The
    conversion [int64(f)] of that float is implementation-dependent. *)
Example number_at_upper_edge :
  MaxInt64_f = S754_finite false (2 ^ 52) 11
  /\ Result_Float (JNumber false (2 ^ 63) 0) = S754_finite false (2 ^ 52) 11
  /\ Result_Float (JNumber false (2 ^ 63 - 1) 0) = S754_finite false (2 ^ 52) 11
  /\ fits_int64 (Result_Float (JNumber false (2 ^ 63) 0)) = true
  /\ (exists n, parseJSONValue (RNumber (JNumber false (2 ^ 63) 0))
                = Done (TInt64 n, Some tInt64)).
Proof.
  split; [vm_compute; reflexivity|]. split; [vm_compute; reflexivity|].
  split; [vm_compute; reflexivity|]. split; [vm_compute; reflexivity|].
  eexists. vm_compute. reflexivity.
Qed.

Example number_at_lower_edge :
  parseJSONValue (RNumber (JNumber true (2 ^ 63) 0))
  = Done (TInt64 (- 2 ^ 63), Some tInt64).
Proof. vm_compute. reflexivity. Qed.

Example numbers_that_stay_floats :
  parseJSONValue (RNumber (JNumber false 25 (-1)))
  = Done (TFloat64 (S754_finite false 5629499534213120 (-51)), Some tFloat64)
  /\ parseJSONValue (RNumber (JNumber false 1 19))
     = Done (TFloat64 (S754_finite false 4882812500000000 11), Some tFloat64)
  /\ parseJSONValue (RNumber (JNumber false 1 400))
     = Done (TFloat64 (S754_infinity false), Some tFloat64).
Proof. repeat split; vm_compute; reflexivity. Qed.

(** ** The text codec: round trip *)


(** Further values that do not come back: a Float64 that is an integer, a
    Complex128 (the encoder fails and only the marker is written), an
    empty sequence of a concrete type, a sequence of [interface{}] whose
    elements have one type, an Int64 beyond [2^53], a nil map inside, and
    the empty map that [Clone] returns for the empty [Data]. *)
Example roundtrip_integral_float :
  Parse (String_ (TMap [("a", TFloat64 (float64_of_Z 1))]))
  = Parsed (TMap [("a", TInt64 1)]).
Proof. vm_compute. reflexivity. Qed.

Example roundtrip_complex :
  String_ (TMap [("a", TComplex128 (S754_zero false) (S754_zero false))]) = "<json>"
  /\ Parse (String_ (TMap [("a", TComplex128 (S754_zero false) (S754_zero false))]))
     = ParseError ErrInvalidJSON.
Proof. split; vm_compute; reflexivity. Qed.

Example roundtrip_empty_sequence :
  Parse (String_ (TMap [("a", TSlice tInt64 [])]))
  = Parsed (TMap [("a", TSlice tInterface [])]).
Proof. vm_compute. reflexivity. Qed.

Example roundtrip_uniform_interface_sequence :
  Parse (String_ (TMap [("a", TSlice tInterface [TInt64 1; TInt64 2])]))
  = Parsed (TMap [("a", ints [1; 2])]).
Proof. vm_compute. reflexivity. Qed.

Example roundtrip_large_int :
  Parse (String_ (TMap [("a", TInt64 (2 ^ 53 + 1))]))
  = Parsed (TMap [("a", TInt64 (2 ^ 53))]).
Proof. vm_compute. reflexivity. Qed.

Example roundtrip_nil_map_inside :
  Parse (String_ (TMap [("a", TNilMap)])) = Parsed (TMap [("a", TNil)]).
Proof. vm_compute. reflexivity. Qed.

Example roundtrip_null_in_sequence :
  Parse (String_ (TMap [("a", TSlice tInterface [TNil])]))
  = ParsePanic "reflect: call of reflect.Value.Set on zero Value".
Proof. vm_compute. reflexivity. Qed.

Example roundtrip_cloned_empty :
  String_ (TMap []) = "<json>{}" /\ Parse (String_ (TMap [])) = Parsed TNilMap.
Proof. split; vm_compute; reflexivity. Qed.

(** *** Integers and the guard of [parseJSONValue] *)

Lemma iter_xO_value (p k : positive) : Z.pos (Pos.iter xO p k) = Z.pos p * 2 ^ Z.pos k.
Proof.
  induction k as [|k IH] using Pos.peano_ind.
  - simpl. lia.
  - rewrite Pos.iter_succ, Pos2Z.inj_xO, IH, Pos2Z.inj_succ, Z.pow_succ_r by lia. lia.
Qed.

Lemma digits2_iter_xO (p k : positive) :
  digits2_pos (Pos.iter xO p k) = (digits2_pos p + k)%positive.
Proof.
  induction k as [|k IH] using Pos.peano_ind.
  - simpl. lia.
  - rewrite Pos.iter_succ. simpl. rewrite IH. lia.
Qed.

Lemma digits2_size (p : positive) : digits2_pos p = Pos.size p.
Proof. induction p; simpl; congruence. Qed.

Lemma digits2_bounds (p : positive) :
  2 ^ (Z.pos (digits2_pos p) - 1) <= Z.pos p < 2 ^ Z.pos (digits2_pos p).
Proof.
  rewrite digits2_size. split.
  - pose proof (Pos.size_le p) as H.
    assert (Z.pos (2 ^ Pos.size p) <= Z.pos p~0) by (apply Pos2Z.pos_le_pos; exact H).
    rewrite Pos2Z.inj_pow in H0. change (Z.pos p~0) with (2 * Z.pos p) in H0.
    replace (Z.pos (Pos.size p)) with (Z.succ (Z.pos (Pos.size p) - 1)) in H0 by lia.
    rewrite Z.pow_succ_r in H0 by lia. lia.
  - pose proof (Pos.size_gt p) as H.
    apply Pos2Z.pos_lt_pos in H. now rewrite Pos2Z.inj_pow in H.
Qed.

Lemma binary_round_aux_canonical (s : bool) (m : positive) (e : Z) :
  Z.pos (digits2_pos m) = 53 -> -1074 <= e <= 971 ->
  binary_round_aux prec64 emax64 s (Z.pos m) e loc_Exact = S754_finite s m e.
Proof.
  intros Hd He. unfold binary_round_aux, shr_fexp, fexp, emin, prec64, emax64.
  cbn [Zdigits2 shr_record_of_loc]. rewrite Hd.
  replace (Z.max (53 + e - 53) (3 - 1024 - 53) - e) with 0 by lia.
  cbn [shr shr_m loc_of_shr_record round_nearest_even Zdigits2].
  rewrite Hd.
  replace (Z.max (53 + e - 53) (3 - 1024 - 53) - e) with 0 by lia.
  cbn [shr shr_m].
  replace (e <=? 1024 - 53) with true by (symmetry; apply Z.leb_le; lia).
  reflexivity.
Qed.

Lemma MinInt64_f_eq : MinInt64_f = S754_finite true (2 ^ 52) 11.
Proof. vm_compute. reflexivity. Qed.
Lemma MaxInt64_f_eq : MaxInt64_f = S754_finite false (2 ^ 52) 11.
Proof. vm_compute. reflexivity. Qed.

(** Below [2^53] the conversion of an integer to [float64] is exact. *)
Lemma binary_round_small (s : bool) (p : positive) :
  Z.pos p < 2 ^ 53 ->
  exists (m : positive) (e : Z),
    binary_round prec64 emax64 s p 0 = S754_finite s m e
    /\ -52 <= e <= 0 /\ Z.pos m = Z.pos p * 2 ^ (- e).
Proof.
  intros Hp. pose proof (digits2_bounds p) as Hb.
  set (d := Z.pos (digits2_pos p)) in *.
  assert (Hd : 1 <= d <= 53).
  { split; [unfold d; lia|].
    destruct (Z_le_gt_dec d 53) as [H|H]; [exact H|exfalso].
    assert (2 ^ 53 <= 2 ^ (d - 1)) by (apply Z.pow_le_mono_r; lia). lia. }
  unfold binary_round, shl_align, fexp, emin, prec64, emax64. fold d.
  replace (Z.max (d + 0 - 53) (3 - 1024 - 53) - 0) with (d - 53) by lia.
  destruct (d - 53) as [|q|q] eqn:Hq; [|lia|].
  - exists p, 0. split; [|split; [lia|cbn; lia]].
    replace (Z.max (d + 0 - 53) (3 - 1024 - 53)) with 0 by lia.
    apply binary_round_aux_canonical; [fold d; lia|lia].
  - exists (Pos.iter xO p q), (d - 53). split; [|split; [lia|]].
    + replace (Z.max (d + 0 - 53) (3 - 1024 - 53)) with (d - 53) by lia.
      apply binary_round_aux_canonical; [|lia].
      rewrite digits2_iter_xO. rewrite Pos2Z.inj_add. fold d. lia.
    + rewrite iter_xO_value. f_equal. f_equal. lia.
Qed.

Lemma SFcompare_finite_refl (s : bool) (m : positive) (e : Z) :
  SFcompare (S754_finite s m e) (S754_finite s m e) = Some Eq.
Proof.
  unfold SFcompare. rewrite Z.compare_refl, Pos.compare_cont_refl.
  now destruct s.
Qed.

Lemma fits_int64_small (s : bool) (p : positive) :
  Z.pos p < 2 ^ 53 ->
  let f := binary_round prec64 emax64 s p 0 in
  fits_int64 f = true
  /\ int64_of_float64 f = (if s then - Z.pos p else Z.pos p).
Proof.
  intros Hp f. unfold f.
  destruct (binary_round_small s p Hp) as (m & e & Hf & He & Hm).
  assert (Hdiv : Z.pos m / 2 ^ (- e) = Z.pos p).
  { rewrite Hm. apply Z.div_mul. apply Z.pow_nonzero; lia. }
  assert (Hmod : Z.pos m mod 2 ^ (- e) = 0).
  { rewrite Hm. apply Z.mod_mul. apply Z.pow_nonzero; lia. }
  split.
  - rewrite Hf. unfold fits_int64. rewrite MinInt64_f_eq, MaxInt64_f_eq.
    assert (H1 : f64_leb (S754_finite true (2 ^ 52) 11) (S754_finite s m e) = true).
    { unfold f64_leb, SFleb, SFcompare. destruct s; [|reflexivity].
      now rewrite (proj2 (Z.compare_gt_iff 11 e)) by lia. }
    assert (H2 : f64_leb (S754_finite s m e) (S754_finite false (2 ^ 52) 11) = true).
    { unfold f64_leb, SFleb, SFcompare. destruct s; [reflexivity|].
      now rewrite (proj2 (Z.compare_lt_iff e 11)) by lia. }
    assert (H3 : math_Round (S754_finite s m e) = S754_finite s m e).
    { unfold math_Round. destruct (0 <=? e) eqn:H0; [reflexivity|].
      apply Z.leb_gt in H0. rewrite Hdiv, Hmod.
      assert (Hpow : 0 < 2 ^ (- e)) by (apply Z.pow_pos_nonneg; lia).
      replace (2 ^ (- e) <=? 2 * 0) with false by (symmetry; apply Z.leb_gt; lia).
      rewrite <- Hf. now destruct s. }
    rewrite H1, H2, H3. unfold f64_eqb, SFeqb.
    now rewrite SFcompare_finite_refl.
  - rewrite Hf. unfold int64_of_float64, float64_trunc.
    assert (Ht : (if 0 <=? e then Z.pos m * 2 ^ e else Z.pos m / 2 ^ (- e)) = Z.pos p).
    { destruct (0 <=? e) eqn:H0; [|exact Hdiv].
      apply Z.leb_le in H0. assert (e = 0) by lia. subst e.
      rewrite Hm. cbn. lia. }
    rewrite Ht. unfold MinInt64, MaxInt64.
    assert (H63 : 2 ^ 53 < 2 ^ 63) by reflexivity.
    destruct s.
    + replace ((- 2 ^ 63 <=? - Z.pos p) && (- Z.pos p <=? 2 ^ 63 - 1)) with true;
        [reflexivity|].
      symmetry. apply andb_true_iff. split; apply Z.leb_le; lia.
    + replace ((- 2 ^ 63 <=? Z.pos p) && (Z.pos p <=? 2 ^ 63 - 1)) with true;
        [reflexivity|].
      symmetry. apply andb_true_iff. split; apply Z.leb_le; lia.
Qed.

Lemma integer_literal (neg : bool) (m e : Z) :
  0 <= m -> 0 <= e -> m * 10 ^ e <= 2 ^ 53 ->
  parseJSONValue (RNumber (JNumber neg m e)) =
    Done (TInt64 (if neg then - (m * 10 ^ e) else m * 10 ^ e), Some tInt64).
Proof.
  intros Hm He Hle. cbn [parseJSONValue]. unfold Result_Float, ParseFloat.
  cbn [jn_mant jn_exp10 jn_neg].
  destruct (m =? 0) eqn:Hm0.
  - apply Z.eqb_eq in Hm0. subst m. rewrite Z.mul_0_l.
    destruct neg; vm_compute; reflexivity.
  - apply Z.eqb_neq in Hm0.
    replace (0 <=? e) with true by (symmetry; apply Z.leb_le; lia).
    assert (Hpos : 0 < m * 10 ^ e).
    { apply Z.mul_pos_pos; [lia|]. apply Z.pow_pos_nonneg; lia. }
    destruct (m * 10 ^ e) as [|p|p] eqn:Ha; try lia.
    destruct (Z.eq_dec (Z.pos p) (2 ^ 53)) as [Heq|Hne].
    + injection Heq as ->. destruct neg; vm_compute; reflexivity.
    + assert (Hp : Z.pos p < 2 ^ 53) by lia.
      destruct (fits_int64_small neg p Hp) as [Hfit Hval].
      assert (Hn : binary_normalize prec64 emax64
                     (if neg then - Z.pos p else Z.pos p) 0 neg
                   = binary_round prec64 emax64 neg p 0) by now destruct neg.
      rewrite Hn, Hfit, Hval. reflexivity.
Qed.

Lemma iter_pos_nat {A} (f : A -> A) (k : positive) (x : A) :
  SpecFloat.iter_pos f k x = Nat.iter (Pos.to_nat k) f x.
Proof.
  revert x. induction k as [k IH|k IH|]; intros x; cbn [SpecFloat.iter_pos].
  - rewrite !IH, Pos2Nat.inj_xI.
    replace (S (2 * Pos.to_nat k)) with (Pos.to_nat k + (Pos.to_nat k + 1))%nat by lia.
    rewrite !Nat.iter_add. reflexivity.
  - rewrite !IH, Pos2Nat.inj_xO.
    replace (2 * Pos.to_nat k)%nat with (Pos.to_nat k + Pos.to_nat k)%nat by lia.
    rewrite Nat.iter_add. reflexivity.
  - reflexivity.
Qed.

Lemma shr_1_m (mrs : shr_record) :
  0 <= shr_m mrs -> shr_m (shr_1 mrs) = shr_m mrs / 2.
Proof.
  destruct mrs as [m r s]. cbn [shr_m]. intros Hm.
  rewrite <- Z.div2_div.
  destruct m as [|[p|p|]|p]; try lia; reflexivity.
Qed.

Lemma iter_shr_1_m (n : nat) (mrs : shr_record) :
  0 <= shr_m mrs ->
  shr_m (Nat.iter n shr_1 mrs) = shr_m mrs / 2 ^ Z.of_nat n.
Proof.
  intros Hm. induction n as [|n IH].
  - cbn. now rewrite Z.div_1_r.
  - rewrite Nat.iter_succ. rewrite shr_1_m.
    + rewrite IH. rewrite Nat2Z.inj_succ, Z.pow_succ_r by lia.
      rewrite Z.div_div by (try lia; apply Z.pow_pos_nonneg; lia).
      f_equal. lia.
    + rewrite IH. apply Z.div_pos; [lia|apply Z.pow_pos_nonneg; lia].
Qed.

Lemma digits2_of_bounds (q : positive) (n : Z) :
  2 ^ (n - 1) <= Z.pos q < 2 ^ n -> 1 <= n -> Z.pos (digits2_pos q) = n.
Proof.
  intros [H1 H2] Hn. pose proof (digits2_bounds q) as [H3 H4].
  set (d := Z.pos (digits2_pos q)) in *. assert (Hd1 : 1 <= d) by (unfold d; lia).
  destruct (Z.lt_trichotomy d n) as [H|[H|H]]; [|exact H|].
  - assert (2 ^ d <= 2 ^ (n - 1)) by (apply Z.pow_le_mono_r; lia). lia.
  - assert (2 ^ n <= 2 ^ (d - 1)) by (apply Z.pow_le_mono_r; lia). lia.
Qed.

Lemma round_nearest_even_bounds (m : Z) (l : location) :
  m <= round_nearest_even m l <= m + 1.
Proof.
  unfold round_nearest_even. destruct l as [|[| |]]; try lia.
  destruct (Z.even m); lia.
Qed.

(** From [2^53] to below [2^63] the conversion of an integer rounds to a
    float that is an integer of magnitude at most [2^63]. *)
Lemma binary_round_large (s : bool) (p : positive) :
  2 ^ 53 <= Z.pos p < 2 ^ 63 ->
  exists (m : positive) (e : Z),
    binary_round prec64 emax64 s p 0 = S754_finite s m e
    /\ 1 <= e <= 11 /\ (e = 11 -> m = (2 ^ 52)%positive).
Proof.
  intros [Hlo Hhi]. pose proof (digits2_bounds p) as Hb.
  set (d := Z.pos (digits2_pos p)) in *.
  assert (Hd : 54 <= d <= 63).
  { split.
    - destruct (Z_le_gt_dec 54 d) as [H|H]; [exact H|exfalso].
      assert (2 ^ d <= 2 ^ 53) by (apply Z.pow_le_mono_r; lia). lia.
    - destruct (Z_le_gt_dec d 63) as [H|H]; [exact H|exfalso].
      assert (2 ^ 63 <= 2 ^ (d - 1)) by (apply Z.pow_le_mono_r; lia). lia. }
  unfold binary_round, shl_align, fexp, emin, prec64, emax64. fold d.
  replace (Z.max (d + 0 - 53) (3 - 1024 - 53)) with (d - 53) by lia.
  replace (d - 53 - 0) with (d - 53) by lia.
  destruct (d - 53) as [|k|k] eqn:Hk; try lia.
  unfold binary_round_aux, shr_fexp, fexp, emin.
  cbn [Zdigits2 shr_record_of_loc]. fold d.
  replace (Z.max (d + 0 - 53) (3 - 1024 - 53) - 0) with (Z.pos k) by lia.
  cbn [shr]. rewrite iter_pos_nat.
  set (mrs := Nat.iter (Pos.to_nat k) shr_1 _).
  assert (Hm1 : shr_m mrs = Z.pos p / 2 ^ Z.pos k).
  { unfold mrs. rewrite iter_shr_1_m by (cbn; lia). cbn [shr_m].
    now rewrite positive_nat_Z. }
  assert (Hpk : 0 < 2 ^ Z.pos k) by (apply Z.pow_pos_nonneg; lia).
  assert (Hsplit : 2 ^ d = 2 ^ 53 * 2 ^ Z.pos k).
  { rewrite <- Z.pow_add_r by lia. f_equal. lia. }
  assert (Hsplit' : 2 ^ (d - 1) = 2 ^ 52 * 2 ^ Z.pos k).
  { rewrite <- Z.pow_add_r by lia. f_equal. lia. }
  assert (Hb1 : 2 ^ 52 <= shr_m mrs < 2 ^ 53).
  { rewrite Hm1. split.
    - apply Z.div_le_lower_bound; lia.
    - apply Z.div_lt_upper_bound; lia. }
  pose proof (round_nearest_even_bounds (shr_m mrs) (loc_of_shr_record mrs)) as Hr.
  set (m' := round_nearest_even (shr_m mrs) (loc_of_shr_record mrs)) in *.
  destruct m' as [|q|q] eqn:Hm'; try lia.
  destruct (Z.eq_dec (Z.pos q) (2 ^ 53)) as [Heq|Hne].
  - assert (Hq : Z.pos (digits2_pos q) = 54).
    { apply digits2_of_bounds; [|lia]. rewrite Heq. split; [reflexivity|reflexivity]. }
    cbn [Zdigits2]. rewrite Hq.
    replace (Z.max (54 + (0 + Z.pos k) - 53) (3 - 1024 - 53) - (0 + Z.pos k))
      with 1 by lia.
    cbn [shr SpecFloat.iter_pos shr_record_of_loc].
    rewrite shr_1_m by (cbn [shr_m]; lia). cbn [shr_m]. rewrite Heq.
    change (2 ^ 53 / 2) with (Z.pos (2 ^ 52)).
    exists (2 ^ 52)%positive, (0 + Z.pos k + 1).
    replace (0 + Z.pos k + 1 <=? 1024 - 53) with true
      by (symmetry; apply Z.leb_le; lia).
    split; [reflexivity|]. split; [lia|reflexivity].
  - assert (Hq : Z.pos (digits2_pos q) = 53) by (apply digits2_of_bounds; lia).
    cbn [Zdigits2]. rewrite Hq.
    replace (Z.max (53 + (0 + Z.pos k) - 53) (3 - 1024 - 53) - (0 + Z.pos k))
      with 0 by lia.
    cbn [shr shr_m shr_record_of_loc].
    exists q, (0 + Z.pos k).
    replace (0 + Z.pos k <=? 1024 - 53) with true
      by (symmetry; apply Z.leb_le; lia).
    split; [reflexivity|]. split; [lia|lia].
Qed.

Lemma fits_int64_integer_float (s : bool) (m : positive) (e : Z) :
  0 <= e <= 11 -> (e = 11 -> m = (2 ^ 52)%positive) ->
  fits_int64 (S754_finite s m e) = true.
Proof.
  intros He H11. unfold fits_int64. rewrite MinInt64_f_eq, MaxInt64_f_eq.
  assert (H3 : math_Round (S754_finite s m e) = S754_finite s m e).
  { unfold math_Round. now replace (0 <=? e) with true by (symmetry; apply Z.leb_le; lia). }
  rewrite H3. unfold f64_eqb, SFeqb. rewrite SFcompare_finite_refl.
  rewrite andb_true_r. unfold f64_leb, SFleb, SFcompare.
  destruct (Z.eq_dec e 11) as [->|Hne].
  - rewrite (H11 eq_refl). now destruct s.
  - rewrite (proj2 (Z.compare_gt_iff 11 e)) by lia.
    rewrite (proj2 (Z.compare_lt_iff e 11)) by lia. now destruct s.
Qed.

Lemma integer_literal_in_range (neg : bool) (m e : Z) :
  0 <= m -> 0 <= e ->
  MinInt64 <= (if neg then - (m * 10 ^ e) else m * 10 ^ e) <= MaxInt64 ->
  exists z, parseJSONValue (RNumber (JNumber neg m e)) = Done (TInt64 z, Some tInt64).
Proof.
  intros Hm He Hr.
  destruct (Z_le_gt_dec (m * 10 ^ e) (2 ^ 53)) as [Hs|Hl].
  - eexists. now apply integer_literal.
  - unfold MinInt64, MaxInt64 in Hr.
    cbn [parseJSONValue]. unfold Result_Float, ParseFloat.
    cbn [jn_mant jn_exp10 jn_neg].
    assert (H53 : 0 < 2 ^ 53) by reflexivity.
    destruct (m =? 0) eqn:Hm0; [apply Z.eqb_eq in Hm0; subst m; lia|].
    replace (0 <=? e) with true by (symmetry; apply Z.leb_le; lia).
    destruct (m * 10 ^ e) as [|p|p] eqn:Ha; try lia.
    destruct (Z.eq_dec (Z.pos p) (2 ^ 63)) as [Heq|Hne].
    + injection Heq as ->. destruct neg; [|lia]. eexists. vm_compute. reflexivity.
    + assert (Hp : 2 ^ 53 <= Z.pos p < 2 ^ 63) by (destruct neg; lia).
      destruct (binary_round_large neg p Hp) as (m' & e' & Hf & He' & H11).
      assert (Hn : binary_normalize prec64 emax64
                     (if neg then - Z.pos p else Z.pos p) 0 neg
                   = binary_round prec64 emax64 neg p 0) by now destruct neg.
      rewrite Hn, Hf. rewrite fits_int64_integer_float by (try lia; exact H11).
      eexists. reflexivity.
Qed.

(** A float that is not an integer fails the guard. *)
Lemma fits_int64_fraction (s : bool) (m : positive) (e : Z) :
  Z.pos m < 2 ^ 53 -> e < 0 -> Z.pos m mod 2 ^ (- e) <> 0 ->
  fits_int64 (S754_finite s m e) = false.
Proof.
  intros Hm He Hmod. unfold fits_int64.
  assert (H3 : f64_eqb (math_Round (S754_finite s m e)) (S754_finite s m e) = false);
    [|rewrite H3; apply andb_false_r].
  unfold math_Round. replace (0 <=? e) with false by (symmetry; apply Z.leb_gt; lia).
  set (d := 2 ^ (- e)) in *.
  assert (Hd : 2 <= d).
  { unfold d. replace (- e) with (Z.succ (- e - 1)) by lia.
    rewrite Z.pow_succ_r by lia.
    assert (0 < 2 ^ (- e - 1)) by (apply Z.pow_pos_nonneg; lia). lia. }
  pose proof (Z.div_mod (Z.pos m) d ltac:(lia)) as Hdm.
  pose proof (Z.mod_pos_bound (Z.pos m) d ltac:(lia)) as Hr.
  assert (Hq : 0 <= Z.pos m / d) by (apply Z.div_pos; lia).
  set (n := if d <=? 2 * (Z.pos m mod d) then Z.pos m / d + 1 else Z.pos m / d).
  assert (Hn : 0 <= n < 2 ^ 53).
  { assert (Z.pos m / d <= Z.pos m / 2).
    { apply Z.div_le_compat_l; lia. }
    assert (Z.pos m / 2 < 2 ^ 52).
    { apply Z.div_lt_upper_bound; [lia|].
      change (2 * 2 ^ 52) with (2 ^ 53). lia. }
    assert (2 ^ 52 + 1 < 2 ^ 53) by reflexivity.
    unfold n. destruct (d <=? 2 * (Z.pos m mod d)); lia. }
  unfold f64_eqb, SFeqb.
  destruct n as [|p|p] eqn:Hnp; try lia.
  - cbn [binary_normalize]. destruct s; reflexivity.
  - assert (Hb : binary_normalize prec64 emax64 (if s then - Z.pos p else Z.pos p) 0 s
                 = binary_round prec64 emax64 s p 0) by now destruct s.
    rewrite Hb.
    destruct (binary_round_small s p ltac:(lia)) as (m2 & e2 & Hf & He2 & Hm2).
    rewrite Hf. unfold SFcompare.
    destruct (Z.compare e2 e) eqn:Hc; try (now destruct s).
    apply Z.compare_eq in Hc. subst e2.
    rewrite Pos.compare_cont_spec. cbn [Pos.switch_Eq].
    destruct (Pos.compare m2 m) eqn:Hc2; try (now destruct s).
    apply Pos.compare_eq in Hc2. subst m2.
    exfalso. apply Hmod. fold d in Hm2. rewrite Hm2. apply Z.mod_mul. lia.
Qed.

(** A float beyond [2^63] in magnitude fails the guard. *)
Lemma fits_int64_beyond (s : bool) (m : positive) (e : Z) :
  11 < e \/ (e = 11 /\ (2 ^ 52 < m)%positive) ->
  fits_int64 (S754_finite s m e) = false.
Proof.
  intros H. unfold fits_int64. rewrite MinInt64_f_eq, MaxInt64_f_eq.
  unfold f64_leb, SFleb, SFcompare.
  destruct H as [H|[-> H]].
  - rewrite (proj2 (Z.compare_lt_iff 11 e)) by lia.
    rewrite (proj2 (Z.compare_gt_iff e 11)) by lia.
    destruct s; reflexivity.
  - rewrite Z.compare_refl.
    rewrite !Pos.compare_cont_spec. cbn [Pos.switch_Eq].
    rewrite (proj2 (Pos.compare_gt_iff m (2 ^ 52)) H).
    rewrite (proj2 (Pos.compare_lt_iff (2 ^ 52) m) H).
    destruct s; reflexivity.
Qed.

Lemma fits_int64_infinity (s : bool) : fits_int64 (S754_infinity s) = false.
Proof. destruct s; vm_compute; reflexivity. Qed.

Lemma binary_round_small_exp (s : bool) (p : positive) :
  Z.pos p < 2 ^ 53 ->
  exists m : positive,
    binary_round prec64 emax64 s p 0
    = S754_finite s m (Z.pos (digits2_pos p) - 53)
    /\ Z.pos m = Z.pos p * 2 ^ (53 - Z.pos (digits2_pos p))
    /\ 1 <= Z.pos (digits2_pos p) <= 53.
Proof.
  intros Hp. pose proof (digits2_bounds p) as Hb.
  set (d := Z.pos (digits2_pos p)) in *.
  assert (Hd : 1 <= d <= 53).
  { split; [unfold d; lia|].
    destruct (Z_le_gt_dec d 53) as [H|H]; [exact H|exfalso].
    assert (2 ^ 53 <= 2 ^ (d - 1)) by (apply Z.pow_le_mono_r; lia). lia. }
  unfold binary_round, shl_align, fexp, emin, prec64, emax64. fold d.
  replace (Z.max (d + 0 - 53) (3 - 1024 - 53) - 0) with (d - 53) by lia.
  replace (Z.max (d + 0 - 53) (3 - 1024 - 53)) with (d - 53) by lia.
  destruct (d - 53) as [|q|q] eqn:Hq; [|lia|].
  - exists p. rewrite <- Hq. split; [|split; [|exact Hd]].
    + rewrite Hq. apply binary_round_aux_canonical; [fold d; lia|lia].
    + replace (53 - d) with 0 by lia. cbn. lia.
  - exists (Pos.iter xO p q). rewrite <- Hq. split; [|split; [|exact Hd]].
    + apply binary_round_aux_canonical; [|lia].
      rewrite digits2_iter_xO. rewrite Pos2Z.inj_add. fold d. lia.
    + rewrite iter_xO_value. f_equal. f_equal. lia.
Qed.

(** A mantissa of 54 bits whose last bit is 0 loses that bit, exactly. *)
Lemma binary_round_aux_54 (s : bool) (q : positive) (e : Z) :
  Z.pos (digits2_pos q) = 53 -> -1074 <= e <= 970 ->
  binary_round_aux prec64 emax64 s (Z.pos q~0) e loc_Exact
  = S754_finite s q (e + 1).
Proof.
  intros Hd He. unfold binary_round_aux, shr_fexp, fexp, emin, prec64, emax64.
  cbn [Zdigits2 shr_record_of_loc digits2_pos]. rewrite Pos2Z.inj_succ, Hd.
  replace (Z.max (Z.succ 53 + e - 53) (3 - 1024 - 53) - e) with 1 by lia.
  cbn [shr SpecFloat.iter_pos shr_1 shr_m loc_of_shr_record orb
       round_nearest_even Zdigits2].
  rewrite Hd.
  replace (Z.max (53 + (e + 1) - 53) (3 - 1024 - 53) - (e + 1)) with 0 by lia.
  cbn [shr shr_m shr_record_of_loc].
  replace (e + 1 <=? 1024 - 53) with true by (symmetry; apply Z.leb_le; lia).
  reflexivity.
Qed.

Lemma digits2_mul_bounds (a b : positive) :
  Z.pos (digits2_pos a) + Z.pos (digits2_pos b) - 1
  <= Z.pos (digits2_pos (a * b))
  <= Z.pos (digits2_pos a) + Z.pos (digits2_pos b).
Proof.
  pose proof (digits2_bounds a) as [Ha1 Ha2].
  pose proof (digits2_bounds b) as [Hb1 Hb2].
  pose proof (digits2_bounds (a * b)) as [Hc1 Hc2].
  set (da := Z.pos (digits2_pos a)) in *.
  set (db := Z.pos (digits2_pos b)) in *.
  set (dc := Z.pos (digits2_pos (a * b))) in *.
  assert (1 <= da) by (unfold da; lia). assert (1 <= db) by (unfold db; lia).
  assert (1 <= dc) by (unfold dc; lia).
  rewrite Pos2Z.inj_mul in Hc1, Hc2.
  assert (Hlo : 2 ^ (da + db - 2) <= Z.pos a * Z.pos b).
  { replace (da + db - 2) with ((da - 1) + (db - 1)) by lia.
    rewrite Z.pow_add_r by lia.
    apply Z.mul_le_mono_nonneg; try lia; apply Z.pow_nonneg; lia. }
  assert (Hhi : Z.pos a * Z.pos b < 2 ^ (da + db)).
  { rewrite Z.pow_add_r by lia. apply Z.mul_lt_mono_nonneg; lia. }
  split.
  - destruct (Z_le_gt_dec (da + db - 1) dc) as [Hx|Hx]; [exact Hx|exfalso].
    assert (2 ^ dc <= 2 ^ (da + db - 2)) by (apply Z.pow_le_mono_r; lia). lia.
  - destruct (Z_le_gt_dec dc (da + db)) as [Hx|Hx]; [exact Hx|exfalso].
    assert (2 ^ (da + db) <= 2 ^ (dc - 1)) by (apply Z.pow_le_mono_r; lia). lia.
Qed.

Lemma new_location_zero (nb : Z) : new_location nb 0 = loc_Exact.
Proof.
  unfold new_location, new_location_even, new_location_odd.
  destruct (Z.even nb); reflexivity.
Qed.

Lemma div_eucl_exact (q d x : Z) :
  0 < d -> x = q * d -> Z.div_eucl x d = (q, 0).
Proof.
  intros Hd ->.
  pose proof (Z.div_mul q d ltac:(lia)) as H1.
  pose proof (Z.mod_mul q d ltac:(lia)) as H2.
  unfold Z.div, Z.modulo in *.
  destruct (Z.div_eucl (q * d) d) as [q' r']. cbn in *. congruence.
Qed.

(** A literal with a negative power of ten that denotes the integer [a]
    reads as the float of [a]. *)
Lemma ParseFloat_integral (neg : bool) (a D : positive) (k : Z) :
  0 < k -> Z.pos D = 10 ^ k ->
  ParseFloat (JNumber neg (Z.pos (a * D)) (- k))
  = binary_round prec64 emax64 neg a 0.
Proof.
  intros Hk HD. unfold ParseFloat. cbn [jn_mant jn_exp10 jn_neg].
  replace (0 <=? - k) with false by (symmetry; apply Z.leb_gt; lia).
  cbn [Z.eqb]. rewrite Z.opp_involutive, <- HD.
  unfold SFdiv_core_binary. cbn [Zdigits2].
  pose proof (digits2_mul_bounds a D) as Hdig.
  pose proof (digits2_bounds a) as Hba.
  set (da := Z.pos (digits2_pos a)) in *.
  set (dD := Z.pos (digits2_pos D)) in *.
  set (d1 := Z.pos (digits2_pos (a * D))) in *.
  assert (Hda : 1 <= da) by (unfold da; lia).
  assert (HdD : 1 <= dD) by (unfold dD; lia).
  set (t := d1 + 0 - (dD + 0)).
  assert (Ht : t = da - 1 \/ t = da) by (unfold t; lia).
  unfold fexp, emin, prec64, emax64.
  replace (Z.max (t - 53) (3 - 1024 - 53)) with (t - 53) by lia.
  destruct (Z_le_gt_dec 53 t) as [Hbig|Hsmall].
  - (* no shift: the quotient is [a] itself *)
    replace (Z.min (t - 53) (0 - 0)) with 0 by lia.
    cbn [Z.sub Z.opp Z.add].
    rewrite (div_eucl_exact (Z.pos a) (Z.pos D))
      by (try lia; rewrite Pos2Z.inj_mul; reflexivity).
    rewrite new_location_zero.
    unfold binary_round, shl_align, fexp, emin. fold da.
    replace (Z.max (da + 0 - 53) (3 - 1024 - 53)) with (da - 53) by lia.
    destruct (da - 53 - 0) as [|x|x] eqn:Hx; try lia; reflexivity.
  - (* the dividend is shifted so that the quotient has 53 or 54 bits *)
    replace (Z.min (t - 53) (0 - 0)) with (t - 53) by lia.
    replace (0 - 0 - (t - 53)) with (53 - t) by lia.
    destruct (53 - t) as [|sp|sp] eqn:Hs; try lia.
    rewrite Z.shiftl_mul_pow2 by lia.
    assert (Hpow : 0 < 2 ^ Z.pos sp) by (apply Z.pow_pos_nonneg; lia).
    rewrite (div_eucl_exact (Z.pos a * 2 ^ Z.pos sp) (Z.pos D))
      by (try lia; rewrite Pos2Z.inj_mul; ring).
    rewrite new_location_zero.
    assert (Ha53 : Z.pos a < 2 ^ 53).
    { destruct Hba as [_ Hlt]. eapply Z.lt_le_trans; [exact Hlt|].
      apply Z.pow_le_mono_r; lia. }
    destruct (binary_round_small_exp neg a Ha53) as (m2 & Hf & Hm2 & Hd2).
    fold da in Hf, Hm2, Hd2. unfold prec64, emax64 in Hf. rewrite Hf.
    rewrite <- iter_xO_value.
    destruct Ht as [Ht|Ht].
    + (* 54 bits: one more than needed *)
      assert (Hiter : Pos.iter xO a sp = (m2~0)%positive).
      { apply Pos2Z.inj. rewrite iter_xO_value.
        change (Z.pos m2~0) with (2 * Z.pos m2). rewrite Hm2.
        replace (Z.pos sp) with (Z.succ (53 - da)) by lia.
        rewrite Z.pow_succ_r by lia. lia. }
      rewrite Hiter.
      assert (Hdm2 : Z.pos (digits2_pos m2) = 53).
      { assert (H : digits2_pos (Pos.iter xO a sp) = Pos.succ (digits2_pos m2))
          by now rewrite Hiter.
        rewrite digits2_iter_xO in H.
        assert (Z.pos (digits2_pos a + sp) = Z.pos (Pos.succ (digits2_pos m2)))
          by now rewrite H.
        rewrite Pos2Z.inj_add, Pos2Z.inj_succ in H0. fold da in H0. lia. }
      pose proof (binary_round_aux_54 neg m2 (t - 53) Hdm2 ltac:(lia)) as Hr.
      unfold prec64, emax64 in Hr. rewrite Hr.
      f_equal. lia.
    + (* 53 bits exactly *)
      assert (Hiter : Pos.iter xO a sp = m2).
      { apply Pos2Z.inj. rewrite iter_xO_value, Hm2. f_equal. f_equal. lia. }
      rewrite Hiter.
      assert (Hdm2 : Z.pos (digits2_pos m2) = 53).
      { rewrite <- Hiter, digits2_iter_xO, Pos2Z.inj_add. fold da. lia. }
      pose proof (binary_round_aux_canonical neg m2 (t - 53) Hdm2 ltac:(lia)) as Hr.
      unfold prec64, emax64 in Hr. rewrite Hr.
      f_equal. lia.
Qed.

(** The float of an integer of magnitude at most [2^53] passes the guard
    and converts back to the integer. *)
Lemma float_of_integer_small (s : bool) (a : positive) :
  Z.pos a <= 2 ^ 53 ->
  fits_int64 (binary_round prec64 emax64 s a 0) = true
  /\ int64_of_float64 (binary_round prec64 emax64 s a 0)
     = (if s then - Z.pos a else Z.pos a).
Proof.
  intros Ha. destruct (Z.eq_dec (Z.pos a) (2 ^ 53)) as [Heq|Hne].
  - injection Heq as ->. destruct s; split; vm_compute; reflexivity.
  - apply fits_int64_small. lia.
Qed.

(** The float of an integer of the signed 64-bit range passes the guard. *)
Lemma float_of_integer_in_range (s : bool) (a : positive) :
  MinInt64 <= (if s then - Z.pos a else Z.pos a) <= MaxInt64 ->
  fits_int64 (binary_round prec64 emax64 s a 0) = true.
Proof.
  intros Hr. unfold MinInt64, MaxInt64 in Hr.
  destruct (Z_le_gt_dec (Z.pos a) (2 ^ 53)) as [Hs|Hl].
  - now apply float_of_integer_small.
  - destruct (Z.eq_dec (Z.pos a) (2 ^ 63)) as [Heq|Hne].
    + injection Heq as ->. destruct s; [|lia]. vm_compute. reflexivity.
    + assert (Hp : 2 ^ 53 <= Z.pos a < 2 ^ 63) by (destruct s; lia).
      destruct (binary_round_large s a Hp) as (m' & e' & Hf & He' & H11).
      rewrite Hf. apply fits_int64_integer_float; [lia|exact H11].
Qed.

(** An integral literal reads as the float of the integer it denotes. *)
Lemma ParseFloat_of_integral (n : jnumber) :
  0 < jn_mant n -> jn_integral n = true ->
  exists a : positive,
    jn_trunc n = (if jn_neg n then - Z.pos a else Z.pos a)
    /\ ParseFloat n = binary_round prec64 emax64 (jn_neg n) a 0.
Proof.
  destruct n as [neg m e]. unfold jn_integral, jn_trunc.
  cbn [jn_mant jn_exp10 jn_neg]. intros Hm Hint.
  destruct (0 <=? e) eqn:He.
  - apply Z.leb_le in He.
    assert (Hpos : 0 < m * 10 ^ e).
    { apply Z.mul_pos_pos; [lia|]. apply Z.pow_pos_nonneg; lia. }
    destruct (m * 10 ^ e) as [|a|a] eqn:Ha; try lia.
    exists a. split; [reflexivity|].
    unfold ParseFloat. cbn [jn_mant jn_exp10 jn_neg].
    replace (m =? 0) with false by (symmetry; apply Z.eqb_neq; lia).
    replace (0 <=? e) with true by (symmetry; apply Z.leb_le; lia).
    rewrite Ha. now destruct neg.
  - apply Z.leb_gt in He.
    replace (m =? 0) with false in Hint by (symmetry; apply Z.eqb_neq; lia).
    cbn [orb] in Hint. apply Z.eqb_eq in Hint.
    assert (HD : 0 < 10 ^ (- e)) by (apply Z.pow_pos_nonneg; lia).
    destruct (10 ^ (- e)) as [|D|D] eqn:HDp; try lia.
    apply Z.mod_divide in Hint; [|lia]. destruct Hint as [a Ha].
    assert (Hapos : 0 < a) by nia.
    destruct a as [|a|a]; try lia.
    exists a. split.
    + rewrite Ha. rewrite Z.div_mul by lia. reflexivity.
    + rewrite Ha. rewrite <- Pos2Z.inj_mul.
      replace e with (- (- e)) at 1 by lia.
      apply ParseFloat_integral; [lia|]. now rewrite HDp.
Qed.

Lemma parseJSONValue_zero (neg : bool) (e : Z) :
  parseJSONValue (RNumber (JNumber neg 0 e)) = Done (TInt64 0, Some tInt64).
Proof. destruct neg; reflexivity. Qed.

Lemma jn_trunc_zero (neg : bool) (e : Z) : jn_trunc (JNumber neg 0 e) = 0.
Proof.
  unfold jn_trunc. cbn [jn_mant jn_exp10 jn_neg].
  destruct (0 <=? e); rewrite ?Z.mul_0_l, ?Zdiv_0_l; now destruct neg.
Qed.

(** C8, as amended: a JSON number is decoded through the float64 nearest
    to it. An integral number of the signed 64-bit range becomes an Int64,
    which has the same value when the magnitude is at most [2^53]; a number
    whose nearest float64 is not an integer, or exceeds [2^63] in
    magnitude, or is an infinity, becomes the Float64 of that float. *)
Theorem C8_json_numbers :
  forall n : jnumber,
    0 <= jn_mant n ->
    parseJSONValue (RNumber n) =
      (if fits_int64 (Result_Float n)
       then Done (TInt64 (int64_of_float64 (Result_Float n)), Some tInt64)
       else Done (TFloat64 (Result_Float n), Some tFloat64))
    /\ (jn_integral n = true ->
        MinInt64 <= jn_trunc n <= MaxInt64 ->
        exists z, parseJSONValue (RNumber n) = Done (TInt64 z, Some tInt64))
    /\ (jn_integral n = true ->
        Z.abs (jn_trunc n) <= 2 ^ 53 ->
        parseJSONValue (RNumber n) = Done (TInt64 (jn_trunc n), Some tInt64))
    /\ (forall (s : bool) (m : positive) (e : Z),
          Result_Float n = S754_finite s m e ->
          Z.pos m < 2 ^ 53 ->
          (e < 0 /\ Z.pos m mod 2 ^ (- e) <> 0)
          \/ 11 < e \/ (e = 11 /\ (2 ^ 52 < m)%positive) ->
          parseJSONValue (RNumber n)
          = Done (TFloat64 (S754_finite s m e), Some tFloat64))
    /\ (forall s : bool,
          Result_Float n = S754_infinity s ->
          parseJSONValue (RNumber n)
          = Done (TFloat64 (S754_infinity s), Some tFloat64)).
Proof.
  intros n Hm. split; [reflexivity|]. split; [|split; [|split]].
  - intros Hint Hr.
    destruct (Z.eq_dec (jn_mant n) 0) as [H0|H0].
    + destruct n as [neg m e]. cbn [jn_mant] in H0. subst m.
      eexists. apply parseJSONValue_zero.
    + destruct (ParseFloat_of_integral n ltac:(lia) Hint) as (a & Hz & Hf).
      cbn [parseJSONValue]. unfold Result_Float. rewrite Hf.
      rewrite float_of_integer_in_range by (rewrite <- Hz; exact Hr).
      eexists. reflexivity.
  - intros Hint Hr.
    destruct (Z.eq_dec (jn_mant n) 0) as [H0|H0].
    + destruct n as [neg m e]. cbn [jn_mant] in H0. subst m.
      rewrite jn_trunc_zero. apply parseJSONValue_zero.
    + destruct (ParseFloat_of_integral n ltac:(lia) Hint) as (a & Hz & Hf).
      cbn [parseJSONValue]. unfold Result_Float. rewrite Hf.
      assert (Ha : Z.pos a <= 2 ^ 53) by (rewrite Hz in Hr; destruct (jn_neg n); lia).
      destruct (float_of_integer_small (jn_neg n) a Ha) as [H1 H2].
      rewrite H1, H2, Hz. reflexivity.
  - intros s m e Hf Hmb Hc. cbn [parseJSONValue]. rewrite Hf.
    destruct Hc as [[He Hmod]|Hc].
    + now rewrite fits_int64_fraction.
    + now rewrite fits_int64_beyond.
  - intros s Hf. cbn [parseJSONValue]. rewrite Hf.
    now rewrite fits_int64_infinity.
Qed.

(** The numbers [123], [-2^63], [120.0e-1], [2.5], [1e19] and [1e400]. *)
Lemma C8_json_numbers_witness :
  parseJSONValue (RNumber (JNumber false 123 0)) = Done (TInt64 123, Some tInt64)
  /\ (exists z, parseJSONValue (RNumber (JNumber true (2 ^ 63) 0))
                = Done (TInt64 z, Some tInt64))
  /\ parseJSONValue (RNumber (JNumber false 1200 (-2))) = Done (TInt64 12, Some tInt64)
  /\ parseJSONValue (RNumber (JNumber false 25 (-1)))
     = Done (TFloat64 (S754_finite false 5629499534213120 (-51)), Some tFloat64)
  /\ parseJSONValue (RNumber (JNumber false 1 19))
     = Done (TFloat64 (S754_finite false 4882812500000000 11), Some tFloat64)
  /\ parseJSONValue (RNumber (JNumber false 1 400))
     = Done (TFloat64 (S754_infinity false), Some tFloat64).
Proof.
  split; [|split; [|split; [|split; [|split]]]].
  - apply (proj1 (proj2 (proj2 (C8_json_numbers (JNumber false 123 0)
                                   ltac:(vm_compute; discriminate))))).
    + reflexivity.
    + vm_compute. discriminate.
  - apply (proj1 (proj2 (C8_json_numbers (JNumber true (2 ^ 63) 0)
                            ltac:(vm_compute; discriminate)))).
    + reflexivity.
    + split; vm_compute; discriminate.
  - apply (proj1 (proj2 (proj2 (C8_json_numbers (JNumber false 1200 (-2))
                                   ltac:(vm_compute; discriminate))))).
    + reflexivity.
    + vm_compute. discriminate.
  - apply (proj1 (proj2 (proj2 (proj2 (C8_json_numbers (JNumber false 25 (-1))
                                          ltac:(vm_compute; discriminate)))))).
    + vm_compute. reflexivity.
    + reflexivity.
    + left. split; [reflexivity|]. vm_compute. discriminate.
  - apply (proj1 (proj2 (proj2 (proj2 (C8_json_numbers (JNumber false 1 19)
                                          ltac:(vm_compute; discriminate)))))).
    + vm_compute. reflexivity.
    + reflexivity.
    + right. right. split; reflexivity.
  - apply (proj2 (proj2 (proj2 (proj2 (C8_json_numbers (JNumber false 1 400)
                                          ltac:(vm_compute; discriminate)))))).
    vm_compute. reflexivity.
Defined.

(** ** The text codec: values that come back *)

(** *** Text *)

Lemma append_String (c : ascii) (s t : string) :
  String.append (String c s) t = String c (String.append s t).
Proof. reflexivity. Qed.

Lemma append_Empty (t : string) : String.append EmptyString t = t.
Proof. reflexivity. Qed.

Lemma append_Empty_r (s : string) : String.append s EmptyString = s.
Proof. induction s as [|c s IH]; [reflexivity|]. now rewrite append_String, IH. Qed.

Lemma append_assoc (s t u : string) :
  String.append (String.append s t) u = String.append s (String.append t u).
Proof. induction s as [|c s IH]; [reflexivity|]. now rewrite !append_String, IH. Qed.

Lemma length_append (s t : string) :
  String.length (String.append s t) = (String.length s + String.length t)%nat.
Proof.
  induction s as [|c s IH]; [reflexivity|].
  rewrite append_String. cbn [String.length]. now rewrite IH.
Qed.

(** One ASCII character of a string body, read back. *)
Lemma scan_string_escape_head (c : ascii) (r t : string) (fuel : nat) :
  (code c <? 128) = true ->
  scan_string (S fuel) (String.append (escape_string (String c r)) t)
  = match scan_string fuel (String.append (escape_string r) t) with
    | Some (u, rest) => Some (String c u, rest)
    | None => None
    end.
Proof.
  intros Hc. destruct c as [b0 b1 b2 b3 b4 b5 b6 b7].
  destruct b7; [destruct b0, b1, b2, b3, b4, b5, b6; discriminate Hc|].
  clear Hc.
  destruct b0, b1, b2, b3, b4, b5, b6;
    (cbv -[scan_string escape_string String.append];
     cbv beta iota fix delta [String.append];
     cbv -[scan_string escape_string String.append];
     cbv beta iota fix delta [String.append];
     reflexivity).
Qed.

(** *** Numbers *)

Lemma delim_cases (rest : string) :
  delim rest = true ->
  rest = EmptyString
  \/ exists r, rest = String "," r \/ rest = String "}" r \/ rest = String "]" r.
Proof.
  destruct rest as [|c r]; [auto|]. cbn [delim]. intros H. right. exists r.
  apply orb_true_iff in H as [H|H]; [apply orb_true_iff in H as [H|H]|];
    apply Ascii.eqb_eq in H; subst c; auto.
Qed.

Lemma span_digits_app (s d r rest : string) :
  span_digits s = (d, r) ->
  (r = EmptyString -> delim rest = true) ->
  span_digits (String.append s rest) = (d, String.append r rest).
Proof.
  revert d r. induction s as [|c s IH]; intros d r H Hr.
  - cbn [span_digits] in H. injection H as <- <-. rewrite !append_Empty.
    destruct (delim_cases rest (Hr eq_refl)) as [->|(r' & [->| [->| ->]])];
      reflexivity.
  - rewrite append_String. cbn [span_digits] in H |- *.
    destruct (is_digit c).
    + destruct (span_digits s) as [d' r'] eqn:Hs. injection H as <- <-.
      now rewrite (IH d' r' eq_refl Hr).
    + injection H as <- <-. now rewrite append_String.
Qed.



Lemma scan_integer_app (s1 ip s2 rest : string) :
  scan_integer s1 = (ip, s2) -> ip <> EmptyString ->
  (s2 = EmptyString -> delim rest = true) ->
  scan_integer (String.append s1 rest) = (ip, String.append s2 rest).
Proof.
  intros H Hip Hr. destruct s1 as [|c r].
  - cbn [scan_integer] in H. injection H as <- <-. contradiction.
  - rewrite append_String. cbn [scan_integer] in H |- *.
    destruct (Ascii.eqb c "0").
    + now injection H as <- <-.
    + rewrite <- append_String. now apply span_digits_app.
Qed.

Lemma scan_fraction_app (s2 fp s3 rest : string) :
  scan_fraction s2 = Some (fp, s3) ->
  (s3 = EmptyString -> delim rest = true) ->
  scan_fraction (String.append s2 rest) = Some (fp, String.append s3 rest).
Proof.
  intros H Hr. destruct s2 as [|c r].
  - cbn [scan_fraction] in H. injection H as <- <-. rewrite append_Empty.
    destruct (delim_cases rest (Hr eq_refl)) as [->|(r' & [->| [->| ->]])];
      reflexivity.
  - rewrite append_String. cbn [scan_fraction] in H |- *.
    destruct (Ascii.eqb c ".").
    + destruct (span_digits r) as [fp' s3'] eqn:Hs.
      rewrite (span_digits_app r fp' s3' rest Hs).
      * destruct fp'; [discriminate|]. now injection H as <- <-.
      * intros ->. apply Hr. destruct fp'; [discriminate|]. now injection H as <- <-.
    + injection H as <- <-. now rewrite append_String.
Qed.

Lemma scan_exponent_app (neg : bool) (ip fp s3 r rest : string) (j : jnumber) :
  scan_exponent neg ip fp s3 = Some (j, r) ->
  (r = EmptyString -> delim rest = true) ->
  scan_exponent neg ip fp (String.append s3 rest) = Some (j, String.append r rest).
Proof.
  intros H Hr. destruct s3 as [|c t].
  - cbn [scan_exponent] in H. cbv zeta in H. injection H as <- <-.
    rewrite append_Empty.
    destruct (delim_cases rest (Hr eq_refl)) as [->|(r' & [->| [->| ->]])];
      reflexivity.
  - rewrite append_String. unfold scan_exponent in H |- *. cbv zeta in H |- *.
    destruct (Ascii.eqb c "e" || Ascii.eqb c "E").
    + assert (Hgo : forall (eneg : bool) (r1 : string),
                 match span_digits r1 with
                 | (EmptyString, _) => @None (jnumber * string)
                 | (String _ _ as ep, s4) =>
                     Some (JNumber neg (digits_value (String.append ip fp) 0)
                             ((if eneg then - digits_value ep 0 else digits_value ep 0)
                              - Z.of_nat (String.length fp)), s4)
                 end = Some (j, r) ->
                 match span_digits (String.append r1 rest) with
                 | (EmptyString, _) => @None (jnumber * string)
                 | (String _ _ as ep, s4) =>
                     Some (JNumber neg (digits_value (String.append ip fp) 0)
                             ((if eneg then - digits_value ep 0 else digits_value ep 0)
                              - Z.of_nat (String.length fp)), s4)
                 end = Some (j, String.append r rest)).
      { intros eneg r1 H1. destruct (span_digits r1) as [ep s4] eqn:Hs.
        destruct ep as [|e0 ep]; [discriminate|]. injection H1 as <- <-.
        rewrite (span_digits_app r1 _ s4 rest Hs Hr). reflexivity. }
      destruct t as [|c' t'].
      * cbn in H. discriminate.
      * rewrite append_String.
        destruct (Ascii.eqb c' "+"); [exact (Hgo false _ H)|].
        destruct (Ascii.eqb c' "-"); [exact (Hgo true _ H)|].
        rewrite <- append_String. exact (Hgo false _ H).
    + injection H as <- <-. now rewrite append_String.
Qed.

(** A number followed by a delimiter is read as the number alone is. *)
Lemma scan_number_app (s r rest : string) (j : jnumber) :
  scan_number s = Some (j, r) ->
  (r = EmptyString -> delim rest = true) ->
  scan_number (String.append s rest) = Some (j, String.append r rest).
Proof.
  intros H Hr. unfold scan_number in H |- *.
  destruct (scan_sign s) as [neg s1] eqn:Hsign.
  destruct (scan_integer s1) as [ip s2] eqn:Hint.
  destruct ip as [|i0 ip]; [discriminate|].
  destruct (scan_fraction s2) as [[fp s3]|] eqn:Hfrac; [|discriminate].
  assert (Hs1 : scan_sign (String.append s rest) = (neg, String.append s1 rest)).
  { destruct s as [|c0 s0].
    - cbn in Hsign. injection Hsign as <- <-. cbn in Hint. discriminate.
    - rewrite append_String. cbn [scan_sign] in Hsign |- *.
      destruct (Ascii.eqb c0 "-"); injection Hsign as <- <-; reflexivity. }
  assert (Hr3 : s3 = EmptyString -> delim rest = true).
  { intros ->. apply Hr. cbn [scan_exponent] in H. cbv zeta in H. now injection H. }
  assert (Hr2 : s2 = EmptyString -> delim rest = true).
  { intros ->. apply Hr3. cbn in Hfrac. now injection Hfrac. }
  rewrite Hs1, (scan_integer_app s1 _ s2 rest Hint ltac:(discriminate) Hr2).
  rewrite (scan_fraction_app s2 fp s3 rest Hfrac Hr3).
  now apply scan_exponent_app.
Qed.

(** A number starts with a minus sign or a digit. *)
Lemma scan_number_head (c : ascii) (s r : string) (j : jnumber) :
  scan_number (String c s) = Some (j, r) ->
  (Ascii.eqb c "-" || is_digit c) = true.
Proof.
  unfold scan_number. cbn [scan_sign].
  destruct (Ascii.eqb c "-") eqn:Hc; [reflexivity|].
  cbn [scan_integer]. destruct (Ascii.eqb c "0") eqn:H0.
  - apply Ascii.eqb_eq in H0. subst c. reflexivity.
  - cbn [span_digits]. destruct (is_digit c); [reflexivity|]. discriminate.
Qed.



(** *** The decimal text of an integer *)

Lemma span_digits_uint (u : Decimal.uint) :
  span_digits (NilEmpty.string_of_uint u) = (NilEmpty.string_of_uint u, EmptyString).
Proof.
  induction u as [|u IH|u IH|u IH|u IH|u IH|u IH|u IH|u IH|u IH|u IH];
    [reflexivity|..];
    cbn [NilEmpty.string_of_uint span_digits];
    match goal with
    | |- context [is_digit ?c] => change (is_digit c) with true
    end;
    cbv beta iota; now rewrite IH.
Qed.

Lemma digits_value_uint (u : Decimal.uint) :
  forall acc : positive,
    digits_value (NilEmpty.string_of_uint u) (Z.pos acc)
    = Z.pos (Pos.of_uint_acc u acc).
Proof.
  induction u as [|u IH|u IH|u IH|u IH|u IH|u IH|u IH|u IH|u IH|u IH];
    intros acc; [reflexivity|..];
    cbn [NilEmpty.string_of_uint digits_value Pos.of_uint_acc];
    rewrite <- IH; f_equal;
    match goal with
    | |- context [code ?c] =>
        let v := eval vm_compute in (code c) in change (code c) with v
    end; lia.
Qed.

(** The text of a positive number: digits, the first of them not [0]. *)
Lemma string_of_pos (p : positive) :
  exists c s,
    NilEmpty.string_of_uint (Pos.to_uint p) = String c s
    /\ Ascii.eqb c "0" = false /\ Ascii.eqb c "-" = false
    /\ digits_value (String c s) 0 = Z.pos p.
Proof.
  pose proof (DecimalPos.Unsigned.of_to p) as Hof.
  pose proof (DecimalPos.Unsigned.to_of (Pos.to_uint p)) as Hto.
  rewrite Hof in Hto. cbn [N.to_uint] in Hto.
  destruct (Pos.to_uint p) as [|u|u|u|u|u|u|u|u|u|u] eqn:Hu.
  - discriminate Hof.
  - exfalso. unfold Decimal.unorm in Hto. rewrite DecimalFacts.nzhead_D0 in Hto.
    destruct (Decimal.nzhead u) eqn:Hn;
      try (apply (DecimalFacts.nzhead_nonzero u u); congruence).
    injection Hto as ->. discriminate Hof.
  - eexists _, _. split; [reflexivity|]. split; [reflexivity|]. split; [reflexivity|].
    cbn [digits_value Pos.of_uint] in *. injection Hof as <-. apply (digits_value_uint u 1).
  - eexists _, _. split; [reflexivity|]. split; [reflexivity|]. split; [reflexivity|].
    cbn [digits_value Pos.of_uint] in *. injection Hof as <-. apply (digits_value_uint u 2).
  - eexists _, _. split; [reflexivity|]. split; [reflexivity|]. split; [reflexivity|].
    cbn [digits_value Pos.of_uint] in *. injection Hof as <-. apply (digits_value_uint u 3).
  - eexists _, _. split; [reflexivity|]. split; [reflexivity|]. split; [reflexivity|].
    cbn [digits_value Pos.of_uint] in *. injection Hof as <-. apply (digits_value_uint u 4).
  - eexists _, _. split; [reflexivity|]. split; [reflexivity|]. split; [reflexivity|].
    cbn [digits_value Pos.of_uint] in *. injection Hof as <-. apply (digits_value_uint u 5).
  - eexists _, _. split; [reflexivity|]. split; [reflexivity|]. split; [reflexivity|].
    cbn [digits_value Pos.of_uint] in *. injection Hof as <-. apply (digits_value_uint u 6).
  - eexists _, _. split; [reflexivity|]. split; [reflexivity|]. split; [reflexivity|].
    cbn [digits_value Pos.of_uint] in *. injection Hof as <-. apply (digits_value_uint u 7).
  - eexists _, _. split; [reflexivity|]. split; [reflexivity|]. split; [reflexivity|].
    cbn [digits_value Pos.of_uint] in *. injection Hof as <-. apply (digits_value_uint u 8).
  - eexists _, _. split; [reflexivity|]. split; [reflexivity|]. split; [reflexivity|].
    cbn [digits_value Pos.of_uint] in *. injection Hof as <-. apply (digits_value_uint u 9).
Qed.

Lemma scan_format_int (n : Z) :
  scan_number (format_int n) = Some (JNumber (n <? 0) (Z.abs n) 0, EmptyString).
Proof.
  assert (Hpos : forall (neg : bool) (p : positive),
             scan_number ((if neg then String "-" else fun s => s)
                            (NilEmpty.string_of_uint (Pos.to_uint p)))
             = Some (JNumber neg (Z.pos p) 0, EmptyString)).
  { intros neg p. destruct (string_of_pos p) as (c & s & Hs & H0 & Hm & Hv).
    rewrite Hs. unfold scan_number.
    assert (Hsign : scan_sign ((if neg then String "-" else fun s => s) (String c s))
                    = (neg, String c s)).
    { destruct neg; cbn [scan_sign]; [reflexivity|]. now rewrite Hm. }
    rewrite Hsign. cbn [scan_integer]. rewrite H0.
    rewrite <- Hs, span_digits_uint, Hs. cbn [scan_fraction].
    unfold scan_exponent. cbv zeta. rewrite append_Empty_r, Hv. reflexivity. }
  assert (Hnil : forall p, NilZero.string_of_uint (Pos.to_uint p)
                           = NilEmpty.string_of_uint (Pos.to_uint p)).
  { intros p. pose proof (Unsigned.to_uint_nonnil p).
    destruct (Pos.to_uint p); [contradiction|reflexivity..]. }
  destruct n as [|p|p].
  - reflexivity.
  - unfold format_int. cbn [Z.to_int NilZero.string_of_int]. rewrite Hnil.
    exact (Hpos false p).
  - unfold format_int. cbn [Z.to_int NilZero.string_of_int]. rewrite Hnil.
    exact (Hpos true p).
Qed.

(** The first character of a number is no white space and starts no other
    kind of value. *)
Lemma number_head (c : ascii) :
  (Ascii.eqb c "-" || is_digit c) = true ->
  is_ws c = false /\ Ascii.eqb c "{" = false /\ Ascii.eqb c "[" = false
  /\ Ascii.eqb c dquote = false /\ Ascii.eqb c "t" = false
  /\ Ascii.eqb c "f" = false /\ Ascii.eqb c "n" = false
  /\ Ascii.eqb c "]" = false /\ Ascii.eqb c "}" = false.
Proof.
  destruct c as [b0 b1 b2 b3 b4 b5 b6 b7].
  destruct b0, b1, b2, b3, b4, b5, b6, b7; vm_compute; intros H;
    first [discriminate H | repeat split].
Qed.

Lemma parse_value_number (txt : string) (j : jnumber) (fuel : nat) (rest : string) :
  scan_number txt = Some (j, EmptyString) -> delim rest = true ->
  parse_value (S fuel) (String.append txt rest) = Some (RNumber j, rest).
Proof.
  intros H Hd. pose proof (scan_number_app txt _ rest j H (fun _ => Hd)) as Happ.
  rewrite append_Empty in Happ.
  destruct txt as [|c r]; [discriminate H|].
  pose proof (scan_number_head c r _ j H) as Hc.
  destruct (number_head c Hc) as (Hws & H1 & H2 & H3 & H4 & H5 & H6 & _).
  rewrite append_String in Happ |- *.
  cbn [parse_value skip_ws]. rewrite Hws, H1, H2, H3, H4, H5, H6, Hc, Happ.
  reflexivity.
Qed.

Lemma parse_value_int (n : Z) (fuel : nat) (rest : string) :
  delim rest = true ->
  parse_value (S fuel) (String.append (format_int n) rest)
  = Some (RNumber (JNumber (n <? 0) (Z.abs n) 0), rest).
Proof. intros Hd. apply parse_value_number; [apply scan_format_int|exact Hd]. Qed.

Lemma parseJSONValue_int (n : Z) :
  Z.abs n <= 2 ^ 53 ->
  parseJSONValue (RNumber (JNumber (n <? 0) (Z.abs n) 0)) = Done (TInt64 n, Some tInt64).
Proof.
  intros Hn. rewrite (integer_literal (n <? 0) (Z.abs n) 0); [|lia|lia|lia].
  rewrite Z.pow_0_r, Z.mul_1_r. do 3 f_equal.
  destruct (n <? 0) eqn:Hs; [apply Z.ltb_lt in Hs|apply Z.ltb_ge in Hs]; lia.
Qed.



(** *** Entries in ascending order *)

Lemma kv_insert_last {A} (k : string) (v : A) (l : list (string * A)) :
  forallb (fun k' => match String.compare k' k with Lt => true | _ => false end)
          (map fst l) = true ->
  kv_insert k v l = l ++ [(k, v)].
Proof.
  induction l as [|[k' v'] l IH]; intros H; [reflexivity|].
  cbn [map fst forallb] in H. apply andb_true_iff in H as [Hk Hl].
  cbn [kv_insert]. rewrite String.compare_antisym.
  destruct (String.compare k' k); try discriminate.
  cbn [CompOpp app]. now rewrite IH.
Qed.

Lemma ascending_app (l1 l2 : list string) :
  ascending (l1 ++ l2) = true ->
  ascending l1 = true /\ ascending l2 = true
  /\ forall k, In k l2 ->
       forallb (fun k' => match String.compare k' k with Lt => true | _ => false end)
               l1 = true.
Proof.
  induction l1 as [|a l1 IH]; intros H.
  - cbn [app] in H. auto.
  - cbn [app ascending] in H. apply andb_true_iff in H as [Ha Hr].
    rewrite forallb_app in Ha. apply andb_true_iff in Ha as [Ha1 Ha2].
    destruct (IH Hr) as (H1 & H2 & H3).
    split; [cbn [ascending]; now rewrite Ha1, H1|]. split; [exact H2|].
    intros k Hk. cbn [forallb]. rewrite (H3 k Hk), andb_true_r.
    rewrite forallb_forall in Ha2. exact (Ha2 k Hk).
Qed.

Lemma fold_kv_insert_ascending {A} (l acc : list (string * A)) :
  ascending (map fst (acc ++ l)) = true ->
  fold_left (fun acc kv => kv_insert (fst kv) (snd kv) acc) l acc = acc ++ l.
Proof.
  revert acc. induction l as [|[k v] l IH]; intros acc H.
  - cbn [fold_left]. now rewrite app_nil_r.
  - cbn [fold_left fst snd].
    assert (Hlast : kv_insert k v acc = acc ++ [(k, v)]).
    { apply kv_insert_last. rewrite map_app in H.
      destruct (ascending_app _ _ H) as (_ & _ & Hlt). apply Hlt.
      cbn [map fst]. now left. }
    rewrite Hlast, IH.
    + now rewrite <- app_assoc.
    + now rewrite <- app_assoc.
Qed.

Lemma kv_sort_ascending {A} (l : list (string * A)) :
  ascending (map fst l) = true -> kv_sort l = l.
Proof. intros H. unfold kv_sort. now rewrite fold_kv_insert_ascending. Qed.

(** *** The encoder on mappings and sequences *)

Lemma encode_text (v : tval) (s : string) : encode v = Some s -> text v = s.
Proof. unfold text. now intros ->. Qed.

Lemma encode_TMap (kvs : list (string * tval)) :
  Forall (fun kv => encode (snd kv) = Some (text (snd kv))) kvs ->
  encode (TMap kvs)
  = Some (String "{" (String.append
            (join_comma (map (fun kv : string * string =>
                                String.append (quote (fst kv)) (String ":" (snd kv)))
                             (kv_sort (map (fun kv => (fst kv, text (snd kv))) kvs))))
            "}")).
Proof.
  intros H. cbn [encode].
  match goal with
  | |- match ?g kvs with _ => _ end = _ =>
      assert (Hgo : g kvs = Some (map (fun kv => (fst kv, text (snd kv))) kvs))
  end.
  { induction H as [|[k x] r Hx Hr IH]; [reflexivity|].
    cbn [map fst snd] in *. rewrite Hx, IH. reflexivity. }
  now rewrite Hgo.
Qed.

Lemma encode_TSlice (t : gtype) (xs : list tval) :
  Forall (fun x => encode x = Some (text x)) xs ->
  encode (TSlice t xs)
  = Some (String "[" (String.append (join_comma (map text xs)) "]")).
Proof.
  intros H. cbn [encode].
  match goal with
  | |- match ?g xs with _ => _ end = _ =>
      assert (Hgo : g xs = Some (map text xs))
  end.
  { induction H as [|x r Hx Hr IH]; [reflexivity|].
    cbn [map] in *. rewrite Hx, IH. reflexivity. }
  now rewrite Hgo.
Qed.

(** *** The decoder on objects and arrays *)

Lemma parseJSONValue_RObject (ms : list (string * Result)) :
  parseJSONValue (RObject ms)
  = match parseJSONToRawData [] ms with
    | Done d => Done (TMap d, Some tObject)
    | Crash msg => Crash msg
    end.
Proof.
  cbn [parseJSONValue]. generalize (@nil (string * tval)) as d.
  induction ms as [|[k r] ms IH]; intros d; cbn [parseJSONToRawData].
  - reflexivity.
  - destruct (parseJSONValue r) as [[v t]|msg]; [apply IH|reflexivity].
Qed.

Lemma parseJSONToRawData_results (kvs d : list (string * tval)) :
  Forall (fun kv => parseJSONValue (to_result (snd kv)) = Done (snd kv, jtype (snd kv)))
         kvs ->
  parseJSONToRawData d (map (fun kv => (fst kv, to_result (snd kv))) kvs)
  = Done (fold_left (fun acc kv => kv_insert (fst kv) (snd kv) acc) kvs d).
Proof.
  intros H. revert d. induction H as [|[k x] r Hx Hr IH]; intros d; [reflexivity|].
  cbn [map fst snd parseJSONToRawData fold_left] in *. rewrite Hx. apply IH.
Qed.

Lemma parseJSONValue_RArray (xs : list tval) :
  Forall (fun x => parseJSONValue (to_result x) = Done (x, jtype x)) xs ->
  parseJSONValue (RArray (map to_result xs))
  = make_array (map (fun x => (x, jtype x)) xs).
Proof.
  intros H. cbn [parseJSONValue].
  match goal with
  | |- match ?g (map to_result xs) with _ => _ end = _ =>
      assert (Hgo : g (map to_result xs) = Done (map (fun x => (x, jtype x)) xs))
  end.
  { induction H as [|x r Hx Hr IH]; [reflexivity|].
    cbn [map] in *. rewrite Hx, IH. reflexivity. }
  now rewrite Hgo.
Qed.

(** *** Strings *)

Lemma escape_string_length_head (c : ascii) (r : string) :
  (code c <? 128) = true ->
  (S (String.length (escape_string r))
   <= String.length (escape_string (String c r)))%nat.
Proof.
  intros Hc. destruct c as [b0 b1 b2 b3 b4 b5 b6 b7].
  destruct b7; [destruct b0, b1, b2, b3, b4, b5, b6; discriminate Hc|].
  clear Hc.
  destruct b0, b1, b2, b3, b4, b5, b6;
    (cbn [escape_string];
     cbv -[escape_string String.append String.length];
     cbv beta iota fix delta [String.append];
     cbn [String.length]; lia).
Qed.

Lemma chr_code (c : ascii) : chr (code c) = c.
Proof. unfold chr, code. rewrite N2Z.id. apply ascii_N_embedding. Qed.

Lemma code_range (c : ascii) : 0 <= code c < 256.
Proof.
  unfold code. pose proof (N_ascii_bounded c). lia.
Qed.

(** A byte from 0x80 on is copied by the reader. *)
Lemma scan_string_literal (c : ascii) (r : string) (fuel : nat) :
  (128 <=? code c) = true ->
  scan_string (S fuel) (String c r)
  = match scan_string fuel r with
    | Some (u, rest) => Some (String c u, rest)
    | None => None
    end.
Proof.
  intros Hc. destruct c as [b0 b1 b2 b3 b4 b5 b6 b7].
  destruct b7; [|destruct b0, b1, b2, b3, b4, b5, b6; discriminate Hc].
  clear Hc. destruct b0, b1, b2, b3, b4, b5, b6; reflexivity.
Qed.

(** The tests of [escape_string] that a byte from 0x80 on fails. *)
Lemma high_byte_tests (n : Z) :
  128 <= n ->
  ((n =? 34) || (n =? 92)) = false /\ (n =? 8) = false /\ (n =? 12) = false
  /\ (n =? 10) = false /\ (n =? 13) = false /\ (n =? 9) = false
  /\ (n <? 32) = false /\ (n <? 128) = false.
Proof.
  intros H. repeat split;
    rewrite ?orb_false_iff; repeat split;
    first [apply Z.eqb_neq; lia | apply Z.ltb_ge; lia].
Qed.

(** One step of [escape_string]. *)
Lemma escape_string_cons (c : ascii) (r : string) :
  escape_string (String c r)
  = ltac:(let t := eval cbn [escape_string] in (escape_string (String c r)) in
          exact t).
Proof. reflexivity. Qed.

Ltac high_byte H :=
  let T := fresh in
  pose proof (high_byte_tests _ H) as T;
  destruct T as (?E1 & ?E2 & ?E3 & ?E4 & ?E5 & ?E6 & ?E7 & ?E8);
  rewrite escape_string_cons; cbv beta iota zeta;
  rewrite E1, E2, E3, E4, E5, E6, E7, E8.

Lemma escape_string_2 (c c1 : ascii) (r1 : string) :
  ((194 <=? code c) && (code c <=? 223)) = true -> is_cont c1 = true ->
  escape_string (String c (String c1 r1)) = String c (String c1 (escape_string r1)).
Proof.
  intros Hc H1.
  assert (H : 128 <= code c) by lia.
  high_byte H. now rewrite Hc, H1.
Qed.

Lemma escape_string_3 (c c1 c2 : ascii) (r2 : string) :
  ((194 <=? code c) && (code c <=? 223)) = false ->
  ((224 <=? code c) && (code c <=? 239)) = true ->
  (((if code c =? 224 then 160 else 128) <=? code c1)
   && (code c1 <=? (if code c =? 237 then 159 else 191)) && is_cont c2) = true ->
  escape_string (String c (String c1 (String c2 r2)))
  = if (code c =? 226) && (code c1 =? 128)
       && ((code c2 =? 168) || (code c2 =? 169))
    then String backslash (String "u" (String "2" (String "0" (String "2"
           (String (if code c2 =? 168 then "8"%char else "9"%char)
              (escape_string r2))))))
    else String c (String c1 (String c2 (escape_string r2))).
Proof.
  intros Hc2 Hc3 Hok.
  assert (H : 128 <= code c) by (clear -Hc3; lia).
  high_byte H. now rewrite Hc2, Hc3, Hok.
Qed.

Lemma escape_string_4 (c c1 c2 c3 : ascii) (r3 : string) :
  ((194 <=? code c) && (code c <=? 223)) = false ->
  ((224 <=? code c) && (code c <=? 239)) = false ->
  ((240 <=? code c) && (code c <=? 244)) = true ->
  (((if code c =? 240 then 144 else 128) <=? code c1)
   && (code c1 <=? (if code c =? 244 then 143 else 191))
   && is_cont c2 && is_cont c3) = true ->
  escape_string (String c (String c1 (String c2 (String c3 r3))))
  = String c (String c1 (String c2 (String c3 (escape_string r3)))).
Proof.
  intros Hc2 Hc3 Hc4 Hok.
  assert (H : 128 <= code c) by (clear -Hc4; lia).
  high_byte H. now rewrite Hc2, Hc3, Hc4, Hok.
Qed.

Lemma scan_string_sep (b : bool) (t : string) (fuel : nat) :
  scan_string (S fuel)
    (String backslash (String "u" (String "2" (String "0" (String "2"
       (String (if b then "8"%char else "9"%char) t))))))
  = match scan_string fuel t with
    | Some (u, rest) =>
        Some (String (chr 226) (String (chr 128)
                (String (chr (if b then 168 else 169)) u)), rest)
    | None => None
    end.
Proof. destruct b; reflexivity. Qed.

Lemma is_cont_high (c : ascii) : is_cont c = true -> (128 <=? code c) = true.
Proof. unfold is_cont. intros H. now apply andb_true_iff in H as [H _]. Qed.

(** Reading back the body of a string of valid UTF-8. *)
Lemma scan_escape_utf8 (n : nat) :
  forall (s : string) (fuel : nat) (rest : string),
    (String.length s <= n)%nat ->
    utf8_valid s = true ->
    (String.length (escape_string s) < fuel)%nat ->
    scan_string fuel (String.append (escape_string s) (String dquote rest))
    = Some (s, rest).
Proof.
  induction n as [|n IH]; intros s fuel rest Hn Hv Hf.
  - destruct s; [|cbn in Hn; lia]. destruct fuel; [cbn in Hf; lia|]. reflexivity.
  - destruct s as [|c r].
    { destruct fuel; [cbn in Hf; lia|]. reflexivity. }
    cbn [String.length] in Hn. cbn [utf8_valid] in Hv. cbv zeta in Hv.
    destruct (code c <? 128) eqn:Hc.
    + (* one byte *)
      destruct fuel as [|fuel]; [lia|].
      pose proof (escape_string_length_head c r Hc) as Hlen.
      rewrite (scan_string_escape_head c r _ fuel Hc).
      rewrite (IH r fuel rest); [reflexivity|lia|exact Hv|lia].
    + assert (Hhigh : (128 <=? code c) = true).
      { apply Z.ltb_ge in Hc. now apply Z.leb_le. }
      destruct r as [|c1 r1]; [discriminate Hv|].
      cbn [String.length] in Hn.
      destruct ((194 <=? code c) && (code c <=? 223)) eqn:H2.
      * (* two bytes *)
        apply andb_true_iff in Hv as [Hc1 Hv].
        rewrite (escape_string_2 c c1 r1 H2 Hc1) in Hf |- *.
        cbn [String.length] in Hf.
        destruct fuel as [|[|fuel]]; [lia|lia|].
        rewrite !append_String.
        rewrite (scan_string_literal c _ _ Hhigh).
        rewrite (scan_string_literal c1 _ _ (is_cont_high c1 Hc1)).
        rewrite (IH r1 fuel rest); [reflexivity|lia|exact Hv|lia].
      * destruct ((224 <=? code c) && (code c <=? 239)) eqn:H3.
        -- (* three bytes *)
           destruct r1 as [|c2 r2]; [discriminate Hv|].
           cbn [String.length] in Hn.
           apply andb_true_iff in Hv as [Hok Hv].
           rewrite (escape_string_3 c c1 c2 r2 H2 H3 Hok) in Hf |- *.
           assert (Hc2 : is_cont c2 = true)
             by (now apply andb_true_iff in Hok as [_ Hok]).
           assert (Hc1 : (128 <=? code c1) = true).
           { apply andb_true_iff in Hok as [Hok _].
             apply andb_true_iff in Hok as [Hlo _].
             apply Z.leb_le in Hlo. apply Z.leb_le.
             destruct (code c =? 224); lia. }
           destruct ((code c =? 226) && (code c1 =? 128)
                     && ((code c2 =? 168) || (code c2 =? 169))) eqn:Hsep.
           ++ apply andb_true_iff in Hsep as [Hsep Hs2].
              apply andb_true_iff in Hsep as [Hs0 Hs1].
              apply Z.eqb_eq in Hs0. apply Z.eqb_eq in Hs1.
              assert (Hc2v : code c2 = if code c2 =? 168 then 168 else 169).
              { destruct (code c2 =? 168) eqn:E; [now apply Z.eqb_eq in E|].
                cbn [orb] in Hs2. now apply Z.eqb_eq in Hs2. }
              cbn [String.length] in Hf.
              destruct fuel as [|fuel]; [lia|].
              rewrite !append_String, scan_string_sep.
              rewrite (IH r2 fuel rest); [|lia|exact Hv|lia].
              rewrite <- Hs0, <- Hs1, <- Hc2v, !chr_code. reflexivity.
           ++ cbn [String.length] in Hf.
              destruct fuel as [|[|[|fuel]]]; [lia|lia|lia|].
              rewrite !append_String.
              rewrite (scan_string_literal c _ _ Hhigh).
              rewrite (scan_string_literal c1 _ _ Hc1).
              rewrite (scan_string_literal c2 _ _ (is_cont_high c2 Hc2)).
              rewrite (IH r2 fuel rest); [reflexivity|lia|exact Hv|lia].
        -- destruct ((240 <=? code c) && (code c <=? 244)) eqn:H4;
             [|discriminate Hv].
           (* four bytes *)
           destruct r1 as [|c2 [|c3 r3]]; [discriminate Hv|discriminate Hv|].
           cbn [String.length] in Hn.
           apply andb_true_iff in Hv as [Hok Hv].
           rewrite (escape_string_4 c c1 c2 c3 r3 H2 H3 H4 Hok) in Hf |- *.
           apply andb_true_iff in Hok as [Hok Hc3].
           apply andb_true_iff in Hok as [Hok Hc2].
           assert (Hc1 : (128 <=? code c1) = true).
           { apply andb_true_iff in Hok as [Hlo _].
             apply Z.leb_le in Hlo. apply Z.leb_le.
             destruct (code c =? 240); lia. }
           cbn [String.length] in Hf.
           destruct fuel as [|[|[|[|fuel]]]]; [lia|lia|lia|lia|].
           rewrite !append_String.
           rewrite (scan_string_literal c _ _ Hhigh).
           rewrite (scan_string_literal c1 _ _ Hc1).
           rewrite (scan_string_literal c2 _ _ (is_cont_high c2 Hc2)).
           rewrite (scan_string_literal c3 _ _ (is_cont_high c3 Hc3)).
           rewrite (IH r3 fuel rest); [reflexivity|lia|exact Hv|lia].
Qed.

(** *** Values that read back *)

Lemma reads_back_TNil : reads_back TNil.
Proof.
  split; [reflexivity|]. split; [reflexivity|]. split; [reflexivity|].
  intros fuel rest Hf _. destruct fuel as [|fuel]; [cbn in Hf; lia|]. reflexivity.
Qed.

Lemma reads_back_TBool (b : bool) : reads_back (TBool b).
Proof.
  split; [reflexivity|]. split; [now destruct b|]. split; [now destruct b|].
  intros fuel rest Hf _. destruct fuel as [|fuel]; [cbn in Hf; lia|].
  destruct b; reflexivity.
Qed.

Lemma number_text_head (txt : string) (j : jnumber) :
  scan_number txt = Some (j, EmptyString) -> head_ok txt = true.
Proof.
  intros H. destruct txt as [|c r]; [discriminate H|].
  pose proof (scan_number_head c r _ j H) as Hc.
  destruct (number_head c Hc) as (Hws & _ & _ & _ & _ & _ & _ & Hb & _).
  cbn [head_ok]. now rewrite Hws, Hb.
Qed.

(** Every integer of magnitude at most [2^53] reads back. *)
Lemma int_reads_back_small (n : Z) : Z.abs n <= 2 ^ 53 -> int_reads_back n = true.
Proof.
  intros Hn. pose proof (parseJSONValue_int n Hn) as H.
  unfold int_reads_back. cbn [parseJSONValue] in H. cbv zeta in H |- *.
  destruct (fits_int64 (Result_Float (JNumber (n <? 0) (Z.abs n) 0)));
    [|discriminate H].
  injection H as ->. cbn [andb]. apply Z.eqb_refl.
Qed.

Lemma reads_back_TInt64 (n : Z) : int_reads_back n = true -> reads_back (TInt64 n).
Proof.
  intros Hn. split; [reflexivity|].
  split; [exact (number_text_head _ _ (scan_format_int n))|].
  split.
  { unfold int_reads_back in Hn. cbv zeta in Hn.
    apply andb_true_iff in Hn as [Hfit Heq]. apply Z.eqb_eq in Heq.
    cbn [to_result parseJSONValue jtype]. cbv zeta. now rewrite Hfit, Heq. }
  intros fuel rest Hf Hd. destruct fuel as [|fuel]; [lia|].
  now apply parse_value_int.
Qed.

Lemma reads_back_TFloat64 (f : float64) :
  float_reads_back f = true -> reads_back (TFloat64 f).
Proof.
  unfold float_reads_back, reads_back, text. cbn [encode to_result jtype].
  destruct (format_float f) as [txt|]; [|discriminate].
  destruct (scan_number txt) as [[j r]|] eqn:Hs; [|discriminate].
  destruct r; [|discriminate]. intros H.
  apply andb_true_iff in H as [Hfit Heq].
  apply negb_true_iff in Hfit. apply bool_decide_eq_true in Heq.
  split; [reflexivity|]. split; [exact (number_text_head _ _ Hs)|].
  split; [cbn [parseJSONValue]; now rewrite Hfit, Heq|].
  intros fuel rest Hf Hd. destruct fuel as [|fuel]; [lia|].
  now apply parse_value_number.
Qed.

Lemma quote_append (s tail : string) :
  String.append (quote s) tail
  = String dquote (String.append (escape_string s) (String dquote tail)).
Proof. unfold quote, str1. now rewrite append_String, append_assoc. Qed.

Lemma scan_quoted (s tail : string) :
  utf8_valid s = true ->
  scan_string
    (String.length (String.append (escape_string s) (String dquote tail)))
    (String.append (escape_string s) (String dquote tail))
  = Some (s, tail).
Proof.
  intros Hv. apply (scan_escape_utf8 (String.length s)); [lia|exact Hv|].
  rewrite length_append. cbn [String.length]. lia.
Qed.

Lemma reads_back_TString (s : string) : utf8_valid s = true -> reads_back (TString s).
Proof.
  intros Ha. split; [reflexivity|]. split; [reflexivity|]. split; [reflexivity|].
  intros fuel rest Hf _. destruct fuel as [|fuel]; [lia|].
  change (text (TString s)) with (quote s). rewrite quote_append.
  change (parse_value (S fuel) (String dquote ?r))
    with (match scan_string (String.length r) r with
          | Some (t, rest) => Some (RString t, rest)
          | None => None
          end).
  now rewrite scan_quoted.
Qed.

(** *** Members and elements *)

Lemma skip_ws_delim (tail : string) :
  delim tail = true -> skip_ws tail = tail.
Proof.
  intros H. destruct (delim_cases tail H) as [->|(r & [->| [->| ->]])]; reflexivity.
Qed.

Lemma parse_members_step (fuel : nat) (k : string) (v : tval) (tail : string) :
  utf8_valid k = true -> reads_back v ->
  (String.length (text v) < fuel)%nat -> delim tail = true ->
  parse_members (S fuel) (String.append (member_text (k, v)) tail)
  = match tail with
    | String c3 r4 =>
        if Ascii.eqb c3 "," then
          match parse_members fuel r4 with
          | Some (ms, r5) => Some ((k, to_result v) :: ms, r5)
          | None => None
          end
        else if Ascii.eqb c3 "}" then Some ([(k, to_result v)], r4)
        else None
    | EmptyString => None
    end.
Proof.
  intros Hk (_ & _ & _ & Hparse) Hf Hd.
  unfold member_text. cbn [fst snd].
  rewrite append_assoc, quote_append, append_String.
  change (parse_members (S fuel) (String dquote ?r))
    with (match scan_string (String.length r) r with
          | None => None
          | Some (k, r1) =>
              match skip_ws r1 with
              | String c1 r2 =>
                  if Ascii.eqb c1 ":" then
                    match parse_value fuel r2 with
                    | None => None
                    | Some (v, r3) =>
                        match skip_ws r3 with
                        | String c3 r4 =>
                            if Ascii.eqb c3 "," then
                              match parse_members fuel r4 with
                              | Some (ms, r5) => Some ((k, v) :: ms, r5)
                              | None => None
                              end
                            else if Ascii.eqb c3 "}" then Some ([(k, v)], r4)
                            else None
                        | EmptyString => None
                        end
                    end
                  else None
              | EmptyString => None
              end
          end).
  rewrite (scan_quoted k _ Hk). cbn [skip_ws]. 
  change (is_ws ":") with false. cbv beta iota.
  change (Ascii.eqb ":" ":") with true. cbv beta iota.
  rewrite (Hparse fuel tail Hf Hd), (skip_ws_delim tail Hd). reflexivity.
Qed.

Lemma parse_elems_step (fuel : nat) (v : tval) (tail : string) :
  reads_back v ->
  (String.length (text v) < fuel)%nat -> delim tail = true ->
  parse_elems (S fuel) (String.append (text v) tail)
  = match tail with
    | String c r2 =>
        if Ascii.eqb c "," then
          match parse_elems fuel r2 with
          | Some (xs, r3) => Some (to_result v :: xs, r3)
          | None => None
          end
        else if Ascii.eqb c "]" then Some ([to_result v], r2)
        else None
    | EmptyString => None
    end.
Proof.
  intros (_ & _ & _ & Hparse) Hf Hd. cbn [parse_elems].
  rewrite (Hparse fuel tail Hf Hd), (skip_ws_delim tail Hd). reflexivity.
Qed.

Lemma member_text_length (k : string) (v : tval) :
  (String.length (text v) < String.length (member_text (k, v)))%nat.
Proof.
  unfold member_text. cbn [fst snd]. rewrite length_append.
  cbn [String.length]. lia.
Qed.

Lemma join_comma_cons2 (x y : string) (l : list string) :
  join_comma (x :: y :: l) = String.append x (String "," (join_comma (y :: l))).
Proof. reflexivity. Qed.

Lemma parse_members_text (kvs : list (string * tval)) :
  kvs <> [] ->
  Forall (fun kv => utf8_valid (fst kv) = true /\ reads_back (snd kv)) kvs ->
  forall (fuel : nat) (rest : string),
    (String.length (join_comma (map member_text kvs)) < fuel)%nat ->
    parse_members fuel
      (String.append (join_comma (map member_text kvs)) (String "}" rest))
    = Some (map (fun kv => (fst kv, to_result (snd kv))) kvs, rest).
Proof.
  intros Hne H. revert Hne.
  induction H as [|[k v] kvs [Hk Hv] Hrest IH]; intros Hne fuel rest Hf.
  - contradiction.
  - destruct fuel as [|fuel]; [lia|].
    pose proof (member_text_length k v) as Hlen.
    destruct kvs as [|kv2 kvs].
    + cbn [map join_comma] in Hf |- *.
      rewrite (parse_members_step fuel k v _ Hk Hv); [reflexivity|lia|reflexivity].
    + cbn [map] in Hf |- *. rewrite join_comma_cons2 in Hf |- *.
      rewrite length_append in Hf. cbn [String.length] in Hf.
      rewrite append_assoc, append_String.
      rewrite (parse_members_step fuel k v _ Hk Hv); [|lia|reflexivity].
      change (Ascii.eqb "," ",") with true. cbv beta iota.
      cbn [map] in IH. rewrite IH; [reflexivity|discriminate|lia].
Qed.

Lemma parse_elems_text (xs : list tval) :
  xs <> [] ->
  Forall reads_back xs ->
  forall (fuel : nat) (rest : string),
    (S (String.length (join_comma (map text xs))) < fuel)%nat ->
    parse_elems fuel (String.append (join_comma (map text xs)) (String "]" rest))
    = Some (map to_result xs, rest).
Proof.
  intros Hne H. revert Hne.
  induction H as [|v xs Hv Hrest IH]; intros Hne fuel rest Hf.
  - contradiction.
  - destruct fuel as [|fuel]; [lia|].
    destruct xs as [|v2 xs].
    + cbn [map join_comma] in Hf |- *.
      rewrite (parse_elems_step fuel v _ Hv); [reflexivity|lia|reflexivity].
    + cbn [map] in Hf |- *. rewrite join_comma_cons2 in Hf |- *.
      rewrite length_append in Hf. cbn [String.length] in Hf.
      rewrite append_assoc, append_String.
      rewrite (parse_elems_step fuel v _ Hv); [|lia|reflexivity].
      change (Ascii.eqb "," ",") with true. cbv beta iota.
      cbn [map] in IH. rewrite IH; [reflexivity|discriminate|lia].
Qed.

Lemma text_TMap (kvs : list (string * tval)) :
  ascending (map fst kvs) = true ->
  Forall (fun kv => reads_back (snd kv)) kvs ->
  encode (TMap kvs)
  = Some (String "{" (String.append (join_comma (map member_text kvs)) "}")).
Proof.
  intros Hasc H. rewrite encode_TMap.
  - rewrite kv_sort_ascending.
    + now rewrite map_map.
    + now rewrite map_map.
  - eapply Forall_impl; [exact H|]. now intros kv (He & _).
Qed.

Lemma text_TSlice (t : gtype) (xs : list tval) :
  Forall reads_back xs ->
  encode (TSlice t xs)
  = Some (String "[" (String.append (join_comma (map text xs)) "]")).
Proof.
  intros H. apply encode_TSlice.
  eapply Forall_impl; [exact H|]. now intros x (He & _).
Qed.

Lemma reads_back_TMap (kvs : list (string * tval)) :
  ascending (map fst kvs) = true ->
  Forall (fun kv => utf8_valid (fst kv) = true /\ reads_back (snd kv)) kvs ->
  reads_back (TMap kvs).
Proof.
  intros Hasc H.
  assert (Hrb : Forall (fun kv => reads_back (snd kv)) kvs).
  { eapply Forall_impl; [exact H|]. now intros kv [_ Hr]. }
  pose proof (text_TMap kvs Hasc Hrb) as Henc.
  pose proof (encode_text _ _ Henc) as Htxt.
  split; [now rewrite Htxt|]. split; [now rewrite Htxt|]. split.
  - cbn [to_result jtype]. rewrite parseJSONValue_RObject.
    rewrite parseJSONToRawData_results.
    + now rewrite (fold_kv_insert_ascending kvs []).
    + eapply Forall_impl; [exact Hrb|]. now intros kv (_ & _ & Hp & _).
  - intros fuel rest Hf Hd. rewrite Htxt in Hf |- *.
    destruct fuel as [|fuel]; [lia|].
    cbn [String.length] in Hf. rewrite length_append in Hf.
    cbn [String.length] in Hf.
    rewrite append_String, append_assoc, append_String, append_Empty.
    cbn [to_result].
    destruct kvs as [|[k v] kvs].
    + reflexivity.
    + pose proof (parse_members_text ((k, v) :: kvs) ltac:(discriminate) H
                    fuel rest ltac:(lia)) as Hm.
      assert (Hhead : exists r', String.append (join_comma (map member_text ((k, v) :: kvs)))
                                   (String "}" rest) = String dquote r').
      { destruct kvs as [|kv2 kvs]; cbn [map]; [cbn [join_comma]|rewrite join_comma_cons2];
          unfold member_text at 1; cbn [fst snd];
          rewrite !append_assoc, quote_append; eauto. }
      destruct Hhead as (r' & Hr'). rewrite Hr' in Hm |- *.
      change (parse_value (S fuel) (String "{" (String dquote r')))
        with (match parse_members fuel (String dquote r') with
              | Some (ms, rest) => Some (RObject ms, rest)
              | None => None
              end).
      now rewrite Hm.
Qed.

Lemma head_ok_cases (txt : string) :
  head_ok txt = true ->
  exists c r, txt = String c r /\ is_ws c = false /\ Ascii.eqb c "]" = false.
Proof.
  destruct txt as [|c r]; [discriminate|]. cbn [head_ok]. intros H.
  apply andb_true_iff in H as [H1 H2].
  apply negb_true_iff in H1. apply negb_true_iff in H2. eauto.
Qed.

Lemma reads_back_TSlice (t : gtype) (xs : list tval) :
  xs <> [] ->
  Forall (fun x => is_TNil x = false /\ reads_back x) xs ->
  array_elem_type None (map (fun x => (x, jtype x)) xs) = Some t ->
  reads_back (TSlice t xs).
Proof.
  intros Hne H Hty.
  assert (Hrb : Forall reads_back xs).
  { eapply Forall_impl; [exact H|]. now intros x [_ Hr]. }
  pose proof (text_TSlice t xs Hrb) as Henc.
  pose proof (encode_text _ _ Henc) as Htxt.
  split; [now rewrite Htxt|]. split; [now rewrite Htxt|]. split.
  - cbn [to_result jtype]. rewrite parseJSONValue_RArray.
    + unfold make_array. rewrite Hty.
      assert (Hnil : existsb (fun v : tval * option gtype =>
                                match fst v with TNil => true | _ => false end)
                       (map (fun x => (x, jtype x)) xs) = false).
      { clear -H. induction H as [|x xs [Hx _] _ IH]; [reflexivity|].
        cbn [map existsb fst]. rewrite IH, orb_false_r.
        now destruct x. }
      rewrite Hnil, map_map. cbn [fst]. now rewrite map_id.
    + eapply Forall_impl; [exact Hrb|]. now intros x (_ & _ & Hp & _).
  - intros fuel rest Hf Hd. rewrite Htxt in Hf |- *.
    destruct fuel as [|fuel]; [lia|].
    cbn [String.length] in Hf. rewrite length_append in Hf.
    cbn [String.length] in Hf.
    rewrite append_String, append_assoc, append_String, append_Empty.
    cbn [to_result].
    pose proof (parse_elems_text xs Hne Hrb fuel rest ltac:(lia)) as He.
    assert (Hhead : exists c r',
               String.append (join_comma (map text xs)) (String "]" rest) = String c r'
               /\ is_ws c = false /\ Ascii.eqb c "]" = false).
    { destruct xs as [|x xs]; [contradiction|].
      apply Forall_cons_1 in Hrb as [(_ & Hh & _) _].
      destruct (head_ok_cases _ Hh) as (c & r & Hx & Hws & Hb).
      destruct xs as [|x2 xs]; cbn [map]; [cbn [join_comma]|rewrite join_comma_cons2];
        rewrite Hx, ?append_assoc, append_String; eauto. }
    destruct Hhead as (c & r' & Hr' & Hws & Hb). rewrite Hr' in He |- *.
    cbn [parse_value skip_ws]. change (is_ws "[") with false. cbv beta iota.
    change (Ascii.eqb "[" "{") with false. change (Ascii.eqb "[" "[") with true.
    cbv beta iota. cbn [skip_ws]. rewrite Hws, Hb, He. reflexivity.
Qed.

(** Every stable value reads back. *)
Lemma stable_reads_back (v : tval) : stable v = true -> reads_back v.
Proof.
  induction v as [|b|n|n|f|re im|s| |kvs IH|t|t xs IH] using tval_ind';
    cbn [stable]; intros Hs; try discriminate.
  - apply reads_back_TNil.
  - apply reads_back_TBool.
  - now apply reads_back_TInt64.
  - now apply reads_back_TFloat64.
  - now apply reads_back_TString.
  - apply andb_true_iff in Hs as [Hasc Hall].
    apply reads_back_TMap; [exact Hasc|].
    rewrite forallb_forall in Hall. rewrite List.Forall_forall in IH |- *.
    intros kv Hin. specialize (Hall kv Hin). apply andb_true_iff in Hall as [Hk Hv].
    split; [exact Hk|]. now apply IH.
  - apply andb_true_iff in Hs as [Hs Hty]. apply andb_true_iff in Hs as [Hne Hall].
    apply bool_decide_eq_true in Hty.
    apply reads_back_TSlice; [now destruct xs| |exact Hty].
    rewrite forallb_forall in Hall. rewrite List.Forall_forall in IH |- *.
    intros x Hin. specialize (Hall x Hin). apply andb_true_iff in Hall as [Hx Hv].
    apply negb_true_iff in Hx. split; [exact Hx|]. now apply IH.
Qed.

Lemma Parse_String (body : string) :
  Parse (String.append
           (String.append dataMetaBegin (String.append dataTypeJSON dataMetaEnd))
           body)
  = ParseJSON body.
Proof. reflexivity. Qed.

Lemma gjson_Parse_text (v : tval) :
  reads_back v -> gjson_Parse (text v) = Some (to_result v).
Proof.
  intros (_ & _ & _ & Hparse). unfold gjson_Parse.
  pose proof (Hparse (S (String.length (text v))) EmptyString ltac:(lia) eq_refl) as H.
  rewrite append_Empty_r in H. now rewrite H.
Qed.


(** Text beyond ASCII comes back as well: a two-byte character and the
    line separator U+2028, which the encoder escapes. *)
Example roundtrip_non_ascii :
  let s := String "195" (String "169"
             (String "226" (String "128" (String "168" EmptyString)))) in
  Parse (String_ (TMap [("k", TString s)])) = Parsed (TMap [("k", TString s)]).
Proof. vm_compute. reflexivity. Qed.


(** * Further properties *)

(** ** Reading along a path *)

Lemma Get_heap (d : RawData) (fields : list string) (v : value) (h h' : heap) :
  Get d fields h = Ok v h' -> h' = h.
Proof.
  intros H. destruct fields as [|k fields].
  - cbn [Get] in H. unfold ret in H. congruence.
  - unfold Get in H. unfold bind in H.
    destruct (get d (k :: fields) None h) as [r h1| |] eqn:Hg; try discriminate.
    pose proof (get_None_heap _ _ _ _ _ Hg) as ->.
    destruct (IsValid r) eqn:Hv.
    + destruct r as [|x|x|t a i]; try discriminate;
        exact (load_Ok _ _ _ _ H).
    + unfold ret in H. congruence.
Qed.

(** X1: reading leaves the store as it is, although [get] stores back
    every value it steps through. *)
Theorem X1_Query_leaves_store (d : RawData) (query : string) (v : value)
    (h h' : heap) :
  Query d query h = Ok v h' -> h' = h.
Proof.
  destruct query as [|c q].
  - cbn [Query]. unfold ret. congruence.
  - apply Get_heap.
Qed.

Lemma X1_Query_leaves_store_witness :
  Query (Some 0%nat) "a.arr.1" seq_store = Ok (VInt64 2) seq_store
  /\ seq_store = seq_store.
Proof.
  assert (H : Query (Some 0%nat) "a.arr.1" seq_store = Ok (VInt64 2) seq_store)
    by (vm_compute; reflexivity).
  split; [exact H|].
  exact (X1_Query_leaves_store (Some 0%nat) "a.arr.1" (VInt64 2) seq_store seq_store H).
Defined.

Lemma get_loop_app (l1 l2 : list string) :
  forall (val : rvalue) (h : heap),
    get_loop val (l1 ++ l2) None h
    = (let* rp := get_loop val l1 None in get_loop rp l2 None) h.
Proof.
  induction l1 as [|f l1 IH]; intros val h.
  - reflexivity.
  - cbn [app get_loop].
    rewrite bind_assoc. apply bind_ext. intros val1 h1.
    rewrite bind_assoc. apply bind_ext. intros c h2.
    destruct c as [|b|n|n|fl|re im|str|m|t s];
      try (rewrite bind_ret_l; now rewrite get_loop_Invalid_any).
    + rewrite bind_assoc. apply bind_ext. intros kv h3.
      destruct (IsValid kv) eqn:Hv;
        [|rewrite bind_ret_l; now rewrite get_loop_Invalid_any].
      cbn [callModifier]. repeat (rewrite bind_assoc || rewrite bind_ret_l).
      apply bind_ext. intros u h4. rewrite Hv. apply IH.
    + destruct (ParseInt f) as [n|];
        [|rewrite bind_ret_l; now rewrite get_loop_Invalid_any].
      destruct ((n <? 0) || (n >? MaxInt32));
        [rewrite bind_ret_l; now rewrite get_loop_Invalid_any|].
      cbv zeta.
      destruct (decide (s_len s <= Z.to_nat n)%nat);
        [rewrite bind_ret_l; now rewrite get_loop_Invalid_any|].
      destruct (s_arr s) as [a|]; [|reflexivity].
      cbn [callModifier]. repeat (rewrite bind_assoc || rewrite bind_ret_l).
      apply bind_ext. intros u h4. apply IH.
Qed.

(** The fields after the first are resolved from the value the first ones
    reach. *)
Lemma get_app (d : RawData) (fields fs2 : list string) (h : heap) :
  fields <> [] -> fs2 <> [] ->
  get d (fields ++ fs2) None h
  = (let* rp := get d fields None in get_loop rp fs2 None) h.
Proof.
  intros Hf H2. destruct fields as [|k r1]; [contradiction|].
  cbn [app get]. rewrite bind_assoc. apply bind_ext. intros val h1.
  assert (Hinv : forall hh, get_loop Invalid fs2 None hh = Ok Invalid hh)
    by (intros hh; apply get_loop_Invalid_any).
  destruct r1 as [|f r1].
  - cbn [app]. destruct fs2 as [|f2 fs2]; [contradiction|].
    destruct val as [|x|x|t a i]; try (rewrite bind_ret_l; try reflexivity).
    + destruct x; rewrite bind_ret_l; reflexivity.
  - cbn [app].
    destruct val as [|x|x|t a i];
      try (rewrite bind_ret_l; now rewrite Hinv);
      try (apply (get_loop_app (f :: r1) fs2)).
    destruct x; try (apply (get_loop_app (f :: r1) fs2)).
    rewrite bind_ret_l. now rewrite Hinv.
Qed.

(** One step from a value that holds a map. *)
Lemma get_loop_map_step (rp : rvalue) (m : RawData) (k : string) (h : heap)
    (md : option modifier_t) :
  IsValid rp = true -> load rp h = Ok (VMap m) h ->
  get_loop rp [k] md h
  = (let* kv := MapIndex m k in
     if IsValid kv then
       let* kv' := callModifier true md kv in
       SetMapIndex m k kv' ;;
       if IsValid kv' then ret kv' else ret Invalid
     else ret Invalid) h.
Proof.
  intros Hv Hld.
  destruct (unwrap_valid rp _ h h Hv Hld ltac:(discriminate)) as (v1 & Hu & Hv1 & Hld1).
  cbn [get_loop]. rewrite (bind_Ok _ _ _ _ _ Hu), (bind_Ok _ _ _ _ _ Hld1).
  reflexivity.
Qed.

Lemma Get_unfold (d : RawData) (k : string) (fields : list string) (h : heap) :
  Get d (k :: fields) h
  = (let* v := get d (k :: fields) None in
     if IsValid v then Interface v else ret VNil) h.
Proof. reflexivity. Qed.

Lemma bind_ext_l {A B} (c1 c2 : M A) (k : A -> M B) (h : heap) :
  c1 h = c2 h -> bind c1 k h = bind c2 k h.
Proof. intros H. unfold bind. now rewrite H. Qed.

Lemma bind_Panic {A B} (c : M A) (k : A -> M B) (h : heap) (msg : string) :
  c h = Panic msg -> bind c k h = Panic msg.
Proof. intros H. unfold bind. now rewrite H. Qed.

Lemma bind_OutOfFuel {A B} (c : M A) (k : A -> M B) (h : heap) :
  c h = OutOfFuel -> bind c k h = OutOfFuel.
Proof. intros H. unfold bind. now rewrite H. Qed.

(** From a value that holds a map, the loop of [get] finds what [Get] on
    that map finds. *)
Lemma get_loop_as_get (rp : rvalue) (m : RawData) (f : string)
    (r2 : list string) (h : heap) :
  IsValid rp = true -> load rp h = Ok (VMap m) h ->
  (let* v := get_loop rp (f :: r2) None in
   if IsValid v then Interface v else ret VNil) h
  = Get m (f :: r2) h.
Proof.
  intros Hv Hld. rewrite Get_unfold.
  rewrite (bind_ext_l _ _ _ _ (get_loop_app [f] r2 rp h)).
  rewrite bind_assoc.
  rewrite (bind_ext_l _ _ _ _ (get_loop_map_step rp m f h None Hv Hld)).
  rewrite bind_assoc. cbn [get]. rewrite bind_assoc.
  destruct (MapIndex m f h) as [kv h1| |] eqn:Hm;
    [|now rewrite !(bind_Panic _ _ _ _ Hm)|now rewrite !(bind_OutOfFuel _ _ _ Hm)].
  rewrite !(bind_Ok _ _ _ _ _ Hm).
  pose proof (MapIndex_Ok _ _ _ _ _ Hm) as [-> Hkv].
  destruct m as [l|]; [|subst kv; cbn [IsValid]; rewrite !bind_ret_l;
                        now rewrite (bind_ext_l _ _ _ _ (get_loop_Invalid_any r2 None h))].
  destruct Hkv as (e & He & ->).
  destruct (e !! f) as [x|] eqn:Hx;
    [|cbn [IsValid]; rewrite !bind_ret_l;
      now rewrite (bind_ext_l _ _ _ _ (get_loop_Invalid_any r2 None h))].
  cbn [IsValid callModifier]. rewrite !bind_assoc, bind_ret_l, bind_assoc.
  rewrite (bind_Ok _ _ _ _ _
             (SetMapIndex_same l f x e h He Hx (RIface x) eq_refl eq_refl)).
  cbn [IsValid]. rewrite bind_ret_l.
  destruct x, r2; reflexivity.
Qed.

(** X2: paths compose. When the first fields of a path lead to a mapping,
    the whole path finds what the remaining fields find in that mapping. *)
Theorem X2_Get_app (d m : RawData) (fs1 fs2 : list string) (h h' : heap) :
  Get d fs1 h = Ok (VMap m) h' ->
  Get d (fs1 ++ fs2) h = Get m fs2 h.
Proof.
  intros H. pose proof (Get_heap _ _ _ _ _ H) as ->.
  destruct fs2 as [|f r2]; [now rewrite app_nil_r|].
  destruct fs1 as [|k r1].
  - cbn [Get] in H. unfold ret in H. injection H as <-. reflexivity.
  - destruct (Get_resolved _ _ _ _ _ H ltac:(discriminate)) as (r & Hg & Hv & Hld).
    rewrite <- (get_loop_as_get r m f r2 h Hv Hld).
    change ((k :: r1) ++ f :: r2) with (k :: (r1 ++ f :: r2)).
    rewrite Get_unfold. change (k :: (r1 ++ f :: r2)) with ((k :: r1) ++ f :: r2).
    rewrite (bind_ext_l _ _ _ _
               (get_app d (k :: r1) (f :: r2) h ltac:(discriminate) ltac:(discriminate))).
    rewrite bind_assoc. now rewrite (bind_Ok _ _ _ _ _ Hg).
Qed.

Lemma X2_Get_app_witness :
  Get (Some 0%nat) (["a"] ++ ["arr"; "0"]) seq_store
  = Get (Some 1%nat) ["arr"; "0"] seq_store.
Proof.
  apply (X2_Get_app (Some 0%nat) (Some 1%nat) ["a"] ["arr"; "0"] seq_store seq_store).
  vm_compute. reflexivity.
Defined.

(** X3: below a sequence a field is read as a decimal index. An index of
    the sequence (below [2^31]) yields the element there; a field that is
    no number, a negative number or a number from the length on yields nil. *)
Theorem X3_Get_index (d : RawData) (fields : list string) (t : gtype)
    (s : slice) (a : loc) (xs : list value) (f : string) (h h' : heap) :
  Get d fields h = Ok (VSlice t s) h' ->
  s_arr s = Some a -> h !! a = Some (OArr xs) ->
  (s_off s + s_len s <= List.length xs)%nat ->
  Get d (fields ++ [f]) h = Ok (index_result s xs f) h.
Proof.
  intros H Harr Ha Hwf. pose proof (Get_heap _ _ _ _ _ H) as ->.
  destruct fields as [|k r1]; [cbn [Get] in H; unfold ret in H; discriminate|].
  destruct (Get_resolved _ _ _ _ _ H ltac:(discriminate)) as (r & Hg & Hv & Hld).
  destruct (unwrap_valid r _ h h Hv Hld ltac:(discriminate)) as (v1 & Hu & Hv1 & Hld1).
  change ((k :: r1) ++ [f]) with (k :: (r1 ++ [f])).
  rewrite Get_unfold. change (k :: (r1 ++ [f])) with ((k :: r1) ++ [f]).
  rewrite (bind_ext_l _ _ _ _
             (get_app d (k :: r1) [f] h ltac:(discriminate) ltac:(discriminate))).
  rewrite bind_assoc, (bind_Ok _ _ _ _ _ Hg).
  cbn [get_loop]. rewrite !bind_assoc.
  rewrite (bind_Ok _ _ _ _ _ Hu), bind_assoc, (bind_Ok _ _ _ _ _ Hld1).
  unfold index_result.
  destruct (ParseInt f) as [n|]; [|reflexivity].
  destruct ((n <? 0) || (n >? MaxInt32)); [reflexivity|].
  cbv zeta.
  destruct (decide (s_len s <= Z.to_nat n)%nat) as [|Hlt]; [reflexivity|].
  rewrite Harr. cbn [callModifier]. rewrite bind_assoc, bind_ret_l, bind_assoc.
  destruct (lookup_lt_is_Some_2 xs (s_off s + Z.to_nat n)%nat ltac:(lia)) as [x Hx].
  assert (Hr : read_elem a (s_off s + Z.to_nat n) h = Ok x h).
  { unfold read_elem, bind, read_arr. rewrite Ha, Hx. reflexivity. }
  rewrite (bind_Ok _ _ _ _ _
             (Set_same t a _ x xs h Ha Hx (RElem t a (s_off s + Z.to_nat n))
                Hr eq_refl)).
  rewrite bind_ret_l. cbn [IsValid Interface load]. rewrite Hr, Hx. reflexivity.
Qed.

Lemma X3_Get_index_witness :
  Get (Some 0%nat) (["a"; "arr"] ++ ["1"]) seq_store
  = Ok (index_result (Slice (Some 2%nat) 0 3 3) [VInt64 1; VInt64 2; VInt64 3] "1")
       seq_store.
Proof.
  apply (X3_Get_index (Some 0%nat) ["a"; "arr"] tInt64 (Slice (Some 2%nat) 0 3 3)
           2%nat [VInt64 1; VInt64 2; VInt64 3] "1" seq_store seq_store).
  - vm_compute. reflexivity.
  - reflexivity.
  - reflexivity.
  - cbn. lia.
Defined.

(** ** Deleting an element of a sequence *)

(** The last field of a path, with the modifier called on what it finds. *)
Lemma get_snoc_modifier (d : RawData) (fields : list string) (k : string)
    (md : modifier_t) (h : heap) :
  fields <> [] ->
  get d (fields ++ [k]) (Some md) h
  = (let* rp := get d fields None in get_loop rp [k] (Some md)) h.
Proof.
  intros Hf. destruct fields as [|k0 r0]; [contradiction|].
  cbn [app get]. rewrite bind_assoc. apply bind_ext. intros val h1.
  destruct r0 as [|f r0].
  - cbn [app].
    destruct val as [|x|x|t a i]; try (rewrite bind_ret_l; reflexivity).
    destruct x; rewrite bind_ret_l; reflexivity.
  - cbn [app].
    destruct val as [|x|x|t a i];
      try (rewrite bind_ret_l; reflexivity);
      try (apply (get_loop_snoc (f :: r0) k (Some md))).
    destruct x; try (apply (get_loop_snoc (f :: r0) k (Some md))).
    rewrite bind_ret_l. reflexivity.
Qed.

(** A modifier on the entry [k] of a mapping that a path leads to: it is
    called on the entry, and its result is stored under [k]. *)
Lemma get_map_entry (d : RawData) (init : list string) (k : string)
    (l0 : loc) (e : gmap string value) (x : value) (md : modifier_t)
    (h h' : heap) :
  Get d init h = Ok (VMap (Some l0)) h' ->
  h !! l0 = Some (OMap e) -> e !! k = Some x -> x <> VNil ->
  get d (init ++ [k]) (Some md) h
  = (let* v := md (RIface x) in SetMapIndex (Some l0) k v ;; ret v) h.
Proof.
  intros H He Hx Hnil. pose proof (Get_heap _ _ _ _ _ H) as ->.
  assert (Hm : MapIndex (Some l0) k h = Ok (RIface x) h).
  { cbn [MapIndex]. unfold bind, read_map. rewrite He. unfold ret. now rewrite Hx. }
  destruct init as [|k0 r0].
  - cbn [Get] in H. unfold ret in H. injection H as ->.
    cbn [app get]. rewrite (bind_Ok _ _ _ _ _ Hm).
    transitivity ((let* v := md (RIface x) in
                   (if IsValid v then let* y := Interface v in map_assign (Some l0) k y
                    else map_delete (Some l0) k) ;; ret v) h).
    { destruct x; try contradiction; reflexivity. }
    apply bind_ext. intros v h2. destruct v; reflexivity.
  - destruct (Get_resolved _ _ _ _ _ H ltac:(discriminate)) as (r & Hg & Hv & Hld).
    rewrite (get_snoc_modifier d (k0 :: r0) k md h ltac:(discriminate)).
    rewrite (bind_Ok _ _ _ _ _ Hg).
    rewrite (get_loop_map_step r (Some l0) k h (Some md) Hv Hld).
    rewrite (bind_Ok _ _ _ _ _ Hm). cbn [IsValid callModifier].
    apply bind_ext. intros v h2. apply bind_ext. intros u h3.
    destruct v; reflexivity.
Qed.

(** X4: deleting the last index of a sequence that is the entry of a
    mapping panics: the sequence reached through the mapping is not
    addressable, and [SetLen] refuses it. *)
Theorem X4_delete_last_index_panics (d : RawData) (query : string)
    (init : list string) (k : string) (l0 : loc) (e : gmap string value)
    (t : gtype) (s : slice) (idx : Z) (h h' : heap) :
  removelast (split_dot query) = init ++ [k] ->
  ParseInt (List.last (split_dot query) EmptyString) = Some idx ->
  Get d init h = Ok (VMap (Some l0)) h' ->
  h !! l0 = Some (OMap e) -> e !! k = Some (VSlice t s) ->
  0 <= idx -> idx = Z.of_nat (s_len s) - 1 ->
  delete_ d query h
  = Panic "reflect: reflect.Value.SetLen using unaddressable value".
Proof.
  intros Hfields Hidx HG He Hk Hpos Hlast. unfold delete_.
  rewrite Hfields. apply bind_Panic.
  rewrite (get_map_entry d init k l0 e _ _ h h' HG He Hk ltac:(discriminate)).
  apply bind_Panic.
  destruct (List.last (split_dot query) EmptyString) as [|c0 tg] eqn:Htg;
    [discriminate Hidx|].
  cbn [delete_modifier unwrap]. rewrite bind_ret_l. cbn [load]. rewrite bind_ret_l.
  rewrite Hidx. cbv zeta.
  replace ((idx <? 0) || (Z.of_nat (s_len s) <=? idx)) with false
    by (symmetry; apply orb_false_iff; split; [apply Z.ltb_ge|apply Z.leb_gt]; lia).
  destruct (decide (Z.to_nat idx = (s_len s - 1)%nat)) as [_|Hne]; [reflexivity|lia].
Qed.

Lemma X4_delete_last_index_panics_witness :
  delete_ (Some 0%nat) "a.arr.2" seq_store
  = Panic "reflect: reflect.Value.SetLen using unaddressable value".
Proof.
  apply (X4_delete_last_index_panics (Some 0%nat) "a.arr.2" ["a"] "arr" 1%nat
           {["arr" := VSlice tInt64 (Slice (Some 2%nat) 0 3 3)]}
           tInt64 (Slice (Some 2%nat) 0 3 3) 2 seq_store seq_store).
  - vm_compute. reflexivity.
  - vm_compute. reflexivity.
  - vm_compute. reflexivity.
  - reflexivity.
  - vm_compute. reflexivity.
  - lia.
  - reflexivity.
Defined.

(** [copy] of the elements after index [i] of a window of an array onto the
    elements from [i] on: the window loses element [i], the array keeps its
    length and everything outside the shortened window. *)
Lemma shift_window {A} (xs : list A) (off l i : nat) :
  (off + l <= List.length xs)%nat -> (i + 1 < l)%nat ->
  let ys := take (l - (i + 1)) (drop (off + (i + 1)) xs) in
  let xs' := take (off + i) xs ++ ys ++ drop (off + i + List.length ys) xs in
  List.length xs' = List.length xs
  /\ take (l - 1) (drop off xs') = delete i (take l (drop off xs))
  /\ take off xs' = take off xs
  /\ drop (off + l - 1) xs' = drop (off + l - 1) xs.
Proof.
  intros Hlen Hi ys xs'.
  assert (Hys : List.length ys = (l - (i + 1))%nat).
  { subst ys. rewrite length_take, length_drop. lia. }
  assert (Hxs' : List.length xs' = List.length xs).
  { subst xs'. rewrite !length_app, length_take, length_drop, Hys. lia. }
  assert (Hlk : forall j, xs' !! j =
            if decide (j < off + i)%nat then xs !! j
            else if decide (j < off + l - 1)%nat then xs !! S j
            else xs !! j).
  { intros j. subst xs'. destruct (decide (j < off + i)%nat) as [H1|H1].
    - rewrite lookup_app_l by (rewrite length_take; lia).
      apply lookup_take_lt. lia.
    - rewrite lookup_app_r by (rewrite length_take; lia).
      rewrite length_take, Nat.min_l by lia.
      destruct (decide (j < off + l - 1)%nat) as [H2|H2].
      + rewrite lookup_app_l by lia. subst ys.
        rewrite lookup_take_lt by lia. rewrite lookup_drop. f_equal. lia.
      + rewrite lookup_app_r by lia. rewrite lookup_drop, Hys. f_equal. lia. }
  split; [exact Hxs'|]. split; [|split].
  - apply list_eq. intros j.
    destruct (decide (j < l - 1)%nat) as [Hj|Hj].
    + rewrite lookup_take_lt by lia. rewrite lookup_drop, Hlk.
      destruct (decide (j < i)%nat) as [Hji|Hji].
      * rewrite list_lookup_delete_lt by lia.
        rewrite lookup_take_lt by lia. rewrite lookup_drop.
        destruct (decide (off + j < off + i)%nat); [reflexivity|lia].
      * rewrite list_lookup_delete_ge by lia.
        rewrite lookup_take_lt by lia. rewrite lookup_drop.
        destruct (decide (off + j < off + i)%nat); [lia|].
        destruct (decide (off + j < off + l - 1)%nat); [|lia].
        f_equal. lia.
    + rewrite lookup_take_ge by lia. symmetry.
      apply lookup_ge_None. rewrite length_delete.
      * rewrite length_take, length_drop. lia.
      * apply lookup_lt_is_Some. rewrite length_take, length_drop. lia.
  - apply list_eq. intros j. destruct (decide (j < off)%nat) as [Hj|Hj].
    + rewrite !lookup_take_lt by lia. rewrite Hlk.
      destruct (decide (j < off + i)%nat); [reflexivity|lia].
    + rewrite !lookup_take_ge by lia. reflexivity.
  - apply list_eq. intros j. rewrite !lookup_drop, Hlk.
    destruct (decide (off + l - 1 + j < off + i)%nat); [lia|].
    destruct (decide (off + l - 1 + j < off + l - 1)%nat); [lia|reflexivity].
Qed.

(** X5: deleting an index that is not the last one of a sequence held by a
    mapping shifts the later elements down in the sequence's own array and
    stores the shortened sequence back in the mapping. *)
Theorem X5_delete_inner_index (d : RawData) (query : string)
    (init : list string) (k : string) (l0 : loc) (e : gmap string value)
    (t : gtype) (s : slice) (a : loc) (xs : list value) (idx : Z)
    (h h' : heap) :
  removelast (split_dot query) = init ++ [k] ->
  ParseInt (List.last (split_dot query) EmptyString) = Some idx ->
  Get d init h = Ok (VMap (Some l0)) h' ->
  h !! l0 = Some (OMap e) -> e !! k = Some (VSlice t s) ->
  s_arr s = Some a -> h !! a = Some (OArr xs) ->
  (s_off s + s_len s <= List.length xs)%nat -> (s_len s <= s_cap s)%nat ->
  0 <= idx < Z.of_nat (s_len s) - 1 ->
  exists xs' : list value,
    delete_ d query h
    = Ok tt (<[l0 := OMap (<[k := VSlice t (Slice (Some a) (s_off s)
                                              (s_len s - 1) (s_cap s))]> e)]>
               (<[a := OArr xs']> h))
    /\ List.length xs' = List.length xs
    /\ take (s_len s - 1) (drop (s_off s) xs')
       = delete (Z.to_nat idx) (take (s_len s) (drop (s_off s) xs))
    /\ take (s_off s) xs' = take (s_off s) xs
    /\ drop (s_off s + s_len s - 1) xs' = drop (s_off s + s_len s - 1) xs.
Proof.
  intros Hfields Hidx HG He Hk Harr Ha Hlen Hcap Hrange.
  destruct s as [arr off l cap]. cbn [s_arr s_off s_len s_cap] in *. subst arr.
  set (i := Z.to_nat idx).
  assert (Hi : (i + 1 < l)%nat) by lia.
  destruct (shift_window xs off l i Hlen Hi) as (Hl' & Hvis & Hbefore & Hafter).
  cbv zeta in Hl', Hvis, Hbefore, Hafter.
  set (ys := take (l - (i + 1)) (drop (off + (i + 1)) xs)) in *.
  set (xs' := take (off + i) xs ++ ys ++ drop (off + i + List.length ys) xs) in *.
  assert (Hys : List.length ys = (l - (i + 1))%nat).
  { subst ys. rewrite length_take, length_drop. lia. }
  exists xs'. split; [|tauto].
  assert (Hne : l0 <> a) by (intros ->; rewrite He in Ha; discriminate).
  assert (Hra : read_arr a h = Ok xs h) by (unfold read_arr; now rewrite Ha).
  unfold delete_. rewrite Hfields.
  rewrite (bind_ext_l _ _ _ h
             (get_map_entry d init k l0 e _ _ h h' HG He Hk ltac:(discriminate))).
  destruct (List.last (split_dot query) EmptyString) as [|c0 tg] eqn:Htg;
    [discriminate Hidx|].
  cbn [delete_modifier unwrap]. rewrite !bind_assoc, bind_ret_l.
  cbn [load]. rewrite bind_assoc, bind_ret_l. rewrite Hidx. cbv zeta.
  cbn [s_len].
  replace ((idx <? 0) || (Z.of_nat l <=? idx)) with false
    by (symmetry; apply orb_false_iff; split; [apply Z.ltb_ge|apply Z.leb_gt]; lia).
  fold i. destruct (decide (i = (l - 1)%nat)) as [Heq|_]; [lia|].
  unfold AppendSlice, Slice_, read_slice. cbn [s_arr s_off s_len s_cap].
  rewrite !bind_assoc.
  rewrite (bind_Ok _ _ _ _ _ Hra).
  rewrite bind_ret_l. fold ys.
  rewrite Nat.add_0_r, !Nat.sub_0_r.
  destruct (decide (i + List.length ys <= cap)%nat) as [_|Hn]; [|lia].
  unfold write_range. rewrite !bind_assoc.
  rewrite (bind_Ok _ _ _ _ _ Hra).
  destruct (decide (off + i + List.length ys <= List.length xs)%nat) as [_|Hn]; [|lia].
  fold xs'.
  assert (Hw : write_arr a xs' h = Ok tt (<[a := OArr xs']> h)).
  { unfold write_arr. now rewrite Ha. }
  rewrite (bind_Ok _ _ _ _ _ Hw). rewrite !bind_ret_l.
  replace (i + List.length ys)%nat with (l - 1)%nat by lia.
  cbn [SetMapIndex load]. rewrite !bind_assoc, bind_ret_l.
  assert (Hr : read_map l0 (<[a := OArr xs']> h) = Ok e (<[a := OArr xs']> h)).
  { unfold read_map. rewrite heap_lookup_insert_ne by (intros E; apply Hne; symmetry; exact E).
    now rewrite He. }
  rewrite !bind_assoc, (bind_Ok _ _ _ _ _ Hr).
  unfold bind, write_map.
  rewrite heap_lookup_insert_ne by (intros E; apply Hne; symmetry; exact E).
  rewrite He. reflexivity.
Qed.

Lemma X5_delete_inner_index_witness :
  exists xs' : list value,
    delete_ (Some 0%nat) "a.arr.0" seq_store
    = Ok tt (<[1%nat := OMap (<["arr" := VSlice tInt64 (Slice (Some 2%nat) 0 2 3)]>
                                {["arr" := VSlice tInt64 (Slice (Some 2%nat) 0 3 3)]})]>
               (<[2%nat := OArr xs']> seq_store))
    /\ List.length xs' = 3%nat
    /\ take 2 (drop 0 xs') = [VInt64 2; VInt64 3]
    /\ take 0 xs' = []
    /\ drop 2 xs' = [VInt64 3].
Proof.
  exact (X5_delete_inner_index (Some 0%nat) "a.arr.0" ["a"] "arr" 1%nat
           {["arr" := VSlice tInt64 (Slice (Some 2%nat) 0 3 3)]}
           tInt64 (Slice (Some 2%nat) 0 3 3) 2%nat [VInt64 1; VInt64 2; VInt64 3]
           0 seq_store seq_store
           ltac:(vm_compute; reflexivity) ltac:(vm_compute; reflexivity)
           ltac:(vm_compute; reflexivity) eq_refl ltac:(vm_compute; reflexivity)
           eq_refl eq_refl ltac:(cbn; lia) ltac:(cbn; lia) ltac:(cbn; lia)).
Defined.

(** ** Below a value that holds nothing *)

(** Stepping through interfaces keeps what is held. *)
Lemma unwrap_load (r : rvalue) (v : value) (h h' : heap) :
  load r h = Ok v h' ->
  exists r', unwrap r h = Ok r' h /\ load r' h = Ok v h.
Proof.
  intros H. pose proof (load_Ok _ _ _ _ H) as ->.
  destruct r as [|x|x|t a i].
  - exists Invalid. auto.
  - cbn [load] in H. unfold ret in H. injection H as ->.
    destruct v; eauto.
  - eauto.
  - cbn [load] in H.
    destruct t; try (eexists; split; [reflexivity|exact H]).
    exists (match v with VNil => Invalid | _ => RVal v end).
    cbn [unwrap]. rewrite (bind_Ok _ _ _ _ _ H).
    destruct v; auto.
Qed.

Lemma get_loop_leaf (r : rvalue) (v : value) (f : string) (rest : list string)
    (h h' : heap) :
  load r h = Ok v h' -> is_leaf v = true ->
  get_loop r (f :: rest) None h = Ok Invalid h.
Proof.
  intros H Hv. destruct (unwrap_load _ _ _ _ H) as (r' & Hu & Hl).
  cbn [get_loop]. rewrite (bind_Ok _ _ _ _ _ Hu), (bind_Ok _ _ _ _ _ Hl).
  destruct v; try discriminate Hv; reflexivity.
Qed.

(** X6: below nil or a scalar there is nothing: when a path finds a value
    that is neither a mapping nor a sequence, or finds nothing, every longer
    path finds nothing, without an error. *)
Theorem X6_Get_below_leaf (d : RawData) (fs1 fs2 : list string) (v : value)
    (h h' : heap) :
  Get d fs1 h = Ok v h' -> is_leaf v = true -> fs2 <> [] ->
  Get d (fs1 ++ fs2) h = Ok VNil h.
Proof.
  intros H Hv Hne.
  destruct fs1 as [|k0 r0].
  { cbn [Get] in H. unfold ret in H. injection H as <- _. discriminate Hv. }
  destruct fs2 as [|f r2]; [contradiction|].
  change ((k0 :: r0) ++ f :: r2) with (k0 :: (r0 ++ f :: r2)).
  rewrite Get_unfold.
  change (k0 :: (r0 ++ f :: r2)) with ((k0 :: r0) ++ f :: r2).
  rewrite (bind_ext_l _ _ _ h
             (get_app d (k0 :: r0) (f :: r2) h ltac:(discriminate) ltac:(discriminate))).
  rewrite bind_assoc.
  rewrite Get_unfold in H.
  destruct (get d (k0 :: r0) None h) as [r h1|msg|] eqn:Hg;
    [|unfold bind in H; rewrite Hg in H; discriminate H
     |unfold bind in H; rewrite Hg in H; discriminate H].
  pose proof (get_None_heap _ _ _ _ _ Hg) as ->.
  rewrite (bind_Ok _ _ _ _ _ Hg) in H.
  unfold bind at 1. rewrite Hg.
  assert (Hl : exists h2, load r h = Ok v h2).
  { destruct r as [|x|x|t a i]; cbn [IsValid] in H; [|exact (ex_intro _ h' H)..].
    unfold ret in H. injection H as <- _. exists h. reflexivity. }
  destruct Hl as (h2 & Hl).
  rewrite (bind_Ok _ _ _ _ _ (get_loop_leaf r v f r2 h h2 Hl Hv)).
  reflexivity.
Qed.

Lemma X6_Get_below_leaf_witness :
  Get (Some 0%nat) (["a"; "arr"; "0"] ++ ["x"]) seq_store = Ok VNil seq_store.
Proof.
  apply (X6_Get_below_leaf (Some 0%nat) ["a"; "arr"; "0"] ["x"] (VInt64 1)
           seq_store seq_store).
  - vm_compute. reflexivity.
  - reflexivity.
  - discriminate.
Defined.

(** ** Merging entries that are nil or scalars *)

Lemma mergeValue_leaf (fuel : nat) (from : rvalue) (v : value) (h : heap) :
  is_leaf v = true -> v <> VNil ->
  match from with
  | Invalid => True
  | RIface x => x <> VNil
  | _ => False
  end ->
  mergeValue (S (S fuel)) from v h = Ok (RVal v) h.
Proof.
  intros Hv Hnil Hfrom.
  destruct from as [|x|x|t a i]; try contradiction.
  - destruct v; try discriminate Hv; try contradiction; reflexivity.
  - destruct v; try discriminate Hv; try contradiction;
      destruct x; try contradiction; reflexivity.
Qed.

Lemma write_map_Ok (l : loc) (e e' : gmap string value) (h : heap) :
  h !! l = Some (OMap e) -> write_map l e' h = Ok tt (<[l := OMap e']> h).
Proof. intros H. unfold write_map. now rewrite H. Qed.

Lemma read_map_lookup (l : loc) (e : gmap string value) (h : heap) :
  h !! l = Some (OMap e) -> read_map l h = Ok e h.
Proof. intros H. unfold read_map. now rewrite H. Qed.

Lemma merge_step_flat (fuel : nat) (l : loc) (e : gmap string value)
    (kv : string * value) (h : heap) :
  h !! l = Some (OMap e) -> is_leaf (snd kv) = true ->
  (snd kv <> VNil -> e !! fst kv <> Some VNil) ->
  (let* from := MapIndex (Some l) (fst kv) in
   let* to := mergeValue (S (S fuel)) from (snd kv) in
   SetMapIndex (Some l) (fst kv) to) h
  = Ok tt (<[l := OMap (flat_step e kv)]> h).
Proof.
  intros Hl Hleaf Hnn. destruct kv as [k v]. cbn [fst snd] in *.
  cbn [MapIndex]. rewrite bind_assoc, (bind_Ok _ _ _ _ _ (read_map_lookup _ _ _ Hl)).
  rewrite bind_ret_l.
  destruct (decide (v = VNil)) as [->|Hv].
  - change (mergeValue (S (S fuel)) ?f VNil) with (ret (A := rvalue) f).
    rewrite bind_ret_l. unfold flat_step. cbn [snd].
    destruct (e !! k) as [x|] eqn:Hk.
    + assert (Hs : SetMapIndex (Some l) k (RIface x) h
                   = Ok tt (<[l := OMap (<[k := x]> e)]> h)).
      { cbn [SetMapIndex load]. rewrite bind_ret_l.
        rewrite (bind_Ok _ _ _ _ _ (read_map_lookup _ _ _ Hl)).
        apply (write_map_Ok _ _ _ _ Hl). }
      rewrite Hs. now rewrite (insert_id e k x Hk).
    + cbn [SetMapIndex].
      rewrite (bind_Ok _ _ _ _ _ (read_map_lookup _ _ _ Hl)).
      rewrite (write_map_Ok _ _ _ _ Hl). now rewrite (delete_id e k Hk).
  - assert (Hfrom : match (match e !! k with Some x => RIface x | None => Invalid end) with
                    | Invalid => True
                    | RIface x => x <> VNil
                    | _ => False
                    end).
    { destruct (e !! k) as [x|] eqn:Hk; [|exact I].
      intros ->. now apply Hnn. }
    rewrite (bind_Ok _ _ _ _ _ (mergeValue_leaf fuel _ v h Hleaf Hv Hfrom)).
    cbn [SetMapIndex load]. rewrite bind_ret_l.
    rewrite (bind_Ok _ _ _ _ _ (read_map_lookup _ _ _ Hl)).
    rewrite (write_map_Ok _ _ _ _ Hl).
    unfold flat_step. cbn [fst snd]. destruct v; try contradiction; reflexivity.
Qed.

Lemma forM_merge_flat (fuel : nat) (l : loc) (kvs : list (string * value)) :
  forall (e : gmap string value) (h : heap),
    h !! l = Some (OMap e) ->
    Forall (fun kv => is_leaf (snd kv) = true) kvs ->
    (forall kv, In kv kvs -> snd kv <> VNil -> e !! fst kv <> Some VNil) ->
    forM_ kvs (fun kv : string * value =>
      let* from := MapIndex (Some l) (fst kv) in
      let* to := mergeValue (S (S fuel)) from (snd kv) in
      SetMapIndex (Some l) (fst kv) to) h
    = Ok tt (<[l := OMap (foldl flat_step e kvs)]> h).
Proof.
  induction kvs as [|kv kvs IH]; intros e h Hl Hleaf Hnn.
  - cbn [forM_ foldl]. unfold ret. now rewrite (heap_insert_id _ _ _ Hl).
  - cbn [forM_ foldl]. apply Forall_cons in Hleaf as [Hkv Hleaf].
    rewrite (bind_Ok _ _ _ _ _
               (merge_step_flat fuel l e kv h Hl Hkv (Hnn kv (or_introl eq_refl)))).
    rewrite (IH (flat_step e kv) _ (heap_lookup_insert_eq _ _ _ _ Hl) Hleaf).
    + now rewrite heap_insert_insert_eq.
    + intros kv' Hin Hv'. unfold flat_step.
      destruct (decide (snd kv = VNil)) as [E|E].
      * rewrite E. apply Hnn; [now right|exact Hv'].
      * assert (Hi : forall v, v <> VNil ->
                  <[fst kv := v]> e !! fst kv' <> Some VNil).
        { intros v Hv. destruct (decide (fst kv = fst kv')) as [Ek|Ek].
          - rewrite Ek, lookup_insert_eq. congruence.
          - rewrite lookup_insert_ne by exact Ek. apply Hnn; [now right|exact Hv']. }
        destruct (snd kv) eqn:Es; try contradiction; apply Hi; discriminate.
Qed.

Lemma lookup_flat_merge (e de : gmap string value) (k : string) :
  flat_merge e de !! k
  = match de !! k with
    | Some VNil | None => e !! k
    | Some v => Some v
    end.
Proof.
  unfold flat_merge. rewrite lookup_union, map_lookup_filter.
  destruct (de !! k) as [v|]; cbn.
  - case_guard as Hv; cbn in *.
    + destruct (e !! k); destruct v; try contradiction; reflexivity.
    + assert (v = VNil) as -> by (destruct (decide (v = VNil)); [assumption|contradiction]).
      now destruct (e !! k).
  - now destruct (e !! k).
Qed.

Lemma foldl_flat_step (kvs : list (string * value)) :
  forall e : gmap string value,
    NoDup (map fst kvs) ->
    foldl flat_step e kvs = flat_merge e (list_to_map kvs).
Proof.
  induction kvs as [|[k0 v0] kvs IH]; intros e Hnd.
  - cbn. apply map_eq. intros k. rewrite lookup_flat_merge, lookup_empty. reflexivity.
  - cbn [foldl map fst] in *. apply NoDup_cons in Hnd as [Hnin Hnd].
    rewrite (IH _ Hnd). apply map_eq. intros k.
    rewrite !lookup_flat_merge. cbn [list_to_map foldr fst snd].
    destruct (decide (k = k0)) as [->|Hk].
    + rewrite lookup_insert_eq.
      rewrite (not_elem_of_list_to_map_1 kvs k0) by exact Hnin.
      unfold flat_step. cbn [fst snd].
      destruct v0; try reflexivity; now rewrite lookup_insert_eq.
    + rewrite lookup_insert_ne by congruence.
      assert (Hs : flat_step e (k0, v0) !! k = e !! k).
      { unfold flat_step. cbn [fst snd].
        destruct v0; try reflexivity; now rewrite lookup_insert_ne by congruence. }
      now rewrite Hs.
Qed.

(** A pass of [merge] over entries that are nil or scalars. *)
Lemma merge_entries_flat (fuel : nat) (l : loc) (e de : gmap string value)
    (d : Data) (h : heap) :
  h !! l = Some (OMap e) ->
  entries_of h d = Some de -> flat de -> meets_no_nil e de ->
  merge_entries (S (S fuel)) (Some l) (data d) h
  = Ok tt (<[l := OMap (flat_merge e de)]> h).
Proof.
  intros Hl Hd Hflat Hnn. unfold merge_entries.
  assert (Hr : range_map (data d) h = Ok (map_to_list de) h).
  { unfold entries_of in Hd. unfold range_map.
    destruct (data d) as [dl|].
    - destruct (h !! dl) as [[m|a]|] eqn:Hdl; try discriminate Hd.
      injection Hd as ->.
      now rewrite (bind_Ok _ _ _ _ _ (read_map_lookup _ _ _ Hdl)).
    - injection Hd as <-. now rewrite map_to_list_empty. }
  rewrite (bind_Ok _ _ _ _ _ Hr).
  rewrite (forM_merge_flat fuel l (map_to_list de) e h Hl).
  - rewrite foldl_flat_step by apply NoDup_fst_map_to_list.
    now rewrite list_to_map_to_list.
  - apply Forall_forall. intros [k v] Hin. apply elem_of_map_to_list in Hin.
    exact (Hflat k v Hin).
  - intros [k v] Hin Hv. cbn [fst snd] in *.
    apply list_elem_of_In, elem_of_map_to_list in Hin. exact (Hnn k v Hin Hv).
Qed.

(** X7: merging into an existing [Data] the entries of another that are nil
    or scalars: each entry that is not nil replaces the target's entry of
    that key, of whatever type; a nil entry changes nothing; the other
    entries of the target stay. The target must hold no nil under a key
    that is merged, and the fuel must reach two levels. *)
Theorem X7_MergeTo_flat (fuel : nat) (target d : Data) (l : loc)
    (e de : gmap string value) (h : heap) :
  data target = Some l -> h !! l = Some (OMap e) ->
  entries_of h d = Some de -> flat de -> meets_no_nil e de ->
  (2 <= fuel)%nat ->
  MergeTo fuel (Some target) [d] h
  = Ok tt (<[l := OMap (flat_merge e de)]> h).
Proof.
  intros Ht Hl Hd Hflat Hnn Hfuel.
  destruct fuel as [|[|fuel]]; try lia.
  cbn [MergeTo merge]. rewrite Ht.
  rewrite (bind_Ok _ _ _ _ _ (merge_entries_flat fuel l e de d h Hl Hd Hflat Hnn)).
  reflexivity.
Qed.

Lemma X7_MergeTo_flat_witness :
  MergeTo 2 (Some (mkData (Some 0%nat))) [mkData (Some 1%nat)] flat_store
  = Ok tt (<[0%nat := OMap (flat_merge
                              (<["a" := VInt64 1]> {["b" := VString "x"]})
                              (<["a" := VNil]> (<["b" := VInt64 2]> {["c" := VBool true]})))]>
             flat_store).
Proof.
  apply (X7_MergeTo_flat 2 (mkData (Some 0%nat)) (mkData (Some 1%nat)) 0%nat
           (<["a" := VInt64 1]> {["b" := VString "x"]})
           (<["a" := VNil]> (<["b" := VInt64 2]> {["c" := VBool true]}))
           flat_store).
  - reflexivity.
  - reflexivity.
  - reflexivity.
  - unfold flat. lazymatch goal with |- ?P => refine (@bool_decide_unpack P _ _) end. vm_compute. exact I.
  - unfold meets_no_nil. lazymatch goal with |- ?P => refine (@bool_decide_unpack P _ _) end. vm_compute. exact I.
  - lia.
Defined.

Lemma no_nil_flat_merge (e de : gmap string value) :
  no_nil e -> no_nil (flat_merge e de).
Proof.
  intros He k. rewrite lookup_flat_merge.
  destruct (de !! k) as [v|]; [|apply He].
  destruct v; try apply He; discriminate.
Qed.

Lemma entries_of_insert (h : heap) (l : loc) (o : object) (d : Data)
    (de : gmap string value) :
  data d <> Some l -> entries_of h d = Some de ->
  entries_of (<[l := o]> h) d = Some de.
Proof.
  unfold entries_of. destruct (data d) as [dl|]; [|auto].
  intros Hne. rewrite heap_lookup_insert_ne by congruence. auto.
Qed.

Lemma merge_flat_list (fuel : nat) (l : loc) (ds : list Data) :
  forall (des : list (gmap string value)) (d0 : Data)
         (e de0 : gmap string value) (h : heap),
    h !! l = Some (OMap e) -> no_nil e ->
    entries_of h d0 = Some de0 -> flat de0 ->
    Forall2 (fun d de => data d <> Some l /\ entries_of h d = Some de /\ flat de)
            ds des ->
    merge (S (S fuel)) (Some l) (data d0) ds h
    = Ok tt (<[l := OMap (foldl flat_merge e (de0 :: des))]> h).
Proof.
  induction ds as [|d1 ds IH]; intros des d0 e de0 h Hl He Hd0 Hf0 Hall.
  - apply Forall2_nil_inv_l in Hall as ->. cbn [merge foldl].
    rewrite (bind_Ok _ _ _ _ _
               (merge_entries_flat fuel l e de0 d0 h Hl Hd0 Hf0
                  (fun k v _ _ => He k))).
    reflexivity.
  - apply Forall2_cons_inv_l in Hall as (de1 & des' & (Hne & Hd1 & Hf1) & Hall & ->).
    cbn [merge foldl].
    rewrite (bind_Ok _ _ _ _ _
               (merge_entries_flat fuel l e de0 d0 h Hl Hd0 Hf0
                  (fun k v _ _ => He k))).
    rewrite (IH des' d1 (flat_merge e de0) de1 _
               (heap_lookup_insert_eq _ _ _ _ Hl) (no_nil_flat_merge _ _ He)
               (entries_of_insert _ _ _ _ _ Hne Hd1) Hf1).
    + now rewrite heap_insert_insert_eq.
    + eapply Forall2_impl; [exact Hall|].
      intros d de (Hn & Hd & Hf). repeat split; auto using entries_of_insert.
Qed.

Lemma entries_of_app (h : heap) (o : object) (d : Data)
    (de : gmap string value) :
  entries_of h d = Some de ->
  data d <> Some (List.length h) /\ entries_of (h ++ [o]) d = Some de.
Proof.
  unfold entries_of. destruct (data d) as [dl|]; [|auto].
  destruct (h !! dl) as [ob|] eqn:Hdl; [|discriminate].
  pose proof (lookup_lt_Some _ _ _ Hdl) as Hlt.
  intros H. split; [intros [= ->]; lia|].
  assert (E : (h ++ [o] : heap) !! dl = Some ob)
    by exact (eq_trans (lookup_app_l h [o] dl Hlt) Hdl).
  cbv beta. unfold heap in *. rewrite E. exact H.
Qed.

(** X8: [Merge] of values whose entries are nil or scalars allocates one
    new mapping and leaves the store as it was otherwise: under each key it
    holds the last value given for it that is not nil, so that a nil entry
    never reaches the result. *)
Theorem X8_Merge_flat (fuel : nat) (ds : list Data)
    (des : list (gmap string value)) (h : heap) :
  ds <> [] ->
  Forall2 (fun d de => entries_of h d = Some de /\ flat de) ds des ->
  (2 <= fuel)%nat ->
  Merge fuel ds h
  = Ok (mkData (Some (List.length h)))
       (h ++ [OMap (foldl flat_merge ∅ des)]).
Proof.
  intros Hne Hall Hfuel. destruct ds as [|d0 ds]; [contradiction|].
  destruct fuel as [|[|fuel]]; try lia.
  apply Forall2_cons_inv_l in Hall as (de0 & des' & (Hd0 & Hf0) & Hall & ->).
  cbn [Merge]. unfold new_map at 1. unfold bind at 1.
  set (l := List.length h). set (h0 := h ++ [OMap ∅]).
  assert (Hl : h0 !! l = Some (OMap ∅)).
  { subst h0 l. rewrite lookup_app_r by lia. now rewrite Nat.sub_diag. }
  rewrite (bind_Ok _ _ _ _ _
             (merge_flat_list fuel l ds des' d0 ∅ de0 h0 Hl
                ltac:(intros k; rewrite lookup_empty; discriminate)
                (proj2 (entries_of_app h _ d0 de0 Hd0)) Hf0
                ltac:(eapply Forall2_impl; [exact Hall|];
                      intros d de (Hd & Hf);
                      destruct (entries_of_app h (OMap ∅) d de Hd); auto))).
  unfold ret. f_equal. subst h0 l.
  replace (List.length h) with (List.length h + 0)%nat at 1 by lia.
  exact (insert_app_r h [OMap ∅] 0 _).
Qed.

Lemma X8_Merge_flat_witness :
  Merge 2 [mkData (Some 0%nat); mkData (Some 1%nat); emptyData] flat_store
  = Ok (mkData (Some 2%nat))
       (flat_store
        ++ [OMap (foldl flat_merge ∅
                    [<["a" := VInt64 1]> {["b" := VString "x"]};
                     <["a" := VNil]> (<["b" := VInt64 2]> {["c" := VBool true]});
                     ∅])]).
Proof.
  apply (X8_Merge_flat 2 [mkData (Some 0%nat); mkData (Some 1%nat); emptyData]
           [<["a" := VInt64 1]> {["b" := VString "x"]};
            <["a" := VNil]> (<["b" := VInt64 2]> {["c" := VBool true]});
            ∅] flat_store).
  - discriminate.
  - repeat constructor; unfold flat; (lazymatch goal with |- ?P => refine (@bool_decide_unpack P _ _) end); vm_compute; exact I.
  - lia.
Defined.

(** ** Decoding objects and arrays *)

Lemma kv_lookup_insert {A} (k k' : string) (v : A) (l : list (string * A)) :
  kv_lookup k (kv_insert k' v l)
  = if String.eqb k k' then Some v else kv_lookup k l.
Proof.
  induction l as [|[k1 v1] l IH]; [reflexivity|].
  cbn [kv_insert]. destruct (String.compare k' k1) eqn:E.
  - apply String.compare_eq_iff in E as <-. cbn [kv_lookup].
    now destruct (String.eqb k k').
  - reflexivity.
  - cbn [kv_lookup]. rewrite IH.
    destruct (String.eqb k k1) eqn:E1; [|reflexivity].
    apply String.eqb_eq in E1 as ->.
    destruct (String.eqb k1 k') eqn:E2; [|reflexivity].
    apply String.eqb_eq in E2 as ->. rewrite str_compare_refl in E. discriminate.
Qed.

Lemma kv_insert_keys {A} (k : string) (v : A) (l : list (string * A)) (x : string) :
  In x (map fst (kv_insert k v l)) -> x = k \/ In x (map fst l).
Proof.
  induction l as [|[k1 v1] l IH]; cbn [kv_insert map fst In].
  - intros [<-|[]]. now left.
  - destruct (String.compare k k1) eqn:E; cbn [map fst In].
    + intros [<-|H]; auto.
    + intros [<-|[<-|H]]; auto.
    + intros [<-|H]; auto. destruct (IH H); auto.
Qed.

Lemma ascending_cons (k : string) (r : list string) :
  ascending (k :: r) = true
  <-> (forall k', In k' r -> str_lt k k') /\ ascending r = true.
Proof.
  cbn [ascending]. rewrite andb_true_iff, forallb_forall. unfold str_lt.
  split; intros [H1 H2]; split; auto; intros k' Hin; specialize (H1 k' Hin).
  - now destruct (String.compare k k').
  - now rewrite H1.
Qed.

Lemma ascending_insert {A} (k : string) (v : A) (l : list (string * A)) :
  ascending (map fst l) = true ->
  ascending (map fst (kv_insert k v l)) = true.
Proof.
  induction l as [|[k1 v1] l IH]; [reflexivity|].
  cbn [kv_insert map fst]. intros H.
  pose proof H as H'. apply ascending_cons in H' as [Hlt Hasc].
  destruct (String.compare k k1) eqn:E; cbn [map fst].
  - apply String.compare_eq_iff in E as ->. exact H.
  - apply ascending_cons. split; [|exact H].
    intros k' [<-|Hin]; [exact E|].
    exact (str_lt_trans _ _ _ E (Hlt k' Hin)).
  - apply ascending_cons. split; [|now apply IH].
    intros k' Hin. apply kv_insert_keys in Hin as [->|Hin]; [|now apply Hlt].
    unfold str_lt. rewrite String.compare_antisym, E. reflexivity.
Qed.

Lemma kv_lookup_app {A} (k : string) (l1 l2 : list (string * A)) :
  kv_lookup k (l1 ++ l2)
  = match kv_lookup k l1 with Some v => Some v | None => kv_lookup k l2 end.
Proof.
  induction l1 as [|[k1 v1] l1 IH]; [reflexivity|].
  cbn [app kv_lookup]. now destruct (String.eqb k k1).
Qed.

(** [parseJSONToRawData] keeps the keys distinct and gives each key the
    value of its last member. *)
Lemma parseJSONToRawData_last (members : list (string * Result)) :
  forall (d raw : list (string * tval)),
    parseJSONToRawData d members = Done raw ->
    (ascending (map fst d) = true -> ascending (map fst raw) = true)
    /\ forall k, kv_lookup k raw
                 = match kv_lookup k (rev members) with
                   | Some r =>
                       match parseJSONValue r with
                       | Done (x, _) => Some x
                       | Crash _ => None
                       end
                   | None => kv_lookup k d
                   end.
Proof.
  induction members as [|[key value] members IH]; intros d raw H.
  - cbn [parseJSONToRawData] in H. injection H as <-. split; [auto|].
    intros k. reflexivity.
  - cbn [parseJSONToRawData] in H.
    destruct (parseJSONValue value) as [[v t]|msg] eqn:Hv; [|discriminate H].
    destruct (IH _ _ H) as [Hasc Hlk]. split.
    + intros Hd. apply Hasc. now apply ascending_insert.
    + intros k. rewrite Hlk. cbn [rev]. rewrite kv_lookup_app.
      destruct (kv_lookup k (rev members)) as [r|]; [reflexivity|].
      rewrite kv_lookup_insert. cbn [kv_lookup].
      destruct (String.eqb k key); [now rewrite Hv|reflexivity].
Qed.

(** X9: an object decodes to a mapping with distinct keys, and a key that
    the object repeats has the value of its last member. *)
Theorem X9_object_last_member_wins (members : list (string * Result))
    (v : tval) (t : option gtype) :
  parseJSONValue (RObject members) = Done (v, t) ->
  exists raw : list (string * tval),
    v = TMap raw /\ t = Some tObject
    /\ ascending (map fst raw) = true
    /\ forall k, kv_lookup k raw = last_member members k.
Proof.
  rewrite parseJSONValue_RObject.
  destruct (parseJSONToRawData [] members) as [raw|msg] eqn:H; [|discriminate].
  intros [= <- <-]. exists raw.
  destruct (parseJSONToRawData_last members [] raw H) as [Hasc Hlk].
  repeat split; [now apply Hasc|].
  intros k. rewrite Hlk. unfold last_member.
  now destruct (kv_lookup k (rev members)).
Qed.

Lemma X9_object_last_member_wins_witness :
  exists raw : list (string * tval),
    TMap [("a", TString "x"); ("b", TBool true)] = TMap raw
    /\ Some tObject = Some tObject
    /\ ascending (map fst raw) = true
    /\ forall k, kv_lookup k raw
                 = last_member [("b", RTrue); ("a", RNumber (JNumber false 1 0));
                                ("a", RString "x")] k.
Proof.
  apply (X9_object_last_member_wins
           [("b", RTrue); ("a", RNumber (JNumber false 1 0)); ("a", RString "x")]).
  vm_compute. reflexivity.
Defined.

Lemma parseJSONValue_RArray_all (elems : list Result) :
  parseJSONValue (RArray elems)
  = match parse_all elems with
    | Done vals => make_array vals
    | Crash msg => Crash msg
    end.
Proof.
  cbn [parseJSONValue].
  match goal with
  | |- match ?g elems with _ => _ end = _ =>
      assert (Hgo : g elems = parse_all elems)
  end.
  { induction elems as [|r rest IH]; [reflexivity|].
    cbn [parse_all]. rewrite <- IH. reflexivity. }
  now rewrite Hgo.
Qed.

Lemma parse_all_Done (elems : list Result) :
  forall vals, parse_all elems = Done vals ->
    Forall2 (fun r vt => parseJSONValue r = Done vt) elems vals.
Proof.
  induction elems as [|r rest IH]; intros vals H; cbn [parse_all] in H.
  - injection H as <-. constructor.
  - destruct (parseJSONValue r) as [vt|] eqn:Hr; [|discriminate H].
    destruct (parse_all rest) as [vts|]; [|discriminate H].
    injection H as <-. constructor; auto.
Qed.

(** Only nil is decoded without a type. *)
Lemma parseJSONValue_untyped (r : Result) (x : tval) :
  parseJSONValue r = Done (x, None) -> x = TNil.
Proof.
  destruct r as [| | |n|s|ms|rs].
  - now intros [= <-].
  - discriminate.
  - discriminate.
  - cbn [parseJSONValue]. now destruct (fits_int64 _).
  - discriminate.
  - rewrite parseJSONValue_RObject. now destruct (parseJSONToRawData [] ms).
  - rewrite parseJSONValue_RArray_all. destruct (parse_all rs); [|discriminate].
    unfold make_array. now destruct (existsb _ _).
Qed.

Lemma array_elem_type_Some (vals : list (tval * gtype)) :
  forall et : gtype,
    array_elem_type (Some et) (map (fun vt => (fst vt, Some (snd vt))) vals)
    = Some (if forallb (fun t' => bool_decide (t' = et)) (map snd vals)
            then et else tInterface).
Proof.
  induction vals as [|[x t1] vals IH]; intros et; [reflexivity|].
  cbn [map fst snd array_elem_type forallb].
  destruct (decide (t1 = et)) as [->|Hne].
  - rewrite (bool_decide_eq_true_2 (Some et = Some et)) by reflexivity.
    rewrite (bool_decide_eq_true_2 (et = et)) by reflexivity.
    cbn [negb andb]. apply IH.
  - rewrite (bool_decide_eq_false_2 (Some et = Some t1)) by congruence.
    rewrite (bool_decide_eq_false_2 (t1 = et)) by exact Hne. cbn [negb andb].
    destruct (decide (et = tInterface)) as [->|Hi].
    + rewrite bool_decide_eq_true_2 by reflexivity. cbn [negb].
      rewrite IH. now destruct (forallb _ _).
    + rewrite bool_decide_eq_false_2 by exact Hi. cbn [negb].
      rewrite IH. now destruct (forallb _ _).
Qed.

Lemma array_elem_type_common (vals : list (tval * gtype)) :
  match array_elem_type None (map (fun vt => (fst vt, Some (snd vt))) vals) with
  | None => tInterface
  | Some t => t
  end = common_type (map snd vals).
Proof.
  destruct vals as [|[x t1] vals]; [reflexivity|].
  cbn [map fst snd array_elem_type common_type].
  now rewrite array_elem_type_Some.
Qed.

(** Values that are not nil carry their type. *)
Lemma typed_values (elems : list Result) :
  forall vals : list (tval * option gtype),
    Forall2 (fun r vt => parseJSONValue r = Done vt) elems vals ->
    existsb (fun v => match fst v with TNil => true | _ => false end) vals = false ->
    exists tvals : list (tval * gtype),
      vals = map (fun vt => (fst vt, Some (snd vt))) tvals
      /\ Forall2 (fun r vt => parseJSONValue r = Done (fst vt, Some (snd vt)))
                 elems tvals.
Proof.
  induction elems as [|r rest IH]; intros vals H Hnn.
  - apply Forall2_nil_inv_l in H as ->. exists []. split; [reflexivity|constructor].
  - apply Forall2_cons_inv_l in H as ([x t] & vals' & Hr & Hrest & ->).
    cbn [existsb fst] in Hnn. apply orb_false_iff in Hnn as [Hx Hnn].
    destruct (IH _ Hrest Hnn) as (tvals & -> & Hall).
    destruct t as [t|].
    + exists ((x, t) :: tvals). split; [reflexivity|]. constructor; assumption.
    + apply parseJSONValue_untyped in Hr as ->. discriminate Hx.
Qed.

(** X10: an array decodes to a sequence of the values of its elements, none
    of them nil; its element type is the type of the elements when they all
    have the same type, and [interface{}] when their types differ or when
    the array is empty. *)
Theorem X10_array_element_type (elems : list Result) (v : tval)
    (t : option gtype) :
  parseJSONValue (RArray elems) = Done (v, t) ->
  exists vals : list (tval * gtype),
    Forall2 (fun r vt => parseJSONValue r = Done (fst vt, Some (snd vt)))
            elems vals
    /\ v = TSlice (common_type (map snd vals)) (map fst vals)
    /\ t = Some (tSlice (common_type (map snd vals))).
Proof.
  rewrite parseJSONValue_RArray_all.
  destruct (parse_all elems) as [vals|msg] eqn:Hall; [|discriminate].
  unfold make_array.
  destruct (existsb _ vals) eqn:Hnn; [discriminate|].
  destruct (typed_values elems vals (parse_all_Done _ _ Hall) Hnn)
    as (tvals & -> & Htyped).
  rewrite array_elem_type_common. intros [= <- <-].
  exists tvals. split; [exact Htyped|].
  rewrite map_map. cbn [fst]. auto.
Qed.

Lemma X10_array_element_type_witness :
  exists vals : list (tval * gtype),
    Forall2 (fun r vt => parseJSONValue r = Done (fst vt, Some (snd vt)))
            [RNumber (JNumber false 1 0); RString "x"] vals
    /\ TSlice tInterface [TInt64 1; TString "x"]
       = TSlice (common_type (map snd vals)) (map fst vals)
    /\ Some (tSlice tInterface) = Some (tSlice (common_type (map snd vals))).
Proof.
  apply (X10_array_element_type [RNumber (JNumber false 1 0); RString "x"]).
  vm_compute. reflexivity.
Defined.

(** Every panic of the decoder is that of [reflect.Append]. *)
Lemma parseJSONValue_Crash (r : Result) :
  forall msg, parseJSONValue r = Crash msg -> msg = set_on_zero.
Proof.
  induction r as [| | |n|s|ms IH|rs IH] using Result_ind'; intros msg H;
    try discriminate H.
  - cbn [parseJSONValue] in H. now destruct (fits_int64 _).
  - rewrite parseJSONValue_RObject in H.
    destruct (parseJSONToRawData [] ms) as [d|msg'] eqn:Hd; [discriminate H|].
    injection H as <-. revert Hd. generalize (@nil (string * tval)).
    induction IH as [|[k r] ms Hr Hms IH']; intros d Hd; [discriminate Hd|].
    cbn [parseJSONToRawData] in Hd. cbn [snd] in Hr.
    destruct (parseJSONValue r) as [[x tx]|m] eqn:Er.
    + exact (IH' _ Hd).
    + injection Hd as <-. now apply Hr.
  - rewrite parseJSONValue_RArray_all in H.
    destruct (parse_all rs) as [vals|msg'] eqn:Hd.
    + unfold make_array in H. destruct (existsb _ vals); [|discriminate H].
      now injection H as <-.
    + injection H as <-. revert msg' Hd.
      induction IH as [|r rs Hr Hrs IH']; intros msg' Hd; [discriminate Hd|].
      cbn [parse_all] in Hd.
      destruct (parseJSONValue r) as [vt|m] eqn:Er.
      * destruct (parse_all rs) as [vts|m']; [discriminate Hd|].
        injection Hd as <-. now apply IH'.
      * injection Hd as <-. now apply Hr.
Qed.

Lemma null_value (elems : list Result) (vals : list (tval * option gtype)) :
  Forall2 (fun r vt => parseJSONValue r = Done vt) elems vals ->
  In RNull elems ->
  existsb (fun v => match fst v with TNil => true | _ => false end) vals = true.
Proof.
  induction 1 as [|r vt elems vals Hr Hrest IH]; intros Hin; [destruct Hin|].
  cbn [existsb]. destruct Hin as [->|Hin].
  - cbn [parseJSONValue] in Hr. injection Hr as <-. reflexivity.
  - rewrite (IH Hin). apply orb_true_r.
Qed.

(** X11: an array that holds a null cannot be decoded: [reflect.Append]
    panics on the zero Value that stands for the null, whatever the other
    elements are. *)
Theorem X11_array_with_null_panics (elems : list Result) :
  In RNull elems ->
  parseJSONValue (RArray elems)
  = Crash "reflect: call of reflect.Value.Set on zero Value".
Proof.
  intros Hin. destruct (parseJSONValue (RArray elems)) as [[v t]|msg] eqn:H.
  - exfalso. rewrite parseJSONValue_RArray_all in H.
    destruct (parse_all elems) as [vals|] eqn:Hall; [|discriminate H].
    unfold make_array in H.
    rewrite (null_value _ _ (parse_all_Done _ _ Hall) Hin) in H. discriminate H.
  - now rewrite (parseJSONValue_Crash _ _ H).
Qed.

Lemma X11_array_with_null_panics_witness :
  parseJSONValue (RArray [RTrue; RNull; RArray [RNull]])
  = Crash "reflect: call of reflect.Value.Set on zero Value".
Proof.
  apply (X11_array_with_null_panics [RTrue; RNull; RArray [RNull]]).
  right. left. reflexivity.
Defined.

(** ** [MarshalJSON] and [UnmarshalJSON] *)

Lemma ParseJSON_json (d : tval) :
  stable_data d = true -> ParseJSON (json d) = Parsed d.
Proof.
  intros Hs.
  destruct d as [|b|n|n|f|re im|s| |kvs|t|t xs]; try discriminate Hs.
  - reflexivity.
  - cbn [stable_data] in Hs. apply andb_true_iff in Hs as [Hne Hst].
    pose proof (stable_reads_back _ Hst) as Hrb.
    assert (Hjson : json (TMap kvs) = text (TMap kvs)).
    { unfold json, text. cbn [Len]. destruct kvs; [discriminate Hne|]. reflexivity. }
    rewrite Hjson. unfold ParseJSON, gjson_Valid.
    rewrite (gjson_Parse_text _ Hrb). cbn [negb to_result].
    cbn [stable] in Hst. apply andb_true_iff in Hst as [Hasc Hall].
    rewrite parseJSONToRawData_results.
    + rewrite (fold_kv_insert_ascending kvs [] Hasc).
      cbn [app]. destruct kvs; [discriminate Hne|reflexivity].
    + rewrite List.Forall_forall. intros kv Hin.
      rewrite forallb_forall in Hall. specialize (Hall kv Hin).
      apply andb_true_iff in Hall as [_ Hv].
      now destruct (stable_reads_back _ Hv) as (_ & _ & Hp & _).
Qed.



(** ** Patches, action by action *)

Lemma apply_actions_app (fuel : nat) (p1 p2 : list PatchAction)
    (target : Data) (h : heap) :
  apply_actions fuel (p1 ++ p2) target h
  = (let* r := apply_actions fuel p1 target in
     match snd r with
     | Some err => ret r
     | None => apply_actions fuel p2 (fst r)
     end) h.
Proof.
  revert target h. induction p1 as [|a p1 IH]; intros target h.
  - cbn [app apply_actions]. now rewrite bind_ret_l.
  - cbn [app apply_actions]. rewrite bind_assoc. apply bind_ext. intros r h1.
    destruct r as [t' [err|]]; cbn [fst snd].
    + now rewrite bind_ret_l.
    + apply IH.
Qed.

(** X13: a patch is applied action by action: applying the actions [p1]
    followed by [p2] is applying [p1] and then, when that gave no error,
    [p2] to the target as [p1] left it; after an error no further action is
    applied, and the target stays as the failing action left it. *)
Theorem X13_Patch_ApplyTo_app (fuel : nat) (p1 p2 : Patch)
    (target : option Data) (h : heap) :
  Patch_ApplyTo fuel (p1 ++ p2) target h
  = (let* r := Patch_ApplyTo fuel p1 target in
     match snd r with
     | Some err => ret r
     | None => Patch_ApplyTo fuel p2 (fst r)
     end) h.
Proof.
  destruct target as [t|]; [|reflexivity].
  cbn [Patch_ApplyTo].
  rewrite (bind_ext_l _ _ _ _ (apply_actions_app fuel p1 p2 t h)).
  rewrite !bind_assoc. apply bind_ext. intros [t' [err|]] h1; cbn [fst snd].
  - now rewrite !bind_ret_l.
  - now rewrite bind_ret_l.
Qed.

(** ** Field tags *)

(** The cases of the repository's test of [ParseFieldTag]. *)
Example ParseFieldTag_tests :
  ParseFieldTag "" = mkFieldTag "" false false false
  /\ ParseFieldTag "abc" = mkFieldTag "abc" false false false
  /\ ParseFieldTag ",omitempty,not-valid,squash," = mkFieldTag "" false true true
  /\ ParseFieldTag "-" = mkFieldTag "" true false false
  /\ ParseFieldTag "a1_b2,squash,omitempty" = mkFieldTag "a1_b2" false true true
  /\ ParseFieldTag "  a b  , omitempty" = mkFieldTag "a b" false false false.
Proof. repeat split; vm_compute; reflexivity. Qed.

Lemma Split_no_sep (sep : ascii) (s : string) :
  contains sep s = false -> Split sep s = (s, []).
Proof.
  induction s as [|c s IH]; [reflexivity|].
  cbn [contains Split]. intros H. apply orb_false_iff in H as [Hc Hs].
  now rewrite (IH Hs), Hc.
Qed.

Lemma Split_append (sep : ascii) (x rest : string) :
  contains sep x = false ->
  Split sep (String.append x (String sep rest))
  = (x, fst (Split sep rest) :: snd (Split sep rest)).
Proof.
  induction x as [|c x IH]; intros H.
  - rewrite append_Empty. cbn [Split]. rewrite Ascii.eqb_refl.
    now destruct (Split sep rest).
  - rewrite append_String. cbn [contains] in H.
    apply orb_false_iff in H as [Hc Hx].
    cbn [Split]. now rewrite (IH Hx), Hc.
Qed.

Lemma Split_Join (sep : ascii) (x : string) (l : list string) :
  Forall (fun s => contains sep s = false) (x :: l) ->
  Split sep (Join sep (x :: l)) = (x, l).
Proof.
  revert x. induction l as [|y l IH]; intros x H.
  - apply Forall_cons in H as [Hx _]. now apply Split_no_sep.
  - apply Forall_cons in H as [Hx H].
    change (Join sep (x :: y :: l))
      with (String.append x (String sep (Join sep (y :: l)))).
    rewrite (Split_append _ _ _ Hx), (IH y H). reflexivity.
Qed.

Lemma fold_tag_option (opts : list string) :
  forall flags : bool * bool,
    fold_left tag_option opts flags
    = (fst flags || bool_decide ("omitempty" ∈ opts),
       snd flags || bool_decide ("squash" ∈ opts)).
Proof.
  induction opts as [|o opts IH]; intros [a b].
  - cbn. now rewrite !orb_false_r.
  - cbn [fold_left]. rewrite IH. unfold tag_option. cbn [fst snd].
    destruct (String.eqb o "omitempty") eqn:E1.
    + apply String.eqb_eq in E1 as ->. cbn [fst snd].
      rewrite (bool_decide_eq_true_2 ("omitempty" ∈ "omitempty" :: opts))
        by (left).
      rewrite orb_true_r. f_equal.
      f_equal. apply bool_decide_ext. rewrite elem_of_cons.
      split; [auto|intros [H|H]; [discriminate H|exact H]].
    + apply String.eqb_neq in E1.
      destruct (String.eqb o "squash") eqn:E2.
      * apply String.eqb_eq in E2 as ->. cbn [fst snd].
        rewrite (bool_decide_eq_true_2 ("squash" ∈ "squash" :: opts)) by (left).
        rewrite orb_true_r. f_equal.
        f_equal. apply bool_decide_ext. rewrite elem_of_cons.
        split; [auto|intros [H|H]; [discriminate H|exact H]].
      * apply String.eqb_neq in E2. cbn [fst snd].
        f_equal; f_equal; apply bool_decide_ext; rewrite elem_of_cons;
          (split; [auto|intros [H|H]; [congruence|exact H]]).
Qed.

(** X14: the tag [alias,opt1,opt2,...] gives the alias without the white
    space around it, and the flags of the options [omitempty] and [squash]
    wherever they stand among the options; an option is matched as it is
    written. The alias [-] marks the field as skipped and is dropped. *)
Theorem X14_ParseFieldTag_Join (alias : string) (opts : list string) :
  Forall (fun s => contains "," s = false) (alias :: opts) ->
  ParseFieldTag (Join "," (alias :: opts))
  = mkFieldTag (if String.eqb (TrimSpace alias) "-" then EmptyString
                else TrimSpace alias)
               (String.eqb (TrimSpace alias) "-")
               (bool_decide ("omitempty" ∈ opts))
               (bool_decide ("squash" ∈ opts)).
Proof.
  intros H. unfold ParseFieldTag. rewrite (Split_Join _ _ _ H).
  rewrite fold_tag_option. cbn [fst snd orb].
  now destruct (String.eqb (TrimSpace alias) "-").
Qed.

Lemma X14_ParseFieldTag_Join_witness :
  ParseFieldTag (Join "," [" name "; "squash"; "x"; "omitempty"])
  = mkFieldTag (if String.eqb (TrimSpace " name ") "-" then EmptyString
                else TrimSpace " name ")
               (String.eqb (TrimSpace " name ") "-")
               (bool_decide ("omitempty" ∈ ["squash"; "x"; "omitempty"]))
               (bool_decide ("squash" ∈ ["squash"; "x"; "omitempty"])).
Proof.
  apply (X14_ParseFieldTag_Join " name " ["squash"; "x"; "omitempty"]).
  repeat constructor.
Defined.

(** ** Queries and fields *)

Lemma split_dot_Split (s : string) :
  split_dot s = fst (Split "." s) :: snd (Split "." s).
Proof.
  induction s as [|c s IH]; [reflexivity|].
  cbn [split_dot Split]. rewrite IH.
  destruct (Split "." s) as [x xs]. cbn [fst snd].
  now destruct (Ascii.eqb c ".").
Qed.

(** X15: a query is the path of its fields: [Query] on fields joined by
    dots is [Get] on the fields, when no field holds a dot and the path is
    not the single empty field, which as a query stands for the whole
    value. *)
Theorem X15_Query_Join (d : RawData) (fields : list string) (h : heap) :
  fields <> [] -> fields <> [EmptyString] ->
  Forall (fun f => contains "." f = false) fields ->
  Query d (Join "." fields) h = Get d fields h.
Proof.
  intros Hne Hne' H. destruct fields as [|f fields]; [contradiction|].
  assert (Hs : split_dot (Join "." (f :: fields)) = f :: fields).
  { rewrite split_dot_Split, (Split_Join _ _ _ H). reflexivity. }
  unfold Query. destruct (Join "." (f :: fields)) as [|c q] eqn:E.
  - exfalso. destruct fields as [|g fields].
    + cbn [Join] in E. subst f. contradiction.
    + change (Join "." (f :: g :: fields))
        with (String.append f (String "." (Join "." (g :: fields)))) in E.
      destruct f; [rewrite append_Empty in E|rewrite append_String in E];
        discriminate E.
  - now rewrite Hs.
Qed.

Lemma X15_Query_Join_witness :
  Query (Some 0%nat) (Join "." ["a"; "arr"; "1"]) seq_store
  = Get (Some 0%nat) ["a"; "arr"; "1"] seq_store.
Proof.
  apply (X15_Query_Join (Some 0%nat) ["a"; "arr"; "1"] seq_store).
  - discriminate.
  - discriminate.
  - repeat constructor.
Defined.

(** ** Merging sequences *)

Lemma read_slice_heap (s : slice) (xs : list value) (h h' : heap) :
  read_slice s h = Ok xs h' -> h' = h.
Proof.
  unfold read_slice. destruct (s_arr s) as [a|].
  - unfold bind, read_arr. destruct (h !! a) as [[m|arr]|]; try discriminate.
    unfold ret. congruence.
  - unfold ret. congruence.
Qed.

Lemma AppendSlice_elements (t : gtype) (s s' : slice) (xs ys : list value)
    (h : heap) :
  slice_ok h s ->
  read_slice s h = Ok xs h -> read_slice s' h = Ok ys h ->
  exists (r : slice) (h' : heap),
    AppendSlice t s s' h = Ok (VSlice t r) h'
    /\ read_slice r h' = Ok (xs ++ ys) h'
    /\ s_len r = (s_len s + List.length ys)%nat.
Proof.
  intros [Hcap Hok] Hxs Hys. unfold AppendSlice.
  rewrite (bind_Ok _ _ _ _ _ Hys). cbv zeta.
  destruct (decide (s_len s + List.length ys <= s_cap s)%nat) as [Hfit|Hfit].
  - destruct (s_arr s) as [a|] eqn:Ha.
    + destruct Hok as (arr & Harr & Hwf).
      assert (Hx : xs = take (s_len s) (drop (s_off s) arr)).
      { unfold read_slice in Hxs. rewrite Ha in Hxs. unfold bind, read_arr in Hxs.
        rewrite Harr in Hxs. unfold ret in Hxs. congruence. }
      unfold write_range.
      assert (Hra : read_arr a h = Ok arr h) by (unfold read_arr; now rewrite Harr).
      rewrite !bind_assoc, (bind_Ok _ _ _ _ _ Hra).
      destruct (decide (s_off s + s_len s + List.length ys <= List.length arr)%nat)
        as [_|Hn]; [|lia].
      set (arr' := take (s_off s + s_len s) arr ++ ys
                   ++ drop (s_off s + s_len s + List.length ys) arr).
      assert (Hw : write_arr a arr' h = Ok tt (<[a := OArr arr']> h))
        by (unfold write_arr; now rewrite Harr).
      rewrite (bind_Ok _ _ _ _ _ Hw).
      eexists _, _. split; [reflexivity|]. cbn [s_len]. split; [|reflexivity].
      unfold read_slice. cbn [s_arr s_off s_len].
      assert (Hra' : read_arr a (<[a := OArr arr']> h) = Ok arr' (<[a := OArr arr']> h)).
      { unfold read_arr. now rewrite (heap_lookup_insert_eq _ _ _ _ Harr). }
      rewrite (bind_Ok _ _ _ _ _ Hra'). unfold ret. f_equal.
      subst arr' xs.
      rewrite <- (take_take_drop arr (s_off s) (s_len s)).
      rewrite <- !app_assoc.
      rewrite drop_app_length' by (rewrite length_take; lia).
      rewrite app_assoc.
      apply take_app_length'.
      rewrite length_app, length_take, length_drop. lia.
    + destruct ys as [|y ys]; [|cbn [List.length] in Hfit; lia].
      assert (Hx : xs = []).
      { unfold read_slice in Hxs. rewrite Ha in Hxs. unfold ret in Hxs. congruence. }
      subst xs. eexists _, _. split; [reflexivity|].
      split; [|cbn [List.length]; lia].
      unfold read_slice. now rewrite Ha.
  - rewrite (bind_Ok _ _ _ _ _ Hxs). unfold new_arr at 1. unfold bind at 1.
    eexists _, _. split; [reflexivity|]. cbn [s_len]. split; [|reflexivity].
    unfold read_slice. cbn [s_arr s_off s_len].
    assert (Hl : List.length xs = s_len s).
    { unfold read_slice in Hxs. destruct (s_arr s) as [a|] eqn:Ha.
      - destruct Hok as (arr & Harr & Hwf). unfold bind, read_arr in Hxs.
        rewrite Harr in Hxs. unfold ret in Hxs. injection Hxs as <-.
        rewrite length_take, length_drop. lia.
      - unfold ret in Hxs. injection Hxs as <-. cbn [List.length]. lia. }
    assert (Hra : read_arr (List.length h) (h ++ [OArr (xs ++ ys)])
                  = Ok (xs ++ ys) (h ++ [OArr (xs ++ ys)])).
    { unfold read_arr.
      assert (E : (h ++ [OArr (xs ++ ys)] : heap) !! List.length h
                  = Some (OArr (xs ++ ys))).
      { pose proof (lookup_app_r h [OArr (xs ++ ys)] (List.length h) (le_n _)) as E'.
        rewrite Nat.sub_diag in E'. exact E'. }
      cbv beta. unfold heap, loc in *. now rewrite E. }
    rewrite (bind_Ok _ _ _ _ _ Hra). unfold ret. f_equal.
    rewrite drop_0. apply take_ge. rewrite length_app. lia.
Qed.

(** X16: merging a sequence onto a sequence of the same type is
    concatenation: the merged value is a sequence that holds the elements
    of the target followed by those of the data, whether they fit in the
    target's array or a new array is made. *)
Theorem X16_mergeValue_sequences (fuel : nat) (t : gtype) (s s' : slice)
    (xs ys : list value) (h : heap) :
  slice_ok h s ->
  read_slice s h = Ok xs h -> read_slice s' h = Ok ys h ->
  (1 <= fuel)%nat ->
  exists (r : slice) (h' : heap),
    mergeValue fuel (RIface (VSlice t s)) (VSlice t s') h
    = Ok (RVal (VSlice t r)) h'
    /\ read_slice r h' = Ok (xs ++ ys) h'
    /\ s_len r = (s_len s + List.length ys)%nat.
Proof.
  intros Hok Hxs Hys Hfuel. destruct fuel as [|fuel]; [lia|].
  destruct (AppendSlice_elements t s s' xs ys h Hok Hxs Hys)
    as (r & h' & Ha & Hr & Hl).
  exists r, h'. split; [|split; assumption].
  cbn [mergeValue IsValid unwrap]. rewrite !bind_assoc, bind_ret_l.
  cbn [load]. rewrite bind_assoc, bind_ret_l. cbn [type_of].
  destruct (decide (Some (tSlice t) = Some (tSlice t))) as [_|Hne];
    [|contradiction].
  rewrite !bind_assoc, (bind_Ok _ _ _ _ _ Ha). now rewrite !bind_ret_l.
Qed.

Lemma X16_mergeValue_sequences_witness :
  exists (r : slice) (h' : heap),
    mergeValue 1 (RIface (VSlice tInt64 (Slice (Some 1%nat) 0 2 3)))
      (VSlice tInt64 (Slice (Some 3%nat) 0 1 1)) append_store
    = Ok (RVal (VSlice tInt64 r)) h'
    /\ read_slice r h' = Ok ([VInt64 1; VInt64 2] ++ [VInt64 3]) h'
    /\ s_len r = (2 + List.length [VInt64 3])%nat.
Proof.
  apply (X16_mergeValue_sequences 1 tInt64 (Slice (Some 1%nat) 0 2 3)
           (Slice (Some 3%nat) 0 1 1) [VInt64 1; VInt64 2] [VInt64 3] append_store).
  - split; [cbn; lia|]. cbn [s_arr s_off s_cap].
    exists [VInt64 1; VInt64 2; VInt64 0]. split; [reflexivity|cbn; lia].
  - reflexivity.
  - reflexivity.
  - lia.
Defined.

(** ** [Clone] makes a deep copy *)

Lemma heap_lookup_app_l (h e : heap) (l : loc) (o : object) :
  h !! l = Some o -> (h ++ e : heap) !! l = Some o.
Proof.
  intros H. pose proof (lookup_lt_Some _ _ _ H) as Hlt.
  exact (eq_trans (lookup_app_l h e l Hlt) H).
Qed.

Lemma heap_lookup_middle (h1 e1 e2 : heap) (o : object) :
  (h1 ++ (e1 ++ [o]) ++ e2 : heap) !! (List.length h1 + List.length e1 : loc)%nat
  = Some o.
Proof.
  unfold heap, loc. rewrite <- !app_assoc. rewrite app_assoc.
  replace (List.length h1 + List.length e1)%nat with (List.length (h1 ++ e1))
    by (rewrite length_app; reflexivity).
  exact (list_lookup_middle (h1 ++ e1) e2 o _ eq_refl).
Qed.

Lemma reify_S (fuel : nat) (h : heap) (v : value) :
  reify (S fuel) h v
  = match v with
    | VNil => Some TNil
    | VBool b => Some (TBool b)
    | VInt64 n => Some (TInt64 n)
    | VUint64 n => Some (TUint64 n)
    | VFloat64 f => Some (TFloat64 f)
    | VComplex128 re im => Some (TComplex128 re im)
    | VString s => Some (TString s)
    | VMap None => Some TNilMap
    | VMap (Some l) =>
        match h !! l with
        | Some (OMap m) =>
            match mapM (reify_entry fuel h) (map_to_list m) with
            | Some kvs => Some (TMap (kv_sort kvs))
            | None => None
            end
        | _ => None
        end
    | VSlice ty s =>
        match s_arr s with
        | None => Some (TNilSlice ty)
        | Some a =>
            match h !! a with
            | Some (OArr xs) =>
                match mapM (reify fuel h)
                        (take (s_len s) (drop (s_off s) xs)) with
                | Some ts => Some (TSlice ty ts)
                | None => None
                end
            | _ => None
            end
        end
    end.
Proof. reflexivity. Qed.

(** A store that grows keeps the trees of its values. *)
Lemma reify_app (fuel : nat) :
  forall (h e : heap) (v : value) (t : tval),
    reify fuel h v = Some t -> reify fuel (h ++ e) v = Some t.
Proof.
  induction fuel as [|fuel IH]; intros h e v t H; [discriminate H|].
  rewrite reify_S in *.
  destruct v as [|b|n|n|f|re im|s|[l|]|ty s]; try exact H.
  - destruct (h !! l) as [[m|xs]|] eqn:Hl; try discriminate H.
    rewrite (heap_lookup_app_l h e l _ Hl).
    destruct (mapM (reify_entry fuel h) (map_to_list m)) as [kvs|] eqn:Hm;
      [|discriminate H].
    assert (Hm' : mapM (reify_entry fuel (h ++ e)) (map_to_list m) = Some kvs).
    { apply mapM_Some. apply mapM_Some in Hm.
      eapply Forall2_impl; [exact Hm|]. intros kv kt Hkv.
      unfold reify_entry in *.
      destruct (reify fuel h (snd kv)) as [t1|] eqn:Ht; [|discriminate Hkv].
      now rewrite (IH _ e _ _ Ht). }
    now rewrite Hm'.
  - destruct (s_arr s) as [a|]; [|exact H].
    destruct (h !! a) as [[m|xs]|] eqn:Ha; try discriminate H.
    rewrite (heap_lookup_app_l h e a _ Ha).
    destruct (mapM (reify fuel h) (take (s_len s) (drop (s_off s) xs)))
      as [ts|] eqn:Hm; [|discriminate H].
    assert (Hm' : mapM (reify fuel (h ++ e)) (take (s_len s) (drop (s_off s) xs))
                  = Some ts).
    { apply mapM_Some. apply mapM_Some in Hm.
      eapply Forall2_impl; [exact Hm|]. intros x tx Hx. now apply IH. }
    now rewrite Hm'.
Qed.

Lemma within_app (fuel : nat) :
  forall (h e : heap) (v : value),
    within fuel h v = true -> within fuel (h ++ e) v = true.
Proof.
  induction fuel as [|fuel IH]; intros h e v H; [discriminate H|].
  cbn [within] in *.
  destruct v as [|b|n|n|f|re im|s|[l|]|ty s]; try exact H.
  - destruct (h !! l) as [[m|xs]|] eqn:Hl; try discriminate H.
    rewrite (heap_lookup_app_l h e l _ Hl).
    rewrite forallb_forall in *. intros kv Hin. apply IH. now apply H.
  - destruct (s_arr s) as [a|]; [|exact H].
    destruct (h !! a) as [[m|xs]|] eqn:Ha; try discriminate H.
    rewrite (heap_lookup_app_l h e a _ Ha).
    apply andb_true_iff in H as [H1 H2]. apply andb_true_iff. split; [exact H1|].
    rewrite forallb_forall in *. intros x Hin. apply IH. now apply H2.
Qed.

Lemma ascending_sorted {A} (l : list (string * A)) :
  ascending (map fst l) = true -> StronglySorted key_lt l.
Proof.
  induction l as [|[k v] l IH]; intros H; [constructor|].
  cbn [map fst] in H. apply ascending_cons in H as [Hlt Hasc].
  constructor; [now apply IH|].
  apply Forall_forall. intros [k' v'] Hin. unfold key_lt. cbn [fst].
  apply Hlt. apply in_map_iff. exists (k', v'). split; [reflexivity|].
  now apply list_elem_of_In.
Qed.

Lemma kv_insert_perm {A} (k : string) (v : A) (l : list (string * A)) :
  ~ In k (map fst l) -> kv_insert k v l ≡ₚ (k, v) :: l.
Proof.
  induction l as [|[k1 v1] l IH]; intros Hnin; [reflexivity|].
  cbn [kv_insert]. cbn [map fst In] in Hnin.
  destruct (String.compare k k1) eqn:E.
  - apply String.compare_eq_iff in E. exfalso. apply Hnin. now left.
  - reflexivity.
  - rewrite IH by (intros Hin; apply Hnin; now right). apply perm_swap.
Qed.

Lemma fold_kv_insert_perm {A} (l : list (string * A)) :
  forall acc : list (string * A),
    NoDup (map fst (acc ++ l)) ->
    fold_left (fun acc kv => kv_insert (fst kv) (snd kv) acc) l acc ≡ₚ acc ++ l.
Proof.
  induction l as [|[k v] l IH]; intros acc Hnd.
  - cbn [fold_left]. now rewrite app_nil_r.
  - cbn [fold_left fst snd].
    assert (Hnin : ~ In k (map fst acc)).
    { rewrite map_app in Hnd. cbn [map fst] in Hnd.
      apply NoDup_app in Hnd as (_ & Hd & _). intros Hin.
      apply (Hd k); [now apply list_elem_of_In|left]. }
    pose proof (kv_insert_perm k v acc Hnin) as Hp.
    rewrite IH.
    + rewrite Hp. cbn [app]. now rewrite Permutation_middle.
    + assert (Hq : map fst (kv_insert k v acc ++ l)
                   ≡ₚ map fst (acc ++ (k, v) :: l)).
      { apply Permutation_map. rewrite Hp. cbn [app].
        now rewrite Permutation_middle. }
      now rewrite Hq.
Qed.

Lemma kv_sort_perm {A} (l : list (string * A)) :
  NoDup (map fst l) -> kv_sort l ≡ₚ l.
Proof. intros H. exact (fold_kv_insert_perm l [] H). Qed.

Lemma kv_sort_sorted {A} (l : list (string * A)) :
  StronglySorted key_lt (kv_sort l).
Proof.
  apply ascending_sorted. unfold kv_sort.
  assert (H : forall acc : list (string * A),
            ascending (map fst acc) = true ->
            ascending (map fst (fold_left (fun acc kv =>
                         kv_insert (fst kv) (snd kv) acc) l acc)) = true).
  { induction l as [|kv l IH]; intros acc Hacc; [exact Hacc|].
    cbn [fold_left]. apply IH. now apply ascending_insert. }
  now apply H.
Qed.

Lemma key_sorted_unique {A} (l1 l2 : list (string * A)) :
  StronglySorted key_lt l1 -> StronglySorted key_lt l2 -> l1 ≡ₚ l2 -> l1 = l2.
Proof.
  apply StronglySorted_unique_strong. intros x1 x2 _ _ H12 H21.
  exfalso. exact (str_lt_irrefl _ (str_lt_trans _ _ _ H12 H21)).
Qed.

(** The sorted entries do not depend on the order in which a map is
    listed. *)
Lemma kv_sort_perm_eq {A} (l1 l2 : list (string * A)) :
  l1 ≡ₚ l2 -> NoDup (map fst l1) -> kv_sort l1 = kv_sort l2.
Proof.
  intros Hp Hnd. apply key_sorted_unique; try apply kv_sort_sorted.
  rewrite (kv_sort_perm l1 Hnd).
  rewrite (kv_sort_perm l2); [exact Hp|].
  assert (Hq : map fst l2 ≡ₚ map fst l1)
    by (apply Permutation_map; now symmetry).
  now rewrite Hq.
Qed.

(** A traversal whose steps only add objects to the store: what holds of
    each result, in any store with the added objects at the same places,
    holds of all results in the end. *)
Lemma traverse_grow {A B T : Type} (g : A -> M B)
    (R : heap -> A -> T -> Prop) (W : heap -> A -> Prop)
    (R' : heap -> B -> T -> Prop) (Q : A -> B -> Prop) :
  (forall h e a t, R h a t -> R (h ++ e) a t) ->
  (forall h e a, W h a -> W (h ++ e) a) ->
  (forall a h t, R h a t -> W h a ->
     exists b ext, g a h = Ok b (h ++ ext) /\ Q a b
       /\ forall h2 ext2, List.length h2 = List.length h ->
            R' (h2 ++ ext ++ ext2) b t) ->
  forall (xs : list A) (h : heap) (ts : list T),
    Forall2 (R h) xs ts -> Forall (W h) xs ->
    exists bs ext, traverse g xs h = Ok bs (h ++ ext) /\ Forall2 Q xs bs
      /\ forall h2 ext2, List.length h2 = List.length h ->
           Forall2 (R' (h2 ++ ext ++ ext2)) bs ts.
Proof.
  intros HR HW Hstep. induction xs as [|x xs IH]; intros h ts H2 HF.
  - apply Forall2_nil_inv_l in H2 as ->. exists [], []. cbn [traverse].
    rewrite app_nil_r. repeat split; constructor.
  - apply Forall2_cons_inv_l in H2 as (t & ts' & Hx & Hxs & ->).
    apply Forall_cons in HF as [Wx Wxs].
    destruct (Hstep x h t Hx Wx) as (b & e1 & Hg & Hq & Hb).
    destruct (IH (h ++ e1) ts') as (bs & e2 & Ht & Hqs & Hbs).
    { eapply Forall2_impl; [exact Hxs|]. intros a ta. apply HR. }
    { eapply Forall_impl; [exact Wxs|]. intros a. apply HW. }
    exists (b :: bs), (e1 ++ e2). cbn [traverse].
    rewrite (bind_Ok _ _ _ _ _ Hg), (bind_Ok _ _ _ _ _ Ht).
    rewrite <- app_assoc. split; [reflexivity|]. split; [now constructor|].
    intros h2 ext2 Hlen. constructor.
    + rewrite <- app_assoc. now apply Hb.
    + specialize (Hbs (h2 ++ e1) ext2). rewrite <- !app_assoc in Hbs.
      rewrite <- app_assoc. apply Hbs. rewrite !length_app. lia.
Qed.

(** [clone] makes a copy: it only adds objects to the store, and the value
    it returns has the tree of the original in every store that holds the
    added objects at the same places. *)
Lemma clone_copy (fuel : nat) :
  forall (v : value) (h : heap) (t : tval),
    reify fuel h v = Some t -> within fuel h v = true ->
    exists v' ext, clone fuel v h = Ok v' (h ++ ext)
      /\ (v = VNil <-> v' = VNil)
      /\ forall h2 ext2, List.length h2 = List.length h ->
           reify fuel (h2 ++ ext ++ ext2) v' = Some t.
Proof.
  induction fuel as [|fuel IH]; intros v h t Hr Hw; [discriminate Hr|].
  assert (Hsame : forall (c : value),
            (forall h', reify (S fuel) h' c = Some t) ->
            clone (S fuel) c h = Ok c h ->
            exists v' ext, clone (S fuel) c h = Ok v' (h ++ ext)
              /\ (c = VNil <-> v' = VNil)
              /\ forall h2 ext2, List.length h2 = List.length h ->
                   reify (S fuel) (h2 ++ ext ++ ext2) v' = Some t).
  { intros c Hc Hcl. exists c, []. rewrite app_nil_r. split; [exact Hcl|].
    split; [reflexivity|]. intros h2 ext2 _. apply Hc. }
  destruct v as [|b|n|n|f|re im|s|[l|]|ty s];
    try (apply Hsame; [intros h'; rewrite reify_S in *; exact Hr|reflexivity]).
  - (* a map *)
    rewrite reify_S in Hr. cbn [within] in Hw.
    destruct (h !! l) as [[m|xs]|] eqn:Hl; try discriminate Hr.
    destruct (mapM (reify_entry fuel h) (map_to_list m)) as [tkvs|] eqn:Hm;
      [|discriminate Hr].
    injection Hr as <-. apply mapM_Some in Hm.
    destruct (traverse_grow
                (fun kv : string * value =>
                   let* x := clone fuel (snd kv) in ret (fst kv, x))
                (fun h kv kt => reify_entry fuel h kv = Some kt)
                (fun h kv => within fuel h (snd kv) = true)
                (fun h kv kt => reify_entry fuel h kv = Some kt)
                (fun kv kv' => fst kv' = fst kv))
      with (xs := map_to_list m) (h := h) (ts := tkvs)
      as (kvs' & exts & Ht & Hkeys & Hentries).
    { intros h0 e kv kt. unfold reify_entry.
      destruct (reify fuel h0 (snd kv)) as [t1|] eqn:E; [|discriminate].
      now rewrite (reify_app fuel h0 e _ _ E). }
    { intros h0 e kv. apply within_app. }
    { intros [k x] h0 [k' tx] Hk Hwk. unfold reify_entry in Hk. cbn [fst snd] in *.
      destruct (reify fuel h0 x) as [t1|] eqn:E; [|discriminate Hk].
      injection Hk as <- <-.
      destruct (IH x h0 t1 E Hwk) as (x' & ext & Hc & _ & Hx').
      exists (k, x'), ext. rewrite (bind_Ok _ _ _ _ _ Hc).
      split; [reflexivity|]. split; [reflexivity|].
      intros h2 ext2 Hlen. unfold reify_entry. cbn [fst snd].
      now rewrite (Hx' h2 ext2 Hlen). }
    { exact Hm. }
    { apply Forall_forall. intros kv Hin. rewrite forallb_forall in Hw.
      apply Hw. now apply list_elem_of_In. }
    exists (VMap (Some (List.length (h ++ exts)))),
           (exts ++ [OMap (list_to_map kvs')]).
    split.
    { cbn [clone]. rewrite (bind_Ok _ _ _ _ _ (read_map_lookup _ _ _ Hl)).
      rewrite (bind_Ok _ _ _ _ _ Ht). unfold new_map at 1. unfold bind at 1.
      unfold ret. now rewrite <- app_assoc. }
    split; [split; discriminate|].
    intros h2 ext2 Hlen. rewrite reify_S.
    assert (Hlk : (h2 ++ (exts ++ [OMap (list_to_map kvs')]) ++ ext2 : heap)
                    !! (List.length (h ++ exts) : loc)
                  = Some (OMap (list_to_map kvs'))).
    { rewrite length_app, <- Hlen. apply heap_lookup_middle. }
    rewrite Hlk.
    assert (Hfst : map fst kvs' = map fst (map_to_list m)).
    { clear -Hkeys. induction Hkeys as [|kv kv' l l' E _ IH']; [reflexivity|].
      cbn [map]. now rewrite E, IH'. }
    assert (Hnd : NoDup (map fst kvs')).
    { rewrite Hfst. exact (NoDup_fst_map_to_list m). }
    assert (Hall : Forall2 (fun kv kt =>
                     reify_entry fuel
                       (h2 ++ (exts ++ [OMap (list_to_map kvs')]) ++ ext2) kv
                     = Some kt) kvs' tkvs).
    { specialize (Hentries h2 ([OMap (list_to_map kvs')] ++ ext2) Hlen).
      now rewrite <- app_assoc. }
    assert (Hkt : map fst tkvs = map fst kvs').
    { clear -Hall. induction Hall as [|kv kt l l' E _ IH']; [reflexivity|].
      cbn [map]. rewrite IH'. f_equal. unfold reify_entry in E.
      destruct (reify _ _ (snd kv)); [|discriminate E]. now injection E as <-. }
    pose proof (map_to_list_to_map (M := gmap string) kvs' Hnd) as Hperm.
    destruct (Permutation_Forall2 (Permutation_sym Hperm) Hall)
      as (tkvs' & Hp & Hall').
    rewrite (proj2 (mapM_Some _ _ _) Hall').
    rewrite <- (kv_sort_perm_eq tkvs tkvs' Hp); [reflexivity|].
    now rewrite Hkt.
  - (* a slice *)
    rewrite reify_S in Hr. cbn [within] in Hw.
    destruct (s_arr s) as [a|] eqn:Harr.
    2:{ apply Hsame.
        - intros h'. rewrite reify_S, Harr. exact Hr.
        - cbn [clone]. now rewrite Harr. }
    destruct (h !! a) as [[m|xs]|] eqn:Ha; try discriminate Hr.
    destruct (mapM (reify fuel h) (take (s_len s) (drop (s_off s) xs)))
      as [ts|] eqn:Hm; [|discriminate Hr].
    injection Hr as <-. apply mapM_Some in Hm.
    apply andb_true_iff in Hw as [Hlen Hw]. apply bool_decide_eq_true in Hlen.
    destruct (traverse_grow (clone fuel)
                (fun h v t => reify fuel h v = Some t)
                (fun h v => within fuel h v = true)
                (fun h v t => reify fuel h v = Some t)
                (fun _ _ => True))
      with (xs := take (s_len s) (drop (s_off s) xs)) (h := h) (ts := ts)
      as (ys & exts & Ht & Hq & Helems).
    { intros h0 e v t. apply reify_app. }
    { intros h0 e v. apply within_app. }
    { intros v h0 t Hv Hwv. destruct (IH v h0 t Hv Hwv) as (v' & ext & Hc & _ & Hv').
      exists v', ext. auto. }
    { exact Hm. }
    { apply Forall_forall. intros v Hin. rewrite forallb_forall in Hw.
      apply Hw. now apply list_elem_of_In. }
    set (arr := ys ++ replicate (s_cap s - s_len s) (zero_of ty)).
    exists (VSlice ty (Slice (Some (List.length (h ++ exts))) 0 (s_len s) (s_cap s))),
           (exts ++ [OArr arr]).
    assert (Hrs : read_slice s h = Ok (take (s_len s) (drop (s_off s) xs)) h).
    { unfold read_slice. rewrite Harr. unfold bind, read_arr. now rewrite Ha. }
    split.
    { cbn [clone]. rewrite Harr. rewrite (bind_Ok _ _ _ _ _ Hrs).
      rewrite (bind_Ok _ _ _ _ _ Ht). unfold new_arr at 1. unfold bind at 1.
      unfold ret. now rewrite <- app_assoc. }
    split; [split; discriminate|].
    intros h2 ext2 Hl2. rewrite reify_S. cbn [s_arr s_off s_len].
    assert (Hlk : (h2 ++ (exts ++ [OArr arr]) ++ ext2 : heap)
                    !! (List.length (h ++ exts) : loc)
                  = Some (OArr arr)).
    { rewrite length_app, <- Hl2. apply heap_lookup_middle. }
    rewrite Hlk.
    assert (Hys : List.length ys = s_len s).
    { rewrite <- (Forall2_length _ _ _ Hq), length_take, length_drop. lia. }
    assert (Htake : take (s_len s) (drop 0 arr) = ys).
    { rewrite drop_0. subst arr. now apply take_app_length'. }
    rewrite Htake.
    assert (Hall : Forall2 (fun v t =>
                     reify fuel (h2 ++ (exts ++ [OArr arr]) ++ ext2) v = Some t)
                     ys ts).
    { specialize (Helems h2 ([OArr arr] ++ ext2) Hl2).
      now rewrite <- app_assoc. }
    now rewrite (proj2 (mapM_Some _ _ _) Hall).
Qed.

Lemma filter_perm {A} (f : A -> bool) (l1 l2 : list A) :
  l1 ≡ₚ l2 -> List.filter f l1 ≡ₚ List.filter f l2.
Proof.
  induction 1 as [|x l l' _ IH|x y l|l l' l'' _ IH1 _ IH2]; cbn [List.filter].
  - reflexivity.
  - destruct (f x); [now rewrite IH|exact IH].
  - destruct (f x), (f y); try reflexivity. apply perm_swap.
  - now rewrite IH1.
Qed.

Lemma sorted_filter {A} (R : relation A) (f : A -> bool) (l : list A) :
  StronglySorted R l -> StronglySorted R (List.filter f l).
Proof.
  induction 1 as [|x l Hs IH Hx]; cbn [List.filter]; [constructor|].
  destruct (f x); [|exact IH]. constructor; [exact IH|].
  apply Forall_forall. intros y Hy. rewrite Forall_forall in Hx. apply Hx.
  apply list_elem_of_In in Hy. apply filter_In in Hy as [Hy _].
  now apply list_elem_of_In.
Qed.

Lemma NoDup_fst_filter {A} (f : string * A -> bool) (l : list (string * A)) :
  NoDup (map fst l) -> NoDup (map fst (List.filter f l)).
Proof.
  induction l as [|kv l IH]; intros H; [exact H|].
  cbn [map] in H. apply NoDup_cons in H as [Hnin Hnd].
  cbn [List.filter]. destruct (f kv); [|now apply IH].
  cbn [map]. apply NoDup_cons. split; [|now apply IH].
  intros Hin. apply Hnin. apply list_elem_of_In in Hin.
  apply in_map_iff in Hin as (kv' & E & Hin). apply filter_In in Hin as [Hin _].
  apply list_elem_of_In. apply in_map_iff. now exists kv'.
Qed.

Lemma kv_sort_filter {A} (f : string * A -> bool) (l : list (string * A)) :
  NoDup (map fst l) -> kv_sort (List.filter f l) = List.filter f (kv_sort l).
Proof.
  intros Hnd. apply key_sorted_unique.
  - apply kv_sort_sorted.
  - apply sorted_filter, kv_sort_sorted.
  - rewrite (kv_sort_perm _ (NoDup_fst_filter f l Hnd)).
    apply filter_perm. symmetry. now apply kv_sort_perm.
Qed.

Lemma reify_TNil (fuel : nat) (h : heap) (v : value) :
  reify fuel h v = Some TNil -> v = VNil.
Proof.
  destruct fuel as [|fuel]; [discriminate|]. rewrite reify_S.
  destruct v as [|b|n|n|f|re im|s|[l|]|ty s]; try discriminate; [reflexivity| |].
  - destruct (h !! l) as [[m|xs]|]; try discriminate.
    destruct (mapM _ _); discriminate.
  - destruct (s_arr s); [|discriminate].
    destruct (h !! _) as [[m|xs]|]; try discriminate.
    destruct (mapM _ _); discriminate.
Qed.

Lemma heap_lookup_target (h exts : heap) (m : gmap string value) :
  (h ++ [OMap m] ++ exts : heap) !! (List.length h : loc) = Some (OMap m).
Proof. unfold heap, loc. exact (list_lookup_middle h exts (OMap m) _ eq_refl). Qed.

Lemma heap_insert_target (h exts : heap) (m m' : gmap string value) :
  <[(List.length h : loc) := OMap m']> (h ++ [OMap m] ++ exts : heap)
  = h ++ [OMap m'] ++ exts.
Proof.
  unfold heap, loc.
  replace (List.length h) with (List.length h + 0)%nat at 1 by lia.
  rewrite insert_app_r. reflexivity.
Qed.

(** The loop of [merge] over the entries of a [Data], into a new map that
    has none of their keys yet: every entry that is not nil is cloned and
    stored. *)
Lemma merge_clones (fuel : nat) (h : heap) (kvs : list (string * value)) :
  forall (tkvs : list (string * tval)) (m0 : gmap string value) (exts0 : heap),
    Forall2 (fun kv kt => reify_entry fuel h kv = Some kt) kvs tkvs ->
    Forall (fun kv => within fuel h (snd kv) = true) kvs ->
    NoDup (map fst kvs) ->
    (forall kv, In kv kvs -> m0 !! fst kv = None) ->
    exists (m' : gmap string value) (kvs' : list (string * value)) (exts : heap),
      forM_ kvs (fun kv : string * value =>
        let* from := MapIndex (Some (List.length h)) (fst kv) in
        let* to := mergeValue (S fuel) from (snd kv) in
        SetMapIndex (Some (List.length h)) (fst kv) to)
        (h ++ [OMap m0] ++ exts0)
      = Ok tt (h ++ [OMap m'] ++ exts0 ++ exts)
      /\ map_to_list m' ≡ₚ kvs' ++ map_to_list m0
      /\ (forall k, In k (map fst kvs') -> In k (map fst kvs))
      /\ forall h2 m2 ext2, List.length h2 = List.length h ->
           Forall2 (fun kv kt =>
                      reify_entry fuel (h2 ++ [OMap m2] ++ exts0 ++ exts ++ ext2) kv
                      = Some kt)
                   kvs' (not_nil_entries tkvs).
Proof.
  induction kvs as [|[k v] kvs IH]; intros tkvs m0 exts0 H2 HW Hnd Hfresh.
  - apply Forall2_nil_inv_l in H2 as ->. exists m0, [], [].
    cbn [forM_ app]. rewrite app_nil_r. split; [reflexivity|].
    split; [reflexivity|]. split; [auto|]. intros. constructor.
  - apply Forall2_cons_inv_l in H2 as ([k' t] & tkvs' & Hkv & Hrest & ->).
    apply Forall_cons in HW as [Wv Wrest]. cbn [map fst] in Hnd.
    apply NoDup_cons in Hnd as [Hnin Hnd]. cbn [fst snd] in *.
    unfold reify_entry in Hkv. cbn [fst snd] in Hkv.
    destruct (reify fuel h v) as [t1|] eqn:Hv; [|discriminate Hkv].
    injection Hkv as <- <-.
    set (H := h ++ [OMap m0] ++ exts0).
    assert (Hrm : read_map (List.length h) H = Ok m0 H).
    { apply read_map_lookup. apply heap_lookup_target. }
    pose proof (Hfresh (k, v) (or_introl eq_refl)) as Hk0. cbn [fst] in Hk0.
    assert (Hmi : MapIndex (Some (List.length h)) k H = Ok Invalid H).
    { cbn [MapIndex]. rewrite (bind_Ok _ _ _ _ _ Hrm). unfold ret.
      now rewrite Hk0. }
    destruct (decide (v = VNil)) as [->|Hnil].
    + (* a nil entry is skipped *)
      assert (Ht : t1 = TNil).
      { destruct fuel; [discriminate Hv|]. rewrite reify_S in Hv. congruence. }
      subst t1.
      assert (Hstep : (let* from := MapIndex (Some (List.length h)) k in
                       let* to := mergeValue (S fuel) from VNil in
                       SetMapIndex (Some (List.length h)) k to) H = Ok tt H).
      { rewrite (bind_Ok _ _ _ _ _ Hmi).
        change (mergeValue (S fuel) Invalid VNil) with (ret (A := rvalue) Invalid).
        rewrite bind_ret_l. cbn [SetMapIndex].
        rewrite (bind_Ok _ _ _ _ _ Hrm), (delete_id m0 k Hk0).
        rewrite (write_map_Ok _ m0 m0 H (heap_lookup_target _ _ _)).
        subst H. now rewrite heap_insert_target. }
      destruct (IH tkvs' m0 exts0 Hrest Wrest Hnd
                  (fun kv Hin => Hfresh kv (or_intror Hin)))
        as (m' & kvs' & exts & Hf & Hp & Hk & Hr).
      exists m', kvs', exts. split.
      { cbn [forM_ fst snd]. now rewrite (bind_Ok _ _ _ _ _ Hstep). }
      split; [exact Hp|].
      split; [intros k0 Hin; right; now apply Hk|].
      intros h2 m2 ext2 Hlen. unfold not_nil_entries. cbn [List.filter snd is_TNil negb].
      now apply Hr.
    + (* another entry is cloned *)
      assert (Ht : t1 <> TNil) by (intros ->; now apply Hnil, (reify_TNil fuel h)).
      destruct (clone_copy fuel v H t1) as (v' & e & Hc & _ & Hv').
      { subst H. now apply reify_app. }
      { subst H. now apply within_app. }
      assert (Hmv : mergeValue (S fuel) Invalid v H = Ok (RVal v') (H ++ e)).
      { cbn [mergeValue IsValid].
        destruct v; try contradiction; rewrite bind_ret_l;
          now rewrite (bind_Ok _ _ _ _ _ Hc). }
      assert (HH : H ++ e = h ++ [OMap m0] ++ exts0 ++ e)
        by (subst H; now rewrite <- ?app_assoc).
      assert (Hs : SetMapIndex (Some (List.length h)) k (RVal v') (H ++ e)
                   = Ok tt (h ++ [OMap (<[k := v']> m0)] ++ exts0 ++ e)).
      { cbn [SetMapIndex load]. rewrite bind_ret_l. rewrite HH.
        rewrite (bind_Ok _ _ _ _ _
                   (read_map_lookup _ _ _ (heap_lookup_target h (exts0 ++ e) m0))).
        rewrite (write_map_Ok _ m0 _ _ (heap_lookup_target _ _ _)).
        now rewrite heap_insert_target. }
      assert (Hstep : (let* from := MapIndex (Some (List.length h)) k in
                       let* to := mergeValue (S fuel) from v in
                       SetMapIndex (Some (List.length h)) k to) H
                      = Ok tt (h ++ [OMap (<[k := v']> m0)] ++ exts0 ++ e)).
      { now rewrite (bind_Ok _ _ _ _ _ Hmi), (bind_Ok _ _ _ _ _ Hmv). }
      destruct (IH tkvs' (<[k := v']> m0) (exts0 ++ e) Hrest Wrest Hnd)
        as (m' & kvs' & exts & Hf & Hp & Hk & Hr).
      { intros kv Hin. rewrite lookup_insert_ne.
        - apply Hfresh. now right.
        - intros ->. apply Hnin. apply list_elem_of_In. apply in_map_iff.
          now exists kv. }
      exists m', ((k, v') :: kvs'), (e ++ exts).
      split.
      { cbn [forM_ fst snd]. rewrite (bind_Ok _ _ _ _ _ Hstep).
        rewrite <- ?app_assoc in Hf. rewrite <- ?app_assoc. exact Hf. }
      split.
      { rewrite Hp. rewrite (map_to_list_insert m0 k v' Hk0).
        cbn [app]. now rewrite Permutation_middle. }
      split.
      { intros k0 [<-|Hin]; [now left|right; now apply Hk]. }
      intros h2 m2 ext2 Hlen. unfold not_nil_entries. cbn [List.filter snd].
      replace (negb (is_TNil t1)) with true
        by (destruct t1; try reflexivity; contradiction).
      constructor.
      * unfold reify_entry. cbn [fst snd].
        specialize (Hv' (h2 ++ [OMap m2] ++ exts0) (exts ++ ext2)).
        rewrite <- ?app_assoc in Hv'. rewrite <- ?app_assoc. rewrite Hv'; [reflexivity|].
        subst H. rewrite !length_app. cbn [List.length]. lia.
      * specialize (Hr h2 m2 ext2 Hlen). rewrite <- ?app_assoc in Hr.
        rewrite <- ?app_assoc. exact Hr.
Qed.

Lemma reify_entry_keys (fuel : nat) (h : heap) (kvs : list (string * value))
    (tkvs : list (string * tval)) :
  Forall2 (fun kv kt => reify_entry fuel h kv = Some kt) kvs tkvs ->
  map fst tkvs = map fst kvs.
Proof.
  induction 1 as [|kv kt l l' E _ IH]; [reflexivity|].
  cbn [map]. rewrite IH. f_equal. unfold reify_entry in E.
  destruct (reify _ _ (snd kv)); [|discriminate E]. now injection E as <-.
Qed.

(** X17: [Clone] makes a deep copy. It allocates the copy at the end of the
    store and changes nothing else; the copy holds the entries of the
    original that are not nil, each with the same content at every depth;
    and it shares nothing with the original: it reads the same whatever
    the objects of the store before the call are replaced by. *)
Theorem X17_Clone_deep_copy (fuel : nat) (d : Data) (h : heap) (t : tval) :
  reify_data (S fuel) h d = Some t ->
  within (S fuel) h (VMap (data d)) = true ->
  exists ext : heap,
    Clone (S fuel) d h = Ok (mkData (Some (List.length h))) (h ++ ext)
    /\ forall h2 : heap, List.length h2 = List.length h ->
         reify_data (S fuel) (h2 ++ ext) (mkData (Some (List.length h)))
         = Some (TMap (not_nil_entries (tree_entries t))).
Proof.
  unfold reify_data. intros Hr Hw. rewrite reify_S in Hr. cbn [within] in Hw.
  unfold Clone, Merge. unfold new_map at 1. unfold bind at 1. cbn [merge].
  destruct (data d) as [dl|] eqn:Hd.
  - destruct (h !! dl) as [[e|xs]|] eqn:Hdl; try discriminate Hr.
    destruct (mapM (reify_entry fuel h) (map_to_list e)) as [tkvs|] eqn:Hm;
      [|discriminate Hr].
    injection Hr as <-. apply mapM_Some in Hm.
    destruct (merge_clones fuel h (map_to_list e) tkvs ∅ [] Hm)
      as (m' & kvs' & exts & Hf & Hp & _ & Hrs).
    { apply Forall_forall. intros kv Hin. rewrite forallb_forall in Hw.
      apply Hw. now apply list_elem_of_In. }
    { exact (NoDup_fst_map_to_list e). }
    { intros kv _. apply lookup_empty. }
    exists ([OMap m'] ++ exts). split.
    + unfold merge_entries.
      assert (Hrange : range_map (Some dl) (h ++ [OMap ∅])
                       = Ok (map_to_list e) (h ++ [OMap ∅])).
      { cbn [range_map].
        now rewrite (bind_Ok _ _ _ _ _
                       (read_map_lookup _ _ _ (heap_lookup_app_l h [OMap ∅] dl _ Hdl))). }
      rewrite !bind_assoc, (bind_Ok _ _ _ _ _ Hrange).
      cbn [app] in Hf. rewrite (bind_Ok _ _ _ _ _ Hf). reflexivity.
    + intros h2 Hlen. cbn [data]. rewrite reify_S.
      assert (Hlk : (h2 ++ [OMap m'] ++ exts : heap) !! (List.length h : loc)
                    = Some (OMap m')).
      { rewrite <- Hlen. apply heap_lookup_target. }
      rewrite Hlk.
      rewrite map_to_list_empty, app_nil_r in Hp.
      assert (Hrs' : Forall2 (fun kv kt =>
                       reify_entry fuel (h2 ++ [OMap m'] ++ exts) kv = Some kt)
                       kvs' (not_nil_entries tkvs)).
      { specialize (Hrs h2 m' [] Hlen). rewrite app_nil_r in Hrs. exact Hrs. }
      destruct (Permutation_Forall2 (Permutation_sym Hp) Hrs')
        as (tk & Hpt & Hall).
      rewrite (proj2 (mapM_Some _ _ _) Hall).
      assert (Hnd : NoDup (map fst tkvs)).
      { rewrite (reify_entry_keys _ _ _ _ Hm). exact (NoDup_fst_map_to_list e). }
      rewrite <- (kv_sort_perm_eq _ _ Hpt (NoDup_fst_filter _ _ Hnd)).
      unfold not_nil_entries. rewrite (kv_sort_filter _ _ Hnd). reflexivity.
  - injection Hr as <-. exists [OMap ∅]. split.
    + unfold merge_entries. cbn [range_map]. rewrite !bind_assoc, bind_ret_l.
      reflexivity.
    + intros h2 Hlen. cbn [data]. rewrite reify_S.
      assert (Hlk : (h2 ++ [OMap ∅] : heap) !! (List.length h : loc)
                    = Some (OMap ∅)).
      { rewrite <- Hlen. exact (heap_lookup_target h2 [] ∅). }
      rewrite Hlk. rewrite map_to_list_empty. reflexivity.
Qed.

Lemma X17_Clone_deep_copy_witness :
  exists ext : heap,
    Clone 4 (mkData (Some 0%nat)) seq_store
    = Ok (mkData (Some (List.length seq_store))) (seq_store ++ ext)
    /\ forall h2 : heap, List.length h2 = List.length seq_store ->
         reify_data 4 (h2 ++ ext) (mkData (Some (List.length seq_store)))
         = Some (TMap (not_nil_entries
                         (tree_entries
                            (TMap [("a", TMap [("arr", ints [1; 2; 3])])])))).
Proof.
  apply (X17_Clone_deep_copy 3 (mkData (Some 0%nat)) seq_store
           (TMap [("a", TMap [("arr", ints [1; 2; 3])])])).
  - vm_compute. reflexivity.
  - vm_compute. reflexivity.
Defined.
